(** * TrustCircles: a shallow embedding of the lending contract

    The Solidity contract [TrustCircles] (circles, members, loans, default
    penalties and the liquidity held as the contract balance) is embedded as
    pure functions over an explicit [State].

    - [uint256] and [address] values are integers ([Z]); Solidity 0.8 checked
      arithmetic is written out: [add], [mul] and [div] fail with
      [ArithmeticPanic] where the compiled code panics (the two subtractions
      of the contract are guarded by a comparison and cannot underflow).
    - a [mapping] is a finite map ([gmap]) read with the zero value of its
      range as default, as storage is: [!!!] for the structs, whose
      [Inhabited] instances are their zero values, and [default] otherwise.
    - a transaction either returns the new state or fails with an [error];
      [transact] keeps the old state on failure (the EVM rolls back).
    - [msg.sender], [msg.value] and [block.timestamp] are fields of [Env];
      so is [accepts], which tells of every address whether a plain payment
      to it goes through.
    - events are not part of the state; the reads made only to build an event
      are kept, since they can fail.
    - [transfer] fails when the balance is short or the recipient does not
      take the payment (a contract without a receive function, or one that
      needs more than the 2300 gas passed on). *)

From stdpp Require Import gmap strings list fin_maps.

Open Scope Z_scope.

(** ** Results of a call *)

Inductive error : Type :=
  | Message (reason : string)   (* require(cond, reason) *)
  | ArithmeticPanic             (* overflow, underflow, division by zero *)
  | TransferFailed              (* transfer beyond the balance, or refused *)
  | NonPayable.                 (* value sent to a function that is not payable *)

Inductive result (A : Type) : Type :=
  | Ok (a : A)
  | Err (e : error).
Arguments Ok {A} a.
Arguments Err {A} e.

#[global] Instance result_ret : MRet result := fun A a => Ok a.
#[global] Instance result_bind : MBind result := fun A B f r =>
  match r with
  | Ok a => f a
  | Err e => Err e
  end.

Definition require (cond : bool) (reason : string) : result unit :=
  if cond then Ok tt else Err (Message reason).

Definition is_ok {A} (r : result A) : bool :=
  match r with Ok _ => true | Err _ => false end.

(** ** Checked uint256 arithmetic *)

Definition MAX_UINT256 : Z := 2 ^ 256 - 1.
Definition MAX_ADDRESS : Z := 2 ^ 160 - 1.

Definition add (a b : Z) : result Z :=
  if a + b <=? MAX_UINT256 then Ok (a + b) else Err ArithmeticPanic.
Definition mul (a b : Z) : result Z :=
  if a * b <=? MAX_UINT256 then Ok (a * b) else Err ArithmeticPanic.
Definition div (a b : Z) : result Z :=
  if b =? 0 then Err ArithmeticPanic else Ok (a / b).

(** ** Structs *)

Module Circle.
Record t : Type := mk {
  id : Z;
  name : string;
  members : list Z;
  totalStake : Z;
  createdAt : Z;
  isActive : bool
}.
Definition zero : t := mk 0 EmptyString [] 0 0 false.
End Circle.

Module MemberData.
Record t : Type := mk {
  circleId : Z;
  individualScore : Z;
  trustBond : Z;
  totalBorrowed : Z;
  totalRepaid : Z;
  loansCompleted : Z;
  isActive : bool;
  hasActiveLoan : bool
}.
Definition zero : t := mk 0 0 0 0 0 0 false false.

Definition set_individualScore (v : Z) (m : t) : t :=
  mk (circleId m) v (trustBond m) (totalBorrowed m) (totalRepaid m)
     (loansCompleted m) (isActive m) (hasActiveLoan m).
Definition set_totalBorrowed (v : Z) (m : t) : t :=
  mk (circleId m) (individualScore m) (trustBond m) v (totalRepaid m)
     (loansCompleted m) (isActive m) (hasActiveLoan m).
Definition set_totalRepaid (v : Z) (m : t) : t :=
  mk (circleId m) (individualScore m) (trustBond m) (totalBorrowed m) v
     (loansCompleted m) (isActive m) (hasActiveLoan m).
Definition set_loansCompleted (v : Z) (m : t) : t :=
  mk (circleId m) (individualScore m) (trustBond m) (totalBorrowed m)
     (totalRepaid m) v (isActive m) (hasActiveLoan m).
Definition set_isActive (v : bool) (m : t) : t :=
  mk (circleId m) (individualScore m) (trustBond m) (totalBorrowed m)
     (totalRepaid m) (loansCompleted m) v (hasActiveLoan m).
Definition set_hasActiveLoan (v : bool) (m : t) : t :=
  mk (circleId m) (individualScore m) (trustBond m) (totalBorrowed m)
     (totalRepaid m) (loansCompleted m) (isActive m) v.
End MemberData.

Module Loan.
Record t : Type := mk {
  id : Z;
  borrower : Z;
  amount : Z;
  interestAmount : Z;
  totalRepayment : Z;
  requestTime : Z;
  approvalTime : Z;
  disbursementTime : Z;
  dueDate : Z;
  repaymentTime : Z;
  approved : bool;
  disbursed : bool;
  repaid : bool;
  purpose : string
}.
Definition zero : t := mk 0 0 0 0 0 0 0 0 0 0 false false false EmptyString.

(* loan.approved = true; loan.approvalTime = now *)
Definition approve (now : Z) (l : t) : t :=
  mk (id l) (borrower l) (amount l) (interestAmount l) (totalRepayment l)
     (requestTime l) now (disbursementTime l) (dueDate l) (repaymentTime l)
     true (disbursed l) (repaid l) (purpose l).
(* loan.disbursed = true; loan.disbursementTime = now; loan.dueDate = due *)
Definition disburse (now due : Z) (l : t) : t :=
  mk (id l) (borrower l) (amount l) (interestAmount l) (totalRepayment l)
     (requestTime l) (approvalTime l) now due (repaymentTime l)
     (approved l) true (repaid l) (purpose l).
(* loan.repaid = true; loan.repaymentTime = now *)
Definition repay (now : Z) (l : t) : t :=
  mk (id l) (borrower l) (amount l) (interestAmount l) (totalRepayment l)
     (requestTime l) (approvalTime l) (disbursementTime l) (dueDate l) now
     (approved l) (disbursed l) true (purpose l).
End Loan.

#[global] Instance Circle_inhabited : Inhabited Circle.t := populate Circle.zero.
#[global] Instance MemberData_inhabited : Inhabited MemberData.t :=
  populate MemberData.zero.
#[global] Instance Loan_inhabited : Inhabited Loan.t := populate Loan.zero.

(** ** Contract state *)

Record State : Type := mkState {
  admin : Z;
  circleCount : Z;
  loanCount : Z;
  isDemoMode : bool;
  demoLoanDuration : Z;
  circles : gmap Z Circle.t;
  members : gmap Z MemberData.t;
  loans : gmap Z Loan.t;
  userLoans : gmap Z (list Z);
  circleExists : gmap Z bool;
  balance : Z                   (* address(this).balance *)
}.

Definition set_admin (v : Z) (s : State) : State :=
  mkState v (circleCount s) (loanCount s) (isDemoMode s) (demoLoanDuration s)
    (circles s) (members s) (loans s) (userLoans s) (circleExists s) (balance s).
Definition set_isDemoMode (v : bool) (s : State) : State :=
  mkState (admin s) (circleCount s) (loanCount s) v (demoLoanDuration s)
    (circles s) (members s) (loans s) (userLoans s) (circleExists s) (balance s).
Definition set_demoLoanDuration (v : Z) (s : State) : State :=
  mkState (admin s) (circleCount s) (loanCount s) (isDemoMode s) v
    (circles s) (members s) (loans s) (userLoans s) (circleExists s) (balance s).
Definition set_members (v : gmap Z MemberData.t) (s : State) : State :=
  mkState (admin s) (circleCount s) (loanCount s) (isDemoMode s)
    (demoLoanDuration s) (circles s) v (loans s) (userLoans s)
    (circleExists s) (balance s).
Definition set_loans (v : gmap Z Loan.t) (s : State) : State :=
  mkState (admin s) (circleCount s) (loanCount s) (isDemoMode s)
    (demoLoanDuration s) (circles s) (members s) v (userLoans s)
    (circleExists s) (balance s).
Definition set_balance (v : Z) (s : State) : State :=
  mkState (admin s) (circleCount s) (loanCount s) (isDemoMode s)
    (demoLoanDuration s) (circles s) (members s) (loans s) (userLoans s)
    (circleExists s) v.

Record Env : Type := mkWorld {
  sender : Z;           (* msg.sender *)
  value : Z;            (* msg.value *)
  timestamp : Z;        (* block.timestamp *)
  accepts : Z → bool    (* does a plain payment to the address go through *)
}.

(** A transaction among externally owned accounts, which take every
    payment. *)
Definition mkEnv (sender value timestamp : Z) : Env :=
  mkWorld sender value timestamp (λ _, true).

(** ** Constants *)

Definition ether : Z := 10 ^ 18.
Definition days : Z := 86400.
Definition minutes : Z := 60.

Definition MIN_CIRCLE_MEMBERS : Z := 3.
Definition STARTING_SCORE : Z := 50.
Definition MAX_SCORE : Z := 100.
Definition MIN_STAKE : Z := 500000000000000000.
Definition LOAN_DURATION : Z := 7 * days.
Definition INDIVIDUAL_WEIGHT : Z := 60.
Definition CIRCLE_WEIGHT : Z := 40.

Definition ON_TIME_BONUS : Z := 10.
Definition EARLY_BONUS : Z := 15.
Definition LATE_PENALTY : Z := 5.
Definition VERY_LATE_PENALTY : Z := 30.
Definition DEFAULT_PENALTY : Z := 50.
Definition CIRCLE_DEFAULT_PENALTY : Z := 20.

(** The state left by the constructor, run by [deployer]. *)
Definition init (deployer : Z) : State :=
  mkState deployer 0 0 false (7 * minutes) ∅ ∅ ∅ ∅ ∅ 0.

Definition len {A} (l : list A) : Z := Z.of_nat (length l).
Definition bytes_length (str : string) : Z := Z.of_nat (String.length str).

(** payable(to).transfer(amount) *)
Definition transfer (e : Env) (to amount : Z) (s : State) : result State :=
  if (amount <=? balance s) && accepts e to
  then Ok (set_balance (balance s - amount) s)
  else Err TransferFailed.

(** ** Circle management *)

Definition createCircle (s : State) (e : Env) (_name : string) : result State :=
  require (MIN_STAKE <=? value e) "Stake at least 0.5 POL";;
  require (MemberData.circleId (members s !!! sender e) =? 0)
    "Already in a circle";;
  require (0 <? bytes_length _name) "Name required";;
  count ← add (circleCount s) 1;
  let circle := Circle.mk count _name [sender e] (value e) (timestamp e) false in
  let member :=
    MemberData.mk count STARTING_SCORE (value e) 0 0 0 true false in
  Ok (mkState (admin s) count (loanCount s) (isDemoMode s) (demoLoanDuration s)
        (<[count := circle]> (circles s))
        (<[sender e := member]> (members s))
        (loans s) (userLoans s)
        (<[count := true]> (circleExists s))
        (balance s)).

Definition joinCircle (s : State) (e : Env) (_circleId : Z) : result State :=
  require (MIN_STAKE <=? value e) "Stake at least 0.5 POL";;
  require (MemberData.circleId (members s !!! sender e) =? 0)
    "Already in a circle";;
  require (default false (circleExists s !! _circleId)) "Circle doesn't exist";;
  let circle := circles s !!! _circleId in
  require (len (Circle.members circle) <? 10) "Circle full";;
  let members' := Circle.members circle ++ [sender e] in
  stake ← add (Circle.totalStake circle) (value e);
  let member :=
    MemberData.mk _circleId STARTING_SCORE (value e) 0 0 0 true false in
  let active :=
    if (MIN_CIRCLE_MEMBERS <=? len members') && negb (Circle.isActive circle)
    then true else Circle.isActive circle in
  let circle' :=
    Circle.mk (Circle.id circle) (Circle.name circle) members' stake
      (Circle.createdAt circle) active in
  Ok (mkState (admin s) (circleCount s) (loanCount s) (isDemoMode s)
        (demoLoanDuration s)
        (<[_circleId := circle']> (circles s))
        (<[sender e := member]> (members s))
        (loans s) (userLoans s) (circleExists s) (balance s)).

(** ** Score calculations *)

(* the loop of getCircleAverageScore: totalScore += score, checked *)
Fixpoint sumScores (ms : gmap Z MemberData.t) (l : list Z) (totalScore : Z)
  : result Z :=
  match l with
  | [] => Ok totalScore
  | a :: l' =>
      let member := ms !!! a in
      let score :=
        if 0 <? MemberData.individualScore member
        then MemberData.individualScore member else STARTING_SCORE in
      totalScore' ← add totalScore score;
      sumScores ms l' totalScore'
  end.

Definition getCircleAverageScore (s : State) (_circleId : Z) : result Z :=
  let circle := circles s !!! _circleId in
  if len (Circle.members circle) =? 0 then Ok STARTING_SCORE
  else
    totalScore ← sumScores (members s) (Circle.members circle) 0;
    div totalScore (len (Circle.members circle)).

Definition getTrustScore (s : State) (_user : Z) : result Z :=
  let member := members s !!! _user in
  let individualScore :=
    if 0 <? MemberData.individualScore member
    then MemberData.individualScore member else STARTING_SCORE in
  if MemberData.circleId member =? 0 then Ok individualScore
  else
    let circle := circles s !!! MemberData.circleId member in
    if negb (Circle.isActive circle) then Ok individualScore
    else
      circleAverage ← getCircleAverageScore s (MemberData.circleId member);
      a ← mul individualScore INDIVIDUAL_WEIGHT;
      b ← mul circleAverage CIRCLE_WEIGHT;
      c ← add a b;
      div c 100.

(* the tiers of getMaxLoanAmount, in wei *)
Definition maxLoanOfScore (score : Z) : Z :=
  if score <? 60 then 10 * ether
  else if score <? 70 then 20 * ether
  else if score <? 80 then 50 * ether
  else if score <? 90 then 100 * ether
  else 200 * ether.

(* the tiers of getInterestRate, in percent *)
Definition rateOfScore (score : Z) : Z :=
  if score <? 60 then 6
  else if score <? 70 then 4
  else if score <? 80 then 4
  else if score <? 90 then 2
  else 2.

Definition getMaxLoanAmount (s : State) (_user : Z) : result Z :=
  score ← getTrustScore s _user;
  Ok (maxLoanOfScore score).

Definition getInterestRate (s : State) (_user : Z) : result Z :=
  score ← getTrustScore s _user;
  Ok (rateOfScore score).

(** ** Loan management *)

Definition requestLoan (s : State) (e : Env) (_amount : Z) (_purpose : string)
  : result State :=
  (* modifier notFrozen *)
  require (MemberData.isActive (members s !!! sender e)) "Account frozen";;
  (* modifier inActiveCircle *)
  let circleId := MemberData.circleId (members s !!! sender e) in
  require (0 <? circleId) "Not in a circle";;
  require (Circle.isActive (circles s !!! circleId)) "Circle not active";;
  require (negb (MemberData.hasActiveLoan (members s !!! sender e)))
    "Already have active loan";;
  require (0 <? _amount) "Amount must be greater than 0";;
  require (0 <? bytes_length _purpose) "Purpose required";;
  maxAmount ← getMaxLoanAmount s (sender e);
  require (_amount <=? maxAmount) "Amount exceeds limit";;
  interestRate ← getInterestRate s (sender e);
  product ← mul _amount interestRate;
  interest ← div product 100;
  totalRepayment ← add _amount interest;
  count ← add (loanCount s) 1;
  let loan :=
    Loan.mk count (sender e) _amount interest totalRepayment (timestamp e)
      0 0 0 0 false false false _purpose in
  Ok (mkState (admin s) (circleCount s) count (isDemoMode s)
        (demoLoanDuration s) (circles s)
        (<[sender e :=
             MemberData.set_hasActiveLoan true (members s !!! sender e)]>
           (members s))
        (<[count := loan]> (loans s))
        (<[sender e := default [] (userLoans s !! sender e) ++ [count]]>
           (userLoans s))
        (circleExists s) (balance s)).

(* isDemoMode ? demoLoanDuration : LOAN_DURATION *)
Definition loanDuration (s : State) : Z :=
  if isDemoMode s then demoLoanDuration s else LOAN_DURATION.

(* members[borrower].totalBorrowed += amount *)
Definition creditBorrowed (borrower amount : Z) (s : State) : result State :=
  let member := members s !!! borrower in
  total ← add (MemberData.totalBorrowed member) amount;
  Ok (set_members
        (<[borrower := MemberData.set_totalBorrowed total member]> (members s))
        s).

Definition approveLoan (s : State) (e : Env) (_loanId : Z) : result State :=
  require (sender e =? admin s) "Only admin";;
  let loan := loans s !!! _loanId in
  require (negb (Loan.borrower loan =? 0)) "Loan doesn't exist";;
  require (negb (Loan.approved loan)) "Already approved";;
  require (negb (Loan.disbursed loan)) "Already disbursed";;
  require (Loan.amount loan <=? balance s) "Insufficient contract balance";;
  dueDate ← add (timestamp e) (loanDuration s);
  let loan' :=
    Loan.disburse (timestamp e) dueDate (Loan.approve (timestamp e) loan) in
  let s1 := set_loans (<[_loanId := loan']> (loans s)) s in
  s2 ← creditBorrowed (Loan.borrower loan) (Loan.amount loan) s1;
  transfer e (Loan.borrower loan) (Loan.amount loan) s2.

Definition disburseLoan (s : State) (e : Env) (_loanId : Z) : result State :=
  require (sender e =? admin s) "Only admin";;
  let loan := loans s !!! _loanId in
  require (Loan.approved loan) "Not approved";;
  require (negb (Loan.disbursed loan)) "Already disbursed";;
  require (value e =? Loan.amount loan) "Incorrect amount";;
  dueDate ← add (timestamp e) (loanDuration s);
  let loan' := Loan.disburse (timestamp e) dueDate loan in
  let s1 := set_loans (<[_loanId := loan']> (loans s)) s in
  s2 ← creditBorrowed (Loan.borrower loan) (Loan.amount loan) s1;
  transfer e (Loan.borrower loan) (Loan.amount loan) s2.

Definition _calculateCreditBonus (_dueDate _repaymentTime : Z) : result Z :=
  if _repaymentTime <? _dueDate then Ok EARLY_BONUS
  else
    onTime ← add _dueDate (3 * days);
    if _repaymentTime <=? onTime then Ok ON_TIME_BONUS
    else
      late ← add _dueDate (7 * days);
      if _repaymentTime <=? late then Ok LATE_PENALTY
      else Ok 0.

Definition _updateScoresOnRepayment (s : State) (_borrower _creditBonus : Z)
  : result State :=
  let member := members s !!! _borrower in
  s1 ←
    (if 0 <? _creditBonus then
       raised ← add (MemberData.individualScore member) _creditBonus;
       let score :=
         if MAX_SCORE <? raised then MAX_SCORE else raised in
       Ok (set_members
             (<[_borrower := MemberData.set_individualScore score member]>
                (members s)) s)
     else Ok s);
  if 0 <? MemberData.circleId member then
    _ ← getCircleAverageScore s1 (MemberData.circleId member);
    Ok s1
  else Ok s1.

Definition repayLoan (s : State) (e : Env) (_loanId : Z) : result State :=
  let loan := loans s !!! _loanId in
  require (Loan.borrower loan =? sender e) "Not your loan";;
  require (Loan.disbursed loan) "Not disbursed yet";;
  require (negb (Loan.repaid loan)) "Already repaid";;
  require (value e =? Loan.totalRepayment loan) "Incorrect amount";;
  let s1 := set_loans (<[_loanId := Loan.repay (timestamp e) loan]> (loans s)) s in
  let member := members s1 !!! sender e in
  repaidTotal ← add (MemberData.totalRepaid member) (Loan.totalRepayment loan);
  completed ← add (MemberData.loansCompleted member) 1;
  let member' :=
    MemberData.set_hasActiveLoan false
      (MemberData.set_loansCompleted completed
         (MemberData.set_totalRepaid repaidTotal member)) in
  let s2 := set_members (<[sender e := member']> (members s1)) s1 in
  creditBonus ← _calculateCreditBonus (Loan.dueDate loan) (timestamp e);
  _updateScoresOnRepayment s2 (sender e) creditBonus.

(** ** Default penalties *)

(* if (score >= penalty) score -= penalty; else score = 0; *)
Definition slash (penalty : Z) (m : MemberData.t) : MemberData.t :=
  MemberData.set_individualScore
    (if penalty <=? MemberData.individualScore m
     then MemberData.individualScore m - penalty else 0) m.

(* the loop of _penalizeCircle over circle.members *)
Fixpoint penalizeMembers (ms : gmap Z MemberData.t) (l : list Z)
  (_defaulter : Z) : gmap Z MemberData.t :=
  match l with
  | [] => ms
  | memberAddr :: l' =>
      let ms' :=
        if negb (memberAddr =? _defaulter)
        then <[memberAddr := slash CIRCLE_DEFAULT_PENALTY (ms !!! memberAddr)]> ms
        else ms in
      penalizeMembers ms' l' _defaulter
  end.

Definition _penalizeCircle (s : State) (_circleId _defaulter : Z)
  : result State :=
  let circle := circles s !!! _circleId in
  let s1 :=
    set_members
      (penalizeMembers (members s) (Circle.members circle) _defaulter) s in
  _ ← getCircleAverageScore s1 _circleId;
  Ok s1.

Definition penalizeDefault (s : State) (e : Env) (_loanId : Z) : result State :=
  require (sender e =? admin s) "Only admin";;
  let loan := loans s !!! _loanId in
  require (Loan.disbursed loan) "Not disbursed";;
  require (negb (Loan.repaid loan)) "Already repaid";;
  deadline ← add (Loan.dueDate loan) (14 * days);
  require (deadline <? timestamp e) "Not overdue enough";;
  let borrower := Loan.borrower loan in
  let member := members s !!! borrower in
  let member' :=
    MemberData.set_isActive false (slash DEFAULT_PENALTY member) in
  let s1 := set_members (<[borrower := member']> (members s)) s in
  if 0 <? MemberData.circleId member' then
    _penalizeCircle s1 (MemberData.circleId member') borrower
  else Ok s1.

(** ** Admin functions *)

Definition setDemoMode (s : State) (e : Env) (_enabled : bool) : result State :=
  require (sender e =? admin s) "Only admin";;
  Ok (set_isDemoMode _enabled s).

Definition setDemoLoanDuration (s : State) (e : Env) (_duration : Z)
  : result State :=
  require (sender e =? admin s) "Only admin";;
  Ok (set_demoLoanDuration _duration s).

Definition depositLiquidity (s : State) (e : Env) : result State :=
  require (sender e =? admin s) "Only admin";;
  require (0 <? value e) "Must deposit some amount";;
  Ok s.

Definition withdraw (s : State) (e : Env) (_amount : Z) : result State :=
  require (sender e =? admin s) "Only admin";;
  require (0 <? _amount) "Amount must be greater than 0";;
  require (_amount <=? balance s) "Insufficient balance";;
  transfer e (admin s) _amount s.

Definition getContractBalance (s : State) : Z := balance s.

Definition unfreezeAccount (s : State) (e : Env) (_user : Z) : result State :=
  require (sender e =? admin s) "Only admin";;
  Ok (set_members
        (<[_user := MemberData.set_isActive true (members s !!! _user)]>
           (members s)) s).

Definition transferAdmin (s : State) (e : Env) (_newAdmin : Z) : result State :=
  require (sender e =? admin s) "Only admin";;
  require (negb (_newAdmin =? 0)) "Invalid address";;
  Ok (set_admin _newAdmin s).

Definition isLoanOverdue (s : State) (e : Env) (_loanId : Z) : bool :=
  let loan := loans s !!! _loanId in
  Loan.disbursed loan && negb (Loan.repaid loan)
  && (Loan.dueDate loan <? timestamp e).

(** ** Transactions *)

Inductive Call : Type :=
  | CreateCircle (_name : string)
  | JoinCircle (_circleId : Z)
  | RequestLoan (_amount : Z) (_purpose : string)
  | ApproveLoan (_loanId : Z)
  | DisburseLoan (_loanId : Z)
  | RepayLoan (_loanId : Z)
  | PenalizeDefault (_loanId : Z)
  | SetDemoMode (_enabled : bool)
  | SetDemoLoanDuration (_duration : Z)
  | DepositLiquidity
  | Withdraw (_amount : Z)
  | UnfreezeAccount (_user : Z)
  | TransferAdmin (_newAdmin : Z)
  | Receive.

#[global] Instance Call_eq_dec : EqDecision Call.
Proof. solve_decision. Defined.

Definition payable (c : Call) : bool :=
  match c with
  | CreateCircle _ | JoinCircle _ | DisburseLoan _ | RepayLoan _
  | DepositLiquidity | Receive => true
  | _ => false
  end.

(** The body of the called function, run on the state whose balance already
    holds [msg.value]. *)
Definition body (s : State) (e : Env) (c : Call) : result State :=
  match c with
  | CreateCircle _name => createCircle s e _name
  | JoinCircle _circleId => joinCircle s e _circleId
  | RequestLoan _amount _purpose => requestLoan s e _amount _purpose
  | ApproveLoan _loanId => approveLoan s e _loanId
  | DisburseLoan _loanId => disburseLoan s e _loanId
  | RepayLoan _loanId => repayLoan s e _loanId
  | PenalizeDefault _loanId => penalizeDefault s e _loanId
  | SetDemoMode _enabled => setDemoMode s e _enabled
  | SetDemoLoanDuration _duration => setDemoLoanDuration s e _duration
  | DepositLiquidity => depositLiquidity s e
  | Withdraw _amount => withdraw s e _amount
  | UnfreezeAccount _user => unfreezeAccount s e _user
  | TransferAdmin _newAdmin => transferAdmin s e _newAdmin
  | Receive => Ok s
  end.

Definition call (s : State) (e : Env) (c : Call) : result State :=
  if negb (payable c) && negb (value e =? 0) then Err NonPayable
  else body (set_balance (balance s + value e) s) e c.

(** A failed transaction is rolled back. *)
Definition transact (s : State) (e : Env) (c : Call) : State :=
  match call s e c with
  | Ok s' => s'
  | Err _ => s
  end.

(** Values the EVM can pass: 256-bit words, 160-bit non-null callers. *)
Definition uint256 (x : Z) : Prop := 0 <= x <= MAX_UINT256.
Definition address (x : Z) : Prop := 0 <= x <= MAX_ADDRESS.

Definition wf_env (e : Env) : Prop :=
  0 < sender e <= MAX_ADDRESS ∧ uint256 (value e) ∧ uint256 (timestamp e).

Definition wf_call (c : Call) : Prop :=
  match c with
  | JoinCircle x | ApproveLoan x | DisburseLoan x | RepayLoan x
  | PenalizeDefault x | SetDemoLoanDuration x | Withdraw x => uint256 x
  | RequestLoan x _ => uint256 x
  | UnfreezeAccount a | TransferAdmin a => address a
  | _ => True
  end.

(** States the deployed contract can be in. *)
Inductive reachable : State → Prop :=
  | reachable_init deployer :
      0 < deployer <= MAX_ADDRESS → reachable (init deployer)
  | reachable_step s e c :
      reachable s → wf_env e → wf_call c → reachable (transact s e c).

(** ** Invariants of the reachable states *)

Record Inv (s : State) : Prop := mkInv {
  inv_counts : 0 <= circleCount s ∧ 0 <= loanCount s;
  inv_score : ∀ a m, members s !! a = Some m →
    0 <= MemberData.individualScore m <= MAX_SCORE;
  inv_circle_ids : ∀ i c, circles s !! i = Some c → 1 <= i <= circleCount s;
  inv_exists : ∀ i, circleExists s !! i = Some true → is_Some (circles s !! i);
  inv_member_of : ∀ i c a, circles s !! i = Some c → a ∈ Circle.members c →
    MemberData.circleId (members s !!! a) = i;
  inv_nodup : ∀ i c, circles s !! i = Some c → NoDup (Circle.members c);
  inv_size : ∀ i c, circles s !! i = Some c → len (Circle.members c) <= 10;
  inv_active : ∀ i c, circles s !! i = Some c →
    Circle.isActive c = bool_decide (MIN_CIRCLE_MEMBERS <= len (Circle.members c));
  inv_loan_ids : ∀ i l, loans s !! i = Some l → 1 <= i <= loanCount s;
  inv_approved : ∀ i l, loans s !! i = Some l →
    Loan.approved l = Loan.disbursed l;
  inv_borrower : ∀ i l, loans s !! i = Some l →
    0 < MemberData.circleId (members s !!! Loan.borrower l);
  inv_open : ∀ i l, loans s !! i = Some l → Loan.repaid l = false →
    MemberData.hasActiveLoan (members s !!! Loan.borrower l) = true;
  inv_one_loan : ∀ i j li lj,
    loans s !! i = Some li → loans s !! j = Some lj →
    Loan.borrower li = Loan.borrower lj →
    Loan.repaid li = false → Loan.repaid lj = false → i = j
}.

(** A sequence of transactions. *)
Definition run (s : State) (txs : list (Env * Call)) : State :=
  foldl (λ st tx, transact st tx.1 tx.2) s txs.


Definition score (s : State) (a : Z) : Z :=
  MemberData.individualScore (members s !!! a).

(** The credit tiers as the specification tabulates them: trust score,
    maximal loan (in wei) and interest rate (in percent). *)
Definition credit_table (trust maxLoan rate : Z) : Prop :=
  (trust < 60 → maxLoan = 10 * ether ∧ rate = 6) ∧
  (60 <= trust <= 69 → maxLoan = 20 * ether ∧ rate = 4) ∧
  (70 <= trust <= 79 → maxLoan = 50 * ether ∧ rate = 4) ∧
  (80 <= trust <= 89 → maxLoan = 100 * ether ∧ rate = 2) ∧
  (90 <= trust → maxLoan = 200 * ether ∧ rate = 2).




(** Two loan records with the same borrower and the same financial terms. *)
Definition same_terms (l l' : Loan.t) : Prop :=
  Loan.borrower l' = Loan.borrower l ∧ Loan.amount l' = Loan.amount l ∧
  Loan.interestAmount l' = Loan.interestAmount l ∧
  Loan.totalRepayment l' = Loan.totalRepayment l.


(** ** A worked scenario *)

Definition deployer : Z := 1.
Definition alice : Z := 2.
Definition bob : Z := 3.
Definition carol : Z := 4.
Definition t0 : Z := 1700000000.

(* alice founds a circle: one member, not active *)
Definition circleFounded : State :=
  transact (init deployer) (mkEnv alice (5 * ether) t0) (CreateCircle "savers").

(* bob joins: two members, not active *)
Definition circleOfTwo : State :=
  transact circleFounded (mkEnv bob (5 * ether) t0) (JoinCircle 1).

(* carol joins: three members, active *)
Definition carolJoins : Env := mkEnv carol (5 * ether) t0.
Definition circleOfThree : State :=
  transact circleOfTwo carolJoins (JoinCircle 1).

(* alice asks for 10 ether *)
Definition loanRequested : State :=
  transact circleOfThree (mkEnv alice 0 t0) (RequestLoan (10 * ether) "seeds").

(* a state no transaction produces: loan 1 approved but not paid out *)
Definition approvedOnly : State :=
  set_loans
    (<[1 := Loan.approve t0 (loans loanRequested !!! 1)]> (loans loanRequested))
    loanRequested.
Definition disburseEnv : Env := mkEnv deployer (10 * ether) t0.

(* the admin approves, which pays the loan out of the stakes *)
Definition loanDisbursed : State :=
  transact loanRequested (mkEnv deployer 0 t0) (ApproveLoan 1).

(* 22 days later the loan is unpaid and the admin penalizes the default *)
Definition lateEnv : Env := mkEnv deployer 0 (t0 + 22 * days).
Definition loanDefaulted : State :=
  transact loanDisbursed lateEnv (PenalizeDefault 1).

(* alice repays one day before the due date *)
Definition earlyEnv : Env :=
  mkEnv alice (10 * ether + 600000000000000000) (t0 + 6 * days).


(** ** View functions *)

Module UserStats.
Record t : Type := mk {
  circleId : Z;
  individualScore : Z;
  finalTrustScore : Z;
  maxLoanAmount : Z;
  interestRate : Z;
  totalBorrowed : Z;
  totalRepaid : Z;
  loansCompleted : Z;
  hasActiveLoan : bool;
  isActive : bool
}.
End UserStats.

Definition getUserStats (s : State) (_user : Z) : result UserStats.t :=
  let member := members s !!! _user in
  let indScore :=
    if 0 <? MemberData.individualScore member
    then MemberData.individualScore member else STARTING_SCORE in
  trustScore ← getTrustScore s _user;
  let maxLoan :=
    if trustScore <? 60 then 10 * ether
    else if trustScore <? 70 then 20 * ether
    else if trustScore <? 80 then 50 * ether
    else if trustScore <? 90 then 100 * ether
    else 200 * ether in
  let rate :=
    if trustScore <? 60 then 6
    else if trustScore <? 70 then 4
    else if trustScore <? 80 then 4
    else if trustScore <? 90 then 2
    else 2 in
  Ok (UserStats.mk (MemberData.circleId member) indScore trustScore maxLoan
        rate (MemberData.totalBorrowed member) (MemberData.totalRepaid member)
        (MemberData.loansCompleted member) (MemberData.hasActiveLoan member)
        (MemberData.isActive member)).

Module CircleDetails.
Record t : Type := mk {
  name : string;
  memberList : list Z;
  memberCount : Z;
  averageScore : Z;
  totalStake : Z;
  isActive : bool
}.
End CircleDetails.

Definition getCircleDetails (s : State) (_circleId : Z)
  : result CircleDetails.t :=
  let circle := circles s !!! _circleId in
  averageScore ← getCircleAverageScore s _circleId;
  Ok (CircleDetails.mk (Circle.name circle) (Circle.members circle)
        (len (Circle.members circle)) averageScore (Circle.totalStake circle)
        (Circle.isActive circle)).

Module LoanDetails.
Record t : Type := mk {
  borrower : Z;
  amount : Z;
  totalRepayment : Z;
  dueDate : Z;
  approved : bool;
  disbursed : bool;
  repaid : bool;
  purpose : string
}.
End LoanDetails.

Definition getLoanDetails (s : State) (_loanId : Z) : LoanDetails.t :=
  let loan := loans s !!! _loanId in
  LoanDetails.mk (Loan.borrower loan) (Loan.amount loan)
    (Loan.totalRepayment loan) (Loan.dueDate loan) (Loan.approved loan)
    (Loan.disbursed loan) (Loan.repaid loan) (Loan.purpose loan).

Definition getUserLoans (s : State) (_user : Z) : list Z :=
  default [] (userLoans s !! _user).

(* the loop of getCircleMembersScores: scores[i] is the stored score,
   totalScore += scores[i], checked *)
Fixpoint collectScores (ms : gmap Z MemberData.t) (l : list Z) (totalScore : Z)
  : result (list Z * Z) :=
  match l with
  | [] => Ok ([], totalScore)
  | a :: l' =>
      let score := MemberData.individualScore (ms !!! a) in
      totalScore' ← add totalScore score;
      rest ← collectScores ms l' totalScore';
      Ok (score :: rest.1, rest.2)
  end.

(* returns (addresses, scores, averageScore) *)
Definition getCircleMembersScores (s : State) (_circleId : Z)
  : result (list Z * list Z * Z) :=
  let circle := circles s !!! _circleId in
  let memberCount := len (Circle.members circle) in
  collected ← collectScores (members s) (Circle.members circle) 0;
  let averageScore :=
    if 0 <? memberCount then collected.2 / memberCount else 0 in
  Ok (Circle.members circle, collected.1, averageScore).

(** ** Further notions used in the statements *)

(** What a call pays out of the contract when it succeeds. *)
Definition payout (s : State) (c : Call) : Z :=
  match c with
  | ApproveLoan _loanId | DisburseLoan _loanId =>
      Loan.amount (loans s !!! _loanId)
  | Withdraw _amount => _amount
  | _ => 0
  end.

(** The functions guarded by the modifier onlyAdmin. *)
Definition admin_only (c : Call) : bool :=
  match c with
  | ApproveLoan _ | DisburseLoan _ | PenalizeDefault _ | SetDemoMode _
  | SetDemoLoanDuration _ | DepositLiquidity | Withdraw _
  | UnfreezeAccount _ | TransferAdmin _ => true
  | _ => false
  end.

(** The effective score the averages and the blend read: a stored 0 counts
    as the starting score. *)
Definition effectiveScore (s : State) (a : Z) : Z :=
  if 0 <? score s a then score s a else STARTING_SCORE.

(** The sum of a list of numbers. *)
Definition sumList (l : list Z) : Z := foldr Z.add 0 l.

(** How a loan record may differ between a state and a later one: the
    identity and the terms are kept, a flag that is set stays set, and the
    times written at disbursement and at repayment are kept once written. *)
Definition loan_advances (l l' : Loan.t) : Prop :=
  (Loan.id l' = Loan.id l ∧ Loan.borrower l' = Loan.borrower l ∧
   Loan.amount l' = Loan.amount l ∧
   Loan.interestAmount l' = Loan.interestAmount l ∧
   Loan.totalRepayment l' = Loan.totalRepayment l ∧
   Loan.requestTime l' = Loan.requestTime l ∧
   Loan.purpose l' = Loan.purpose l) ∧
  (Loan.approved l = true → Loan.approved l' = true) ∧
  (Loan.disbursed l = true →
   Loan.disbursed l' = true ∧ Loan.approvalTime l' = Loan.approvalTime l ∧
   Loan.disbursementTime l' = Loan.disbursementTime l ∧
   Loan.dueDate l' = Loan.dueDate l) ∧
  (Loan.repaid l = true →
   Loan.repaid l' = true ∧ Loan.repaymentTime l' = Loan.repaymentTime l).

(** The two calls by which an address enters a circle. *)
Definition joins (c : Call) : Prop :=
  (∃ _name, c = CreateCircle _name) ∨ (∃ _circleId, c = JoinCircle _circleId).

(** The bonds of the addresses of a list. *)
Definition bondSum (ms : gmap Z MemberData.t) (l : list Z) : Z :=
  foldr (λ a acc, MemberData.trustBond (ms !!! a) + acc) 0 l.

(** The structure of the circle registry in the reachable states. *)
Record CircleInv (s : State) : Prop := mkCircleInv {
  ci_dense : ∀ i, 1 <= i <= circleCount s →
    is_Some (circles s !! i) ∧ circleExists s !! i = Some true;
  ci_wf : ∀ i c, circles s !! i = Some c →
    Circle.id c = i ∧ 1 <= len (Circle.members c);
  ci_member : ∀ a, MemberData.circleId (members s !!! a) ≠ 0 →
    a ∈ Circle.members (circles s !!! MemberData.circleId (members s !!! a));
  ci_stake : ∀ i c, circles s !! i = Some c →
    Circle.totalStake c = bondSum (members s) (Circle.members c);
  ci_bond : ∀ a, MemberData.circleId (members s !!! a) ≠ 0 →
    MIN_STAKE <= MemberData.trustBond (members s !!! a)
}.

(** The terms requestLoan can give a loan: a principal within the cap of
    the tier whose rate was charged, interest rounded down. *)
Definition loan_terms_ok (l : Loan.t) : Prop :=
  0 < Loan.amount l ∧
  Loan.totalRepayment l = Loan.amount l + Loan.interestAmount l ∧
  ((Loan.interestAmount l = Loan.amount l * 6 / 100 ∧
    Loan.amount l <= 10 * ether) ∨
   (Loan.interestAmount l = Loan.amount l * 4 / 100 ∧
    Loan.amount l <= 50 * ether) ∨
   (Loan.interestAmount l = Loan.amount l * 2 / 100 ∧
    Loan.amount l <= 200 * ether)).

(** The structure of the loan book in the reachable states. *)
Record LoanInv (s : State) : Prop := mkLoanInv {
  li_dense : ∀ i, 1 <= i <= loanCount s → is_Some (loans s !! i);
  li_wf : ∀ i l, loans s !! i = Some l →
    Loan.id l = i ∧ 0 < Loan.borrower l ∧ loan_terms_ok l ∧
    (Loan.repaid l = true → Loan.disbursed l = true);
  li_user : ∀ a i, i ∈ getUserLoans s a ↔
    ∃ l, loans s !! i = Some l ∧ Loan.borrower l = a;
  li_user_nodup : ∀ a, NoDup (getUserLoans s a);
  li_flag : ∀ a, MemberData.hasActiveLoan (members s !!! a) = true →
    ∃ i l, loans s !! i = Some l ∧ Loan.borrower l = a ∧ Loan.repaid l = false
}.

(** The call requestLoan. *)
Definition is_request (c : Call) : Prop :=
  ∃ _amount _purpose, c = RequestLoan _amount _purpose.

(** ** The scenario, continued *)

(* the deployer hands the contract over to carol *)
Definition handedOver : State :=
  transact loanDefaulted (mkEnv deployer 0 t0) (TransferAdmin carol).

(** * Proofs *)

(** ** The result monad *)

Lemma bind_Ok {A B} (r : result A) (k : A → result B) (b : B) :
  r ≫= k = Ok b ↔ ∃ a, r = Ok a ∧ k a = Ok b.
Proof.
  destruct r as [a|err]; simpl; split.
  - intros H. by exists a.
  - by intros (a' & [= <-] & H).
  - intros H. discriminate H.
  - by intros (a' & [=] & _).
Qed.

Lemma require_Ok cond reason u : require cond reason = Ok u ↔ cond = true.
Proof. destruct cond, u; simpl; split; congruence. Qed.

Lemma add_Ok a b c : add a b = Ok c ↔ c = a + b ∧ a + b <= MAX_UINT256.
Proof.
  unfold add. destruct (Z.leb_spec (a + b) MAX_UINT256); split.
  - intros [= <-]. by split.
  - by intros [-> _].
  - intros [=].
  - intros [_ ?]. lia.
Qed.

Lemma mul_Ok a b c : mul a b = Ok c ↔ c = a * b ∧ a * b <= MAX_UINT256.
Proof.
  unfold mul. destruct (Z.leb_spec (a * b) MAX_UINT256); split.
  - intros [= <-]. by split.
  - by intros [-> _].
  - intros [=].
  - intros [_ ?]. lia.
Qed.

Lemma div_Ok a b c : div a b = Ok c ↔ c = a / b ∧ b ≠ 0.
Proof.
  unfold div. destruct (Z.eqb_spec b 0); split.
  - intros [=].
  - intros [_ ?]. done.
  - intros [= <-]. by split.
  - by intros [-> _].
Qed.

Lemma transfer_Ok e to amount s s' :
  transfer e to amount s = Ok s' ↔
  s' = set_balance (balance s - amount) s ∧
  amount <= balance s ∧ accepts e to = true.
Proof.
  unfold transfer.
  destruct (Z.leb_spec amount (balance s)); destruct (accepts e to); simpl;
    split; try (intros [= <-]; by split_and!); try (by intros (-> & _ & _));
    try (intros [=]); intros (_ & ? & ?); (lia || done).
Qed.

Lemma MAX_UINT256_large : 10 ^ 30 <= MAX_UINT256.
Proof. by vm_compute. Qed.

#[global] Opaque MAX_UINT256.

(** Decompose a successful run of monadic code into its steps. *)
Ltac inv_ok H :=
  repeat match type of H with
  | _ ≫= _ = Ok _ =>
      let a := fresh "v" in
      let Ha := fresh "Hstep" in
      apply bind_Ok in H as (a & Ha & H);
      first [ apply require_Ok in Ha
            | apply add_Ok in Ha as [-> Ha]
            | apply mul_Ok in Ha as [-> Ha]
            | apply div_Ok in Ha as [-> Ha]
            | idtac ]
  end.

Ltac bool_to_prop :=
  repeat match goal with
  | H : negb _ = true |- _ => apply negb_true_iff in H
  | H : (_ && _) = true |- _ => apply andb_true_iff in H as [? ?]
  | H : (_ <=? _) = true |- _ => apply Z.leb_le in H
  | H : (_ <? _) = true |- _ => apply Z.ltb_lt in H
  | H : (_ =? _) = true |- _ => apply Z.eqb_eq in H
  | H : (_ <=? _) = false |- _ => apply Z.leb_gt in H
  | H : (_ <? _) = false |- _ => apply Z.ltb_ge in H
  | H : (_ =? _) = false |- _ => apply Z.eqb_neq in H
  end.

(** ** Preservation of the invariant *)

Lemma Inv_init d : Inv (init d).
Proof.
  split; simpl; try done; intros; try (by rewrite lookup_empty in *).
Qed.

Lemma Inv_set_balance v s : Inv s → Inv (set_balance v s).
Proof. intros []. by split. Qed.

Lemma Inv_set_admin v s : Inv s → Inv (set_admin v s).
Proof. intros []. by split. Qed.
Lemma Inv_set_isDemoMode v s : Inv s → Inv (set_isDemoMode v s).
Proof. intros []. by split. Qed.
Lemma Inv_set_demoLoanDuration v s : Inv s → Inv (set_demoLoanDuration v s).
Proof. intros []. by split. Qed.

Lemma lookup_total_Some {A} `{Inhabited A} (m : gmap Z A) k x :
  m !! k = Some x → m !!! k = x.
Proof. intros Hk. by rewrite lookup_total_alt, Hk. Qed.

(** A storage write to one member that keeps the circle and the loan flag
    and leaves the score within bounds. *)
Lemma Inv_update_member s a m' :
  Inv s →
  MemberData.circleId m' = MemberData.circleId (members s !!! a) →
  MemberData.hasActiveLoan m' = MemberData.hasActiveLoan (members s !!! a) →
  0 <= MemberData.individualScore m' <= MAX_SCORE →
  Inv (set_members (<[a := m']> (members s)) s).
Proof.
  intros [] Hc Hl Hs. split; simpl; try done.
  - intros b m [[<- <-]|[? ?]]%lookup_insert_Some; eauto.
  - intros i c b Hi Hb. destruct (decide (a = b)) as [<-|].
    + rewrite lookup_total_insert_eq, Hc. eauto.
    + rewrite lookup_total_insert_ne by done. eauto.
  - intros i l Hi. destruct (decide (a = Loan.borrower l)) as [->|].
    + rewrite lookup_total_insert_eq, Hc. eauto.
    + rewrite lookup_total_insert_ne by done. eauto.
  - intros i l Hi Hr. destruct (decide (a = Loan.borrower l)) as [->|].
    + rewrite lookup_total_insert_eq, Hl. eauto.
    + rewrite lookup_total_insert_ne by done. eauto.
Qed.

Ltac inv_facts HI :=
  pose proof (inv_counts _ HI) as Hcounts;
  pose proof (inv_score _ HI) as Hscore;
  pose proof (inv_circle_ids _ HI) as Hcids;
  pose proof (inv_exists _ HI) as Hexists;
  pose proof (inv_member_of _ HI) as Hmember_of;
  pose proof (inv_nodup _ HI) as Hnodup;
  pose proof (inv_size _ HI) as Hsize;
  pose proof (inv_active _ HI) as Hactive;
  pose proof (inv_loan_ids _ HI) as Hlids;
  pose proof (inv_approved _ HI) as Happroved;
  pose proof (inv_borrower _ HI) as Hborrower;
  pose proof (inv_open _ HI) as Hopen;
  pose proof (inv_one_loan _ HI) as Hone.

Lemma Inv_createCircle s e n s' : Inv s → createCircle s e n = Ok s' → Inv s'.
Proof.
  intros HI H. unfold createCircle in H. inv_ok H. injection H as <-.
  bool_to_prop. inv_facts HI.
  assert (Hfresh : circles s !! (circleCount s + 1) = None).
  { destruct (circles s !! (circleCount s + 1)) eqn:E; [|done].
    apply Hcids in E. lia. }
  assert (Hnot : ∀ i c, circles s !! i = Some c → sender e ∉ Circle.members c).
  { intros i c Hi Hin. pose proof (Hmember_of _ _ _ Hi Hin).
    apply Hcids in Hi. lia. }
  split; simpl.
  - lia.
  - intros b m [[<- <-]|[? ?]]%lookup_insert_Some; simpl; eauto.
    unfold STARTING_SCORE, MAX_SCORE. lia.
  - intros i c [[<- <-]|[? Hi]]%lookup_insert_Some; [lia|].
    apply Hcids in Hi. lia.
  - intros i [[<- _]|[? Hi]]%lookup_insert_Some.
    + rewrite lookup_insert_eq. eauto.
    + rewrite lookup_insert_ne by done. eauto.
  - intros i c a [[<- <-]|[? Hi]]%lookup_insert_Some; simpl.
    + intros ->%list_elem_of_singleton. by rewrite lookup_total_insert_eq.
    + intros Ha. rewrite lookup_total_insert_ne; [eauto|].
      intros <-. by eapply Hnot.
  - intros i c [[<- <-]|[? Hi]]%lookup_insert_Some; simpl; eauto.
    apply NoDup_singleton.
  - intros i c [[<- <-]|[? Hi]]%lookup_insert_Some; simpl; eauto.
    unfold len. simpl. lia.
  - intros i c [[<- <-]|[? Hi]]%lookup_insert_Some; simpl; eauto.
  - eauto.
  - eauto.
  - intros i l Hi. pose proof (Hborrower _ _ Hi).
    rewrite lookup_total_insert_ne; [done|]. intros Heq. rewrite <- Heq in *. lia.
  - intros i l Hi Hr. pose proof (Hborrower _ _ Hi).
    rewrite lookup_total_insert_ne; [eauto|]. intros Heq. rewrite <- Heq in *. lia.
  - eauto.
Qed.

Lemma len_app {A} (l1 l2 : list A) : len (l1 ++ l2) = len l1 + len l2.
Proof. unfold len. rewrite length_app. lia. Qed.

Lemma len_nonneg {A} (l : list A) : 0 <= len l.
Proof. unfold len. lia. Qed.

Lemma Inv_joinCircle s e cid s' : Inv s → joinCircle s e cid = Ok s' → Inv s'.
Proof.
  intros HI H. unfold joinCircle in H. inv_ok H. injection H as <-.
  bool_to_prop. inv_facts HI.
  destruct (circleExists s !! cid) as [[]|] eqn:Hex; try done.
  destruct (Hexists _ Hex) as [c Hc].
  rewrite !(lookup_total_Some _ _ _ Hc) in *.
  assert (Hnot : ∀ i c, circles s !! i = Some c → sender e ∉ Circle.members c).
  { intros i c0 Hi Hin. pose proof (Hmember_of _ _ _ Hi Hin).
    apply Hcids in Hi. lia. }
  split; simpl.
  - lia.
  - intros b m [[<- <-]|[? ?]]%lookup_insert_Some; simpl; eauto.
    unfold STARTING_SCORE, MAX_SCORE. lia.
  - intros i c0 [[<- <-]|[? Hi]]%lookup_insert_Some; eauto.
  - intros i Hi. destruct (decide (cid = i)) as [<-|].
    + rewrite lookup_insert_eq. eauto.
    + rewrite lookup_insert_ne by done. eauto.
  - intros i c0 a [[<- <-]|[? Hi]]%lookup_insert_Some; simpl.
    + intros [Ha| ->%list_elem_of_singleton]%elem_of_app.
      * rewrite lookup_total_insert_ne; [eauto|]. intros <-. by eapply Hnot.
      * by rewrite lookup_total_insert_eq.
    + intros Ha. rewrite lookup_total_insert_ne; [eauto|].
      intros <-. by eapply Hnot.
  - intros i c0 [[<- <-]|[? Hi]]%lookup_insert_Some; simpl; eauto.
    apply NoDup_app. split_and!; eauto using NoDup_singleton.
    intros a Ha ->%list_elem_of_singleton. by eapply Hnot.
  - intros i c0 [[<- <-]|[? Hi]]%lookup_insert_Some; simpl; eauto.
    rewrite len_app. unfold len at 2. simpl. lia.
  - intros i c0 [[<- <-]|[? Hi]]%lookup_insert_Some; simpl; eauto.
    rewrite (Hactive _ _ Hc). rewrite len_app.
    change (len [sender e]) with 1. unfold MIN_CIRCLE_MEMBERS.
    destruct (Z.leb_spec 3 (len (Circle.members c) + 1));
      repeat case_bool_decide; simpl; try done; lia.
  - eauto.
  - eauto.
  - intros i l Hi. pose proof (Hborrower _ _ Hi).
    rewrite lookup_total_insert_ne; [done|]. intros Heq. rewrite <- Heq in *. lia.
  - intros i l Hi Hr. pose proof (Hborrower _ _ Hi).
    rewrite lookup_total_insert_ne; [eauto|]. intros Heq. rewrite <- Heq in *. lia.
  - eauto.
Qed.

Lemma Inv_score_total s a :
  Inv s → 0 <= MemberData.individualScore (members s !!! a) <= MAX_SCORE.
Proof.
  intros HI. rewrite lookup_total_alt.
  destruct (members s !! a) as [m|] eqn:E; simpl.
  - by eapply inv_score.
  - unfold MAX_SCORE. lia.
Qed.

Lemma Inv_requestLoan s e amt p s' :
  Inv s → requestLoan s e amt p = Ok s' → Inv s'.
Proof.
  intros HI H. unfold requestLoan in H. inv_ok H. injection H as <-.
  bool_to_prop. inv_facts HI.
  assert (Hfresh : loans s !! (loanCount s + 1) = None).
  { destruct (loans s !! (loanCount s + 1)) eqn:E; [|done].
    apply Hlids in E. lia. }
  split; simpl; eauto.
  - lia.
  - intros b m [[<- <-]|[? ?]]%lookup_insert_Some; simpl; eauto.
    by apply Inv_score_total.
  - intros i c a Hi Ha. destruct (decide (sender e = a)) as [<-|].
    + rewrite lookup_total_insert_eq. simpl. eauto.
    + rewrite lookup_total_insert_ne by done. eauto.
  - intros i l [[<- <-]|[? Hi]]%lookup_insert_Some; [lia|].
    apply Hlids in Hi. lia.
  - intros i l [[<- <-]|[? Hi]]%lookup_insert_Some; simpl; eauto.
  - intros i l [[<- <-]|[? Hi]]%lookup_insert_Some; simpl.
    + by rewrite lookup_total_insert_eq.
    + destruct (decide (sender e = Loan.borrower l)) as [<-|].
      * by rewrite lookup_total_insert_eq.
      * rewrite lookup_total_insert_ne by done. eauto.
  - intros i l [[<- <-]|[? Hi]]%lookup_insert_Some; simpl.
    + by rewrite lookup_total_insert_eq.
    + destruct (decide (sender e = Loan.borrower l)) as [<-|].
      * by rewrite lookup_total_insert_eq.
      * rewrite lookup_total_insert_ne by done. eauto.
  - intros i j li lj [[<- <-]|[? Hi]]%lookup_insert_Some
      [[<- <-]|[? Hj]]%lookup_insert_Some; simpl; try done.
    + intros Hb _ Hr. rewrite Hb in *. rewrite (Hopen _ _ Hj Hr) in *. done.
    + intros Hb Hr _. rewrite <- Hb in *. rewrite (Hopen _ _ Hi Hr) in *. done.
    + eauto.
Qed.

Lemma Inv_update_loan s i l l' :
  Inv s → loans s !! i = Some l →
  Loan.borrower l' = Loan.borrower l →
  Loan.repaid l' = Loan.repaid l →
  Loan.approved l' = Loan.disbursed l' →
  Inv (set_loans (<[i := l']> (loans s)) s).
Proof.
  intros HI Hl Hb Hr Ha. inv_facts HI. split; simpl; eauto.
  - intros j lj [[<- <-]|[? Hj]]%lookup_insert_Some; eauto.
  - intros j lj [[<- <-]|[? Hj]]%lookup_insert_Some; eauto.
  - intros j lj [[<- <-]|[? Hj]]%lookup_insert_Some; eauto.
    rewrite Hb. eauto.
  - intros j lj [[<- <-]|[? Hj]]%lookup_insert_Some; eauto.
    rewrite Hb, Hr. eauto.
  - intros j k lj lk [[<- <-]|[? Hj]]%lookup_insert_Some
      [[<- <-]|[? Hk]]%lookup_insert_Some; try done; rewrite ?Hb, ?Hr; eauto.
Qed.

Lemma Inv_creditBorrowed s b amt s' :
  Inv s → creditBorrowed b amt s = Ok s' → Inv s'.
Proof.
  intros HI H. unfold creditBorrowed in H. inv_ok H. injection H as <-.
  apply Inv_update_member; try done. simpl. by apply Inv_score_total.
Qed.

Lemma Inv_transfer s e to amt s' :
  Inv s → transfer e to amt s = Ok s' → Inv s'.
Proof. intros HI [-> _]%transfer_Ok. by apply Inv_set_balance. Qed.

Lemma lookup_total_present (m : gmap Z Loan.t) i :
  m !!! i ≠ Loan.zero → m !! i = Some (m !!! i).
Proof.
  rewrite lookup_total_alt. destruct (m !! i); simpl; [done|].
  intros Hne. by destruct Hne.
Qed.

Lemma Inv_approveLoan s e i s' : Inv s → approveLoan s e i = Ok s' → Inv s'.
Proof.
  intros HI H. unfold approveLoan in H. inv_ok H. bool_to_prop.
  assert (Hl : loans s !! i = Some (loans s !!! i)).
  { apply lookup_total_present. intros Hz. rewrite Hz in *. done. }
  eapply Inv_transfer; [|exact H].
  match goal with Hc : creditBorrowed _ _ _ = Ok _ |- _ =>
    eapply Inv_creditBorrowed; [|exact Hc] end.
  by eapply Inv_update_loan.
Qed.

Lemma Inv_disburseLoan s e i s' : Inv s → disburseLoan s e i = Ok s' → Inv s'.
Proof.
  intros HI H. unfold disburseLoan in H. inv_ok H. bool_to_prop.
  assert (Hl : loans s !! i = Some (loans s !!! i)).
  { apply lookup_total_present. intros Hz. rewrite Hz in *. done. }
  pose proof (inv_approved _ HI _ _ Hl). congruence.
Qed.

Lemma Inv_updateScoresOnRepayment s b bonus s' :
  Inv s → 0 <= bonus → _updateScoresOnRepayment s b bonus = Ok s' → Inv s'.
Proof.
  intros HI Hb H. unfold _updateScoresOnRepayment in H.
  apply bind_Ok in H as (s1 & H1 & H).
  assert (Inv s1) as HI1.
  { destruct (0 <? bonus); [|by injection H1 as <-].
    inv_ok H1. injection H1 as <-. pose proof (Inv_score_total s b HI).
    apply Inv_update_member; try done. simpl.
    destruct (Z.ltb_spec MAX_SCORE (MemberData.individualScore (members s !!! b) + bonus));
      unfold MAX_SCORE in *; lia. }
  destruct (0 <? MemberData.circleId _); [inv_ok H|].
  all: by injection H as <-.
Qed.

Lemma calculateCreditBonus_range due now bonus :
  _calculateCreditBonus due now = Ok bonus → 0 <= bonus <= 15.
Proof.
  unfold _calculateCreditBonus, EARLY_BONUS, ON_TIME_BONUS, LATE_PENALTY.
  intros H. repeat (first [ destruct (_ <? _) | destruct (_ <=? _) | inv_ok H ]);
    injection H as <-; lia.
Qed.

Lemma Inv_repayLoan s e i s' : Inv s → repayLoan s e i = Ok s' → Inv s'.
Proof.
  intros HI H. unfold repayLoan in H. inv_ok H. bool_to_prop.
  assert (Hl : loans s !! i = Some (loans s !!! i)).
  { apply lookup_total_present. intros Hz. rewrite Hz in *. done. }
  eapply Inv_updateScoresOnRepayment; [| |exact H];
    [|by eapply calculateCreditBonus_range].
  simpl. set (l := loans s !!! i) in *. clearbody l. inv_facts HI.
  rename Hstep into Hsender.
  split; simpl; eauto.
  - intros b m [[<- <-]|[? ?]]%lookup_insert_Some; simpl; eauto.
    by apply Inv_score_total.
  - intros j c a Hj Ha. destruct (decide (sender e = a)) as [<-|].
    + rewrite lookup_total_insert_eq. simpl. eauto.
    + rewrite lookup_total_insert_ne by done. eauto.
  - intros j lj [[<- <-]|[? Hj]]%lookup_insert_Some; eauto.
  - intros j lj [[<- <-]|[? Hj]]%lookup_insert_Some; simpl; eauto.
  - intros j lj [[<- <-]|[? Hj]]%lookup_insert_Some; simpl.
    + rewrite Hsender, lookup_total_insert_eq. simpl. rewrite <- Hsender. eauto.
    + destruct (decide (sender e = Loan.borrower lj)) as [Heq|].
      * rewrite <- Heq, lookup_total_insert_eq. simpl. rewrite Heq. eauto.
      * rewrite lookup_total_insert_ne by done. eauto.
  - intros j lj [[<- <-]|[Hne Hj]]%lookup_insert_Some; simpl; [done|].
    intros Hr. destruct (decide (sender e = Loan.borrower lj)) as [Heq|].
    + destruct Hne. eapply Hone; eauto. congruence.
    + rewrite lookup_total_insert_ne by done. eauto.
  - intros j k lj lk [[<- <-]|[? Hj]]%lookup_insert_Some
      [[<- <-]|[? Hk]]%lookup_insert_Some; simpl; try done. eauto.
Qed.

Lemma slash_score_range p m :
  0 <= p → 0 <= MemberData.individualScore m <= MAX_SCORE →
  0 <= MemberData.individualScore (slash p m) <= MAX_SCORE.
Proof.
  intros Hp Hm. unfold slash. simpl.
  destruct (Z.leb_spec p (MemberData.individualScore m)); lia.
Qed.

Lemma set_members_twice v w s :
  set_members v (set_members w s) = set_members v s.
Proof. done. Qed.

Lemma Inv_penalizeMembers l d : ∀ s,
  Inv s → Inv (set_members (penalizeMembers (members s) l d) s).
Proof.
  induction l as [|a l IH]; intros s HI; simpl.
  - by destruct s.
  - destruct (negb (a =? d)); [|by apply IH].
    rewrite <- (set_members_twice _
      (<[a := slash CIRCLE_DEFAULT_PENALTY (members s !!! a)]> (members s))).
    apply (IH (set_members _ s)).
    apply Inv_update_member; try done.
    apply slash_score_range; [done|]. by apply Inv_score_total.
Qed.

Lemma Inv_penalizeCircle s c d s' :
  Inv s → _penalizeCircle s c d = Ok s' → Inv s'.
Proof.
  intros HI H. unfold _penalizeCircle in H. inv_ok H. injection H as <-.
  by apply Inv_penalizeMembers.
Qed.

Lemma Inv_penalizeDefault s e i s' :
  Inv s → penalizeDefault s e i = Ok s' → Inv s'.
Proof.
  intros HI H. unfold penalizeDefault in H. inv_ok H.
  set (b := Loan.borrower (loans s !!! i)) in *.
  assert (HI1 : Inv (set_members
    (<[b := MemberData.set_isActive false
              (slash DEFAULT_PENALTY (members s !!! b))]> (members s)) s)).
  { apply Inv_update_member; try done.
    apply (slash_score_range DEFAULT_PENALTY); [done|]. by apply Inv_score_total. }
  destruct (0 <? _).
  - by eapply Inv_penalizeCircle.
  - by injection H as <-.
Qed.

Lemma Inv_body s e c s' : Inv s → body s e c = Ok s' → Inv s'.
Proof.
  intros HI H. destruct c; simpl in H.
  - by eapply Inv_createCircle.
  - by eapply Inv_joinCircle.
  - by eapply Inv_requestLoan.
  - by eapply Inv_approveLoan.
  - by eapply Inv_disburseLoan.
  - by eapply Inv_repayLoan.
  - by eapply Inv_penalizeDefault.
  - unfold setDemoMode in H. inv_ok H. injection H as <-.
    by apply Inv_set_isDemoMode.
  - unfold setDemoLoanDuration in H. inv_ok H. injection H as <-.
    by apply Inv_set_demoLoanDuration.
  - unfold depositLiquidity in H. inv_ok H. by injection H as <-.
  - unfold withdraw in H. inv_ok H. by eapply Inv_transfer.
  - unfold unfreezeAccount in H. inv_ok H. injection H as <-.
    apply Inv_update_member; try done. simpl. by apply Inv_score_total.
  - unfold transferAdmin in H. inv_ok H. injection H as <-.
    by apply Inv_set_admin.
  - by injection H as <-.
Qed.

Lemma Inv_call s e c s' : Inv s → call s e c = Ok s' → Inv s'.
Proof.
  intros HI H. unfold call in H. destruct (_ && _); [done|].
  eapply Inv_body; [|exact H]. by apply Inv_set_balance.
Qed.

Lemma Inv_transact s e c : Inv s → Inv (transact s e c).
Proof.
  intros HI. unfold transact. destruct (call s e c) eqn:E; [|done].
  by eapply Inv_call.
Qed.

Lemma reachable_Inv s : reachable s → Inv s.
Proof.
  induction 1 as [d Hd|s e c _ IH _ _]; [apply Inv_init|by apply Inv_transact].
Qed.

(** ** Reachability of the scenario *)


Ltac by_computation := vm_compute; repeat split; (done || discriminate).

Lemma reachable_circleFounded : reachable circleFounded.
Proof.
  apply reachable_step; [apply reachable_init| |]; by_computation.
Qed.

Lemma reachable_circleOfTwo : reachable circleOfTwo.
Proof.
  apply reachable_step; [apply reachable_circleFounded| |]; by_computation.
Qed.

Lemma reachable_circleOfThree : reachable circleOfThree.
Proof.
  apply reachable_step; [apply reachable_circleOfTwo| |]; by_computation.
Qed.

Lemma reachable_loanRequested : reachable loanRequested.
Proof.
  apply reachable_step; [apply reachable_circleOfThree| |]; by_computation.
Qed.

Lemma reachable_loanDisbursed : reachable loanDisbursed.
Proof.
  apply reachable_step; [apply reachable_loanRequested| |]; by_computation.
Qed.

Lemma reachable_loanDefaulted : reachable loanDefaulted.
Proof.
  apply reachable_step; [apply reachable_loanDisbursed| |]; by_computation.
Qed.

(** ** Trust score outside an active circle *)

(** C1 (as stated) fails: for an address that never joined a circle the
    stored individual score is 0, yet getTrustScore answers 50. *)
Lemma getTrustScore_stored_zero_counterexample :
  ¬ (∀ s u, reachable s →
       MemberData.circleId (members s !!! u) = 0 ∨
       Circle.isActive (circles s !!! MemberData.circleId (members s !!! u)) = false →
       getTrustScore s u = Ok (MemberData.individualScore (members s !!! u))).
Proof.
  intros H. specialize (H (init deployer) alice).
  discriminate H; [apply reachable_init; by_computation|by left].
Qed.

(** C1 (amended): when the member has no circle or the circle is not active,
    getTrustScore returns the stored individual score if it is positive, and
    the starting score 50 if the stored score is 0. *)
Theorem getTrustScore_outside_active_circle s u :
  MemberData.circleId (members s !!! u) = 0 ∨
  Circle.isActive (circles s !!! MemberData.circleId (members s !!! u)) = false →
  (0 < MemberData.individualScore (members s !!! u) →
     getTrustScore s u = Ok (MemberData.individualScore (members s !!! u))) ∧
  (MemberData.individualScore (members s !!! u) = 0 →
     getTrustScore s u = Ok STARTING_SCORE).
Proof.
  intros Hout. unfold getTrustScore.
  assert (Hret : ∀ x (r : result Z),
    (if MemberData.circleId (members s !!! u) =? 0 then Ok x
     else if negb (Circle.isActive
                     (circles s !!! MemberData.circleId (members s !!! u)))
          then Ok x else r) = Ok x).
  { intros x r. destruct Hout as [-> | ->]; [done|]. simpl.
    by destruct (_ =? 0). }
  split; intros Hs.
  - apply Z.ltb_lt in Hs. rewrite Hs. apply Hret.
  - rewrite Hs. simpl. apply Hret.
Qed.

(* alice alone in her circle, which is not active: stored 50, answered 50 *)
Lemma getTrustScore_outside_active_circle_witness :
  (MemberData.circleId (members circleFounded !!! alice) = 0 ∨
   Circle.isActive
     (circles circleFounded
        !!! MemberData.circleId (members circleFounded !!! alice)) = false) ∧
  getTrustScore circleFounded alice = Ok 50.
Proof.
  assert (Hout : MemberData.circleId (members circleFounded !!! alice) = 0 ∨
    Circle.isActive
      (circles circleFounded
         !!! MemberData.circleId (members circleFounded !!! alice)) = false)
    by (right; by_computation).
  split; [exact Hout|].
  destruct (getTrustScore_outside_active_circle circleFounded alice Hout)
    as [Hpos _].
  rewrite Hpos; by_computation.
Defined.

(** ** Bounds of the individual score *)

(** C2: in every reachable state every individual score lies in [0, 100],
    and every transaction keeps it there; createCircle and joinCircle start
    the caller at 50. *)
Theorem individualScore_bounded s a :
  reachable s →
  0 <= score s a <= 100 ∧
  (∀ e c, 0 <= score (transact s e c) a <= 100) ∧
  (∀ e _name s', createCircle s e _name = Ok s' → score s' (sender e) = 50) ∧
  (∀ e _circleId s',
     joinCircle s e _circleId = Ok s' → score s' (sender e) = 50).
Proof.
  intros Hs%reachable_Inv. split; [|split; [|split]].
  - by apply Inv_score_total.
  - intros e c. by apply Inv_score_total, Inv_transact.
  - intros e n s' H. unfold createCircle in H. inv_ok H. injection H as <-.
    unfold score. simpl. by rewrite lookup_total_insert_eq.
  - intros e i s' H. unfold joinCircle in H. inv_ok H. injection H as <-.
    unfold score. simpl. by rewrite lookup_total_insert_eq.
Qed.

(* bob after the default of alice *)
Lemma individualScore_bounded_witness :
  0 <= score loanDefaulted bob <= 100 ∧ score loanDefaulted bob = 30.
Proof.
  split; [|by_computation].
  destruct (individualScore_bounded loanDefaulted bob reachable_loanDefaulted)
    as [Hbound _].
  exact Hbound.
Defined.

(** ** Repayment bonus *)

Lemma calculateCreditBonus_tiers due now bonus :
  _calculateCreditBonus due now = Ok bonus →
  (now < due → bonus = 15) ∧
  (due <= now <= due + 3 * days → bonus = 10) ∧
  (due + 3 * days < now <= due + 7 * days → bonus = 5) ∧
  (due + 7 * days < now → bonus = 0).
Proof.
  unfold _calculateCreditBonus, EARLY_BONUS, ON_TIME_BONUS, LATE_PENALTY.
  intros H. destruct (Z.ltb_spec now due).
  { injection H as <-. unfold days. repeat split; intros; lia. }
  inv_ok H. destruct (Z.leb_spec now (due + 3 * days)).
  { injection H as <-. unfold days in *. repeat split; intros; lia. }
  inv_ok H. destruct (Z.leb_spec now (due + 7 * days));
    injection H as <-; unfold days in *; repeat split; intros; lia.
Qed.

Lemma updateScoresOnRepayment_score s b bonus s' :
  0 <= score s b <= 100 → 0 <= bonus →
  _updateScoresOnRepayment s b bonus = Ok s' →
  score s' b = Z.min 100 (score s b + bonus).
Proof.
  unfold score. intros Hsc Hb H. unfold _updateScoresOnRepayment in H.
  apply bind_Ok in H as (s1 & H1 & H).
  assert (s' = s1) as ->.
  { destruct (0 <? MemberData.circleId _); [inv_ok H|]; by injection H as <-. }
  destruct (Z.ltb_spec 0 bonus).
  - inv_ok H1. injection H1 as <-. simpl. rewrite lookup_total_insert_eq. simpl.
    unfold MAX_SCORE. destruct (Z.ltb_spec 100
      (MemberData.individualScore (members s !!! b) + bonus)); lia.
  - injection H1 as <-. lia.
Qed.

Lemma call_Ok s e c s' :
  call s e c = Ok s' →
  (payable c = true ∨ value e = 0) ∧
  body (set_balance (balance s + value e) s) e c = Ok s'.
Proof.
  unfold call. destruct (payable c); simpl.
  - intros H. split; [by left|done].
  - destruct (Z.eqb_spec (value e) 0); simpl; [|done].
    intros H. split; [by right|done].
Qed.

(** C5: a successful repayment raises the borrower's individual score by the
    tier of its timing (15 before the due date, 10 up to three days late, 5 up
    to seven days late, 0 later), saturating at 100. *)
Theorem repayLoan_bonus s e _loanId s' :
  reachable s →
  call s e (RepayLoan _loanId) = Ok s' →
  let loan := loans s !!! _loanId in
  let now := timestamp e in
  let due := Loan.dueDate loan in
  let old := score s (sender e) in
  (Loan.borrower loan = sender e ∧ Loan.disbursed loan = true ∧
   Loan.repaid loan = false ∧ value e = Loan.totalRepayment loan) ∧
  (now < due → score s' (sender e) = Z.min 100 (old + 15)) ∧
  (due <= now <= due + 3 * days → score s' (sender e) = Z.min 100 (old + 10)) ∧
  (due + 3 * days < now <= due + 7 * days →
     score s' (sender e) = Z.min 100 (old + 5)) ∧
  (due + 7 * days < now → score s' (sender e) = Z.min 100 (old + 0)).
Proof.
  intros Hs%reachable_Inv [_ H]%call_Ok. simpl in *.
  unfold repayLoan in H. inv_ok H. simpl in *.
  bool_to_prop. split; [done|].
  match goal with
  | Hb : _calculateCreditBonus _ _ = Ok ?b |- _ =>
      pose proof (calculateCreditBonus_range _ _ _ Hb) as Hrange;
      apply calculateCreditBonus_tiers in Hb as (T1 & T2 & T3 & T4)
  end.
  apply updateScoresOnRepayment_score in H; [| |lia].
  - unfold score in *. simpl in H. rewrite lookup_total_insert_eq in H.
    simpl in H. rewrite H.
    repeat split; intros Ht; [rewrite T1|rewrite T2|rewrite T3|rewrite T4]; done.
  - unfold score. simpl. rewrite lookup_total_insert_eq. simpl.
    by apply Inv_score_total.
Qed.

(* alice repays a day early: 50 + 15 *)
Lemma repayLoan_bonus_witness :
  ∃ s', call loanDisbursed earlyEnv (RepayLoan 1) = Ok s' ∧
        timestamp earlyEnv < Loan.dueDate (loans loanDisbursed !!! 1) ∧
        score loanDisbursed alice = 50 ∧ score s' alice = 65.
Proof.
  destruct (call loanDisbursed earlyEnv (RepayLoan 1)) as [s'|] eqn:Hcall;
    [|vm_compute in Hcall; discriminate].
  exists s'. split; [done|].
  assert (Hearly : timestamp earlyEnv < Loan.dueDate (loans loanDisbursed !!! 1))
    by by_computation.
  split; [exact Hearly|]. split; [by_computation|].
  destruct (repayLoan_bonus _ _ _ _ reachable_loanDisbursed Hcall)
    as (_ & Hbonus & _).
  change (sender earlyEnv) with alice in Hbonus.
  rewrite (Hbonus Hearly). by_computation.
Defined.

(** ** The circle average never fails on reachable states *)

Lemma sumScores_total ms l : ∀ acc,
  (∀ a, 0 <= MemberData.individualScore (ms !!! a) <= MAX_SCORE) →
  0 <= acc → acc + 100 * len l <= MAX_UINT256 →
  ∃ total, sumScores ms l acc = Ok total ∧
           acc + len l <= total <= acc + 100 * len l.
Proof.
  intros acc Hms. revert acc.
  induction l as [|a l IH]; intros acc Hacc Hmax; simpl.
  - exists acc. unfold len in *. simpl in *. split; [done|lia].
  - change (a :: l) with ([a] ++ l) in *. rewrite len_app in *.
    change (len [a]) with 1 in *. pose proof (len_nonneg l).
    set (sc := if 0 <? MemberData.individualScore (ms !!! a)
               then MemberData.individualScore (ms !!! a) else STARTING_SCORE).
    assert (1 <= sc <= 100) as Hsc.
    { subst sc. specialize (Hms a). unfold MAX_SCORE, STARTING_SCORE in *.
      destruct (Z.ltb_spec 0 (MemberData.individualScore (ms !!! a))); lia. }
    unfold add. destruct (Z.leb_spec (acc + sc) MAX_UINT256); [|lia]. simpl.
    destruct (IH (acc + sc)) as (total & -> & Ht); [lia|lia|].
    exists total. split; [done|lia].
Qed.

Lemma Inv_circle_size s c : Inv s → len (Circle.members (circles s !!! c)) <= 10.
Proof.
  intros HI. rewrite lookup_total_alt.
  destruct (circles s !! c) as [x|] eqn:E; simpl; [by eapply inv_size|done].
Qed.

Lemma Inv_circle_nodup s c : Inv s → NoDup (Circle.members (circles s !!! c)).
Proof.
  intros HI. rewrite lookup_total_alt.
  destruct (circles s !! c) as [x|] eqn:E; simpl;
    [by eapply inv_nodup|apply NoDup_nil_2].
Qed.

Lemma getCircleAverageScore_total s c :
  Inv s → ∃ avg, getCircleAverageScore s c = Ok avg ∧ 1 <= avg <= 100.
Proof.
  intros HI. unfold getCircleAverageScore.
  pose proof (Inv_circle_size s c HI) as Hsize.
  pose proof (len_nonneg (Circle.members (circles s !!! c))) as Hnn.
  destruct (Z.eqb_spec (len (Circle.members (circles s !!! c))) 0) as [|Hne].
  { exists STARTING_SCORE. split; [done|]. unfold STARTING_SCORE. lia. }
  pose proof MAX_UINT256_large.
  destruct (sumScores_total (members s) (Circle.members (circles s !!! c)) 0)
    as (total & -> & Ht); [intros a; by apply Inv_score_total|lia|lia|].
  simpl. unfold div. destruct (Z.eqb_spec (len (Circle.members (circles s !!! c))) 0);
    [done|].
  eexists. split; [done|]. split.
  - apply Z.div_le_lower_bound; lia.
  - apply Z.div_le_upper_bound; lia.
Qed.

Lemma getTrustScore_total s u :
  Inv s → ∃ trust, getTrustScore s u = Ok trust ∧ 1 <= trust <= 100.
Proof.
  intros HI. unfold getTrustScore.
  pose proof (Inv_score_total s u HI) as Hsc. unfold MAX_SCORE in Hsc.
  set (sc := if 0 <? MemberData.individualScore (members s !!! u)
             then MemberData.individualScore (members s !!! u)
             else STARTING_SCORE).
  assert (1 <= sc <= 100) as Hsc'.
  { subst sc. unfold STARTING_SCORE.
    destruct (Z.ltb_spec 0 (MemberData.individualScore (members s !!! u))); lia. }
  destruct (_ =? 0); [by exists sc|].
  destruct (negb _); [by exists sc|].
  destruct (getCircleAverageScore_total s
              (MemberData.circleId (members s !!! u)) HI) as (avg & -> & Havg).
  pose proof MAX_UINT256_large. simpl.
  unfold mul, INDIVIDUAL_WEIGHT, CIRCLE_WEIGHT.
  destruct (Z.leb_spec (sc * 60) MAX_UINT256); [|lia]. simpl.
  destruct (Z.leb_spec (avg * 40) MAX_UINT256); [|lia]. simpl.
  unfold add. destruct (Z.leb_spec (sc * 60 + avg * 40) MAX_UINT256); [|lia].
  simpl. eexists. split; [done|]. split.
  - apply Z.div_le_lower_bound; lia.
  - apply Z.div_le_upper_bound; lia.
Qed.

(** ** Default penalties *)

Lemma penalizeMembers_lookup l d a : ∀ ms,
  NoDup l →
  penalizeMembers ms l d !!! a =
    if bool_decide (a ∈ l ∧ a ≠ d)
    then slash CIRCLE_DEFAULT_PENALTY (ms !!! a) else ms !!! a.
Proof.
  induction l as [|x l IH]; intros ms Hnd; cbn [penalizeMembers].
  - rewrite bool_decide_eq_false_2; [done|]. intros [[]%elem_of_nil _].
  - apply NoDup_cons in Hnd as [Hx Hnd]. rewrite (IH _ Hnd).
    destruct (Z.eqb_spec x d) as [->|Hxd]; cbn [negb].
    + apply (f_equal (λ b : bool, if b then _ else _)), bool_decide_ext.
      rewrite elem_of_cons. tauto.
    + destruct (decide (a = x)) as [->|Hax].
      * rewrite bool_decide_eq_false_2 by (by intros [? _]).
        rewrite bool_decide_eq_true_2 by (split; [by left|done]).
        by rewrite lookup_total_insert_eq.
      * rewrite lookup_total_insert_ne by done.
        apply (f_equal (λ b : bool, if b then _ else _)), bool_decide_ext.
        rewrite elem_of_cons. tauto.
Qed.

Lemma slash_score p m :
  0 <= p →
  MemberData.individualScore (slash p m) =
    Z.max 0 (MemberData.individualScore m - p).
Proof.
  intros Hp. unfold slash. simpl.
  destruct (Z.leb_spec p (MemberData.individualScore m)); lia.
Qed.

(** What a successful penalizeDefault is, on a state satisfying the
    invariant. *)
Lemma penalizeDefault_Ok s e i s' :
  penalizeDefault s e i = Ok s' →
  let loan := loans s !!! i in
  let b := Loan.borrower loan in
  let m' := MemberData.set_isActive false (slash DEFAULT_PENALTY (members s !!! b)) in
  sender e = admin s ∧ Loan.disbursed loan = true ∧ Loan.repaid loan = false ∧
  Loan.dueDate loan + 14 * days < timestamp e ∧
  s' = set_members
         (if 0 <? MemberData.circleId m' then
            penalizeMembers (<[b := m']> (members s))
              (Circle.members (circles s !!! MemberData.circleId m')) b
          else <[b := m']> (members s)) s.
Proof.
  intros H. unfold penalizeDefault in H. inv_ok H. bool_to_prop. simpl.
  split_and!; try done.
  destruct (0 <? _).
  - unfold _penalizeCircle in H. inv_ok H. by injection H as <-.
  - by injection H as <-.
Qed.

Lemma penalizeDefault_succeeds s e i :
  Inv s → sender e = admin s →
  Loan.disbursed (loans s !!! i) = true → Loan.repaid (loans s !!! i) = false →
  Loan.dueDate (loans s !!! i) + 14 * days < timestamp e →
  timestamp e <= MAX_UINT256 →
  ∃ s', penalizeDefault s e i = Ok s'.
Proof.
  intros HI Ha Hd Hr Hlate Hnow. unfold penalizeDefault.
  rewrite Ha, Z.eqb_refl, Hd, Hr. simpl. unfold add.
  destruct (Z.leb_spec (Loan.dueDate (loans s !!! i) + 14 * days) MAX_UINT256);
    [|lia]. simpl.
  destruct (Z.ltb_spec (Loan.dueDate (loans s !!! i) + 14 * days) (timestamp e));
    [|lia]. simpl.
  set (b := Loan.borrower (loans s !!! i)).
  set (m' := MemberData.set_isActive false _).
  assert (HI1 : Inv (set_members (<[b := m']> (members s)) s)).
  { apply Inv_update_member; try done.
    apply (slash_score_range DEFAULT_PENALTY); [done|]. by apply Inv_score_total. }
  destruct (0 <? _); [|by eexists].
  unfold _penalizeCircle.
  edestruct getCircleAverageScore_total as (avg & -> & _); [|by eexists].
  by apply Inv_penalizeMembers.
Qed.

Lemma Inv_circle_absent s c :
  Inv s → c <= 0 → Circle.members (circles s !!! c) = [].
Proof.
  intros HI Hc. rewrite lookup_total_alt.
  destruct (circles s !! c) as [x|] eqn:E; simpl; [|done].
  apply (inv_circle_ids _ HI) in E. lia.
Qed.

(** The effect of a successful penalizeDefault on a state satisfying the
    invariant: only member records change. *)
Lemma penalizeDefault_effect s e i s' :
  Inv s → penalizeDefault s e i = Ok s' →
  let b := Loan.borrower (loans s !!! i) in
  let circle := circles s !!! MemberData.circleId (members s !!! b) in
  (admin s' = admin s ∧ loans s' = loans s ∧ circles s' = circles s ∧
   balance s' = balance s) ∧
  members s' !!! b =
    MemberData.set_isActive false (slash DEFAULT_PENALTY (members s !!! b)) ∧
  ∀ a, a ≠ b →
    members s' !!! a =
      if bool_decide (a ∈ Circle.members circle)
      then slash CIRCLE_DEFAULT_PENALTY (members s !!! a)
      else members s !!! a.
Proof.
  intros HI (_ & _ & _ & _ & ->)%penalizeDefault_Ok. simpl.
  split; [done|].
  set (b := Loan.borrower (loans s !!! i)).
  set (cid := MemberData.circleId (members s !!! b)).
  destruct (Z.ltb_spec 0 cid) as [Hpos|Hneg].
  - pose proof (Inv_circle_nodup s cid HI) as Hnd. split.
    + rewrite penalizeMembers_lookup by done.
      rewrite bool_decide_eq_false_2 by (by intros [_ ?]).
      by rewrite lookup_total_insert_eq.
    + intros a Ha. rewrite penalizeMembers_lookup by done.
      rewrite lookup_total_insert_ne by done.
      apply (f_equal (λ b : bool, if b then _ else _)), bool_decide_ext. tauto.
  - split; [by rewrite lookup_total_insert_eq|].
    intros a Ha. rewrite lookup_total_insert_ne by done.
    rewrite (Inv_circle_absent s cid HI Hneg).
    rewrite bool_decide_eq_false_2; [done|]. by intros ?%elem_of_nil.
Qed.

Lemma call_nonpayable s e c :
  payable c = false → value e = 0 →
  call s e c = body (set_balance (balance s + 0) s) e c.
Proof. intros Hc Hv. unfold call. by rewrite Hc, Hv. Qed.

(** C6: called by the admin, penalizeDefault succeeds exactly when the loan
    is disbursed, not repaid and more than 14 days past its due date; it then
    takes 50 from the borrower's score (not below 0) and freezes the borrower,
    and takes 20 (not below 0) from every other member of the borrower's
    circle, whose active flag it leaves alone. *)
Theorem penalizeDefault_spec s e _loanId :
  reachable s → wf_env e → sender e = admin s → value e = 0 →
  let loan := loans s !!! _loanId in
  let b := Loan.borrower loan in
  (is_ok (call s e (PenalizeDefault _loanId)) = true ↔
     Loan.disbursed loan = true ∧ Loan.repaid loan = false ∧
     timestamp e > Loan.dueDate loan + 14 * days) ∧
  (∀ s', call s e (PenalizeDefault _loanId) = Ok s' →
     score s' b = Z.max 0 (score s b - 50) ∧
     MemberData.isActive (members s' !!! b) = false ∧
     ∀ a, a ≠ b →
       a ∈ Circle.members
             (circles s' !!! MemberData.circleId (members s' !!! b)) →
       score s' a = Z.max 0 (score s a - 20) ∧
       MemberData.isActive (members s' !!! a) =
         MemberData.isActive (members s !!! a)).
Proof.
  intros Hs%reachable_Inv (_ & _ & _ & Hnow) Hadmin Hval. simpl.
  rewrite (call_nonpayable s e (PenalizeDefault _loanId) eq_refl Hval). simpl.
  set (s0 := set_balance (balance s + 0) s).
  assert (HI0 : Inv s0) by by apply Inv_set_balance.
  split; [split|].
  - destruct (penalizeDefault s0 e _loanId) as [s'|] eqn:Hcall; [|done].
    intros _. apply penalizeDefault_Ok in Hcall as (_ & ? & ? & ? & _).
    simpl in *. split_and!; try done. lia.
  - intros (Hd & Hr & Hlate).
    destruct (penalizeDefault_succeeds s0 e _loanId) as [s' ->]; try done.
    simpl. lia.
  - intros s' Hcall.
    destruct (penalizeDefault_effect s0 e _loanId s' HI0 Hcall)
      as ((_ & _ & Hcircles & _) & Hb & Hothers).
    change (loans s0) with (loans s) in *.
    change (members s0) with (members s) in *.
    change (circles s0) with (circles s) in *.
    unfold score. rewrite Hb, Hcircles.
    split; [by apply (slash_score DEFAULT_PENALTY)|]. split; [done|].
    intros a Ha Hin. rewrite (Hothers a Ha), bool_decide_eq_true_2 by done.
    split; [by apply (slash_score CIRCLE_DEFAULT_PENALTY)|done].
Qed.

Lemma call_loanDefaulted :
  call loanDisbursed lateEnv (PenalizeDefault 1) = Ok loanDefaulted.
Proof. by vm_compute. Qed.

(* the default of alice, 22 days after the loan was paid out *)
Lemma penalizeDefault_spec_witness :
  is_ok (call loanDisbursed lateEnv (PenalizeDefault 1)) = true ∧
  score loanDisbursed alice = 50 ∧ score loanDefaulted alice = 0 ∧
  MemberData.isActive (members loanDefaulted !!! alice) = false ∧
  score loanDisbursed bob = 50 ∧ score loanDefaulted bob = 30.
Proof.
  assert (Hwf : wf_env lateEnv) by by_computation.
  assert (Hadmin : sender lateEnv = admin loanDisbursed) by by_computation.
  assert (Hval : value lateEnv = 0) by by_computation.
  destruct (penalizeDefault_spec loanDisbursed lateEnv 1
              reachable_loanDisbursed Hwf Hadmin Hval) as [Hiff Heffect].
  split; [apply Hiff; by_computation|].
  destruct (Heffect loanDefaulted call_loanDefaulted)
    as (Hscore & Hfrozen & Hpeers).
  assert (Hb : Loan.borrower (loans loanDisbursed !!! 1) = alice)
    by by_computation.
  rewrite Hb in Hscore, Hfrozen, Hpeers.
  assert (Hmembers : Circle.members
    (circles loanDefaulted
       !!! MemberData.circleId (members loanDefaulted !!! alice)) = [alice; bob; carol])
    by by_computation.
  rewrite Hmembers in Hpeers.
  assert (Hbob : bob ≠ alice) by by_computation.
  destruct (Hpeers bob Hbob) as [Hpeer _];
    [apply list_elem_of_further, list_elem_of_here|].
  rewrite Hscore, Hpeer.
  split; [by_computation|]. split; [by_computation|].
  split; [exact Hfrozen|]. split; by_computation.
Defined.

(** ** Repeated penalties *)

(** C3 (as stated) fails: on the defaulted loan of the scenario a second
    penalizeDefault succeeds, and takes another 20 points from bob. *)
Lemma penalizeDefault_second_call_counterexample :
  reachable loanDisbursed ∧
  call loanDisbursed lateEnv (PenalizeDefault 1) = Ok loanDefaulted ∧
  ∃ s2, call loanDefaulted lateEnv (PenalizeDefault 1) = Ok s2 ∧
        score loanDefaulted bob = 30 ∧ score s2 bob = 10.
Proof.
  split; [apply reachable_loanDisbursed|].
  split; [apply call_loanDefaulted|].
  eexists. split; [vm_compute; reflexivity|]. split; by_computation.
Qed.

(** ** The separate disbursement step *)

Lemma add_no_overflow a b : a + b <= MAX_UINT256 → add a b = Ok (a + b).
Proof. intros H. unfold add. by destruct (Z.leb_spec (a + b) MAX_UINT256); [|lia]. Qed.

Lemma Inv_approved_total s i :
  Inv s → Loan.approved (loans s !!! i) = Loan.disbursed (loans s !!! i).
Proof.
  intros HI. rewrite lookup_total_alt.
  destruct (loans s !! i) as [l|] eqn:E; simpl; [by eapply inv_approved|done].
Qed.

(** C4 (as stated) fails: no reachable state holds a loan that is approved
    but not disbursed. *)
Lemma approved_not_disbursed_counterexample :
  ¬ ∃ s _loanId, reachable s ∧
      Loan.approved (loans s !!! _loanId) = true ∧
      Loan.disbursed (loans s !!! _loanId) = false.
Proof.
  intros (s & i & Hs%reachable_Inv & Ha & Hd).
  rewrite (Inv_approved_total s i Hs) in Ha. congruence.
Qed.

(** C4 (amended): approveLoan sets approved and disbursed together, so in
    every reachable state the two flags agree on every loan and disburseLoan
    is rejected. Only on a state that holds an approved, undisbursed loan
    does disburseLoan, called by the admin with payment equal to the
    principal (and no overflow of the due date or of totalBorrowed), get to
    its payment: it reverts if the borrower does not take the payment, and
    otherwise succeeds, marks the loan disbursed and sets its due date to
    the current time plus the loan duration. *)
Theorem disburseLoan_paths :
  (∀ s, reachable s →
     (∀ i, Loan.approved (loans s !!! i) = Loan.disbursed (loans s !!! i)) ∧
     (∀ e i, is_ok (call s e (DisburseLoan i)) = false)) ∧
  (∀ s e i,
     let loan := loans s !!! i in
     Loan.approved loan = true → Loan.disbursed loan = false →
     sender e = admin s → value e = Loan.amount loan → 0 <= balance s →
     timestamp e + loanDuration s <= MAX_UINT256 →
     MemberData.totalBorrowed (members s !!! Loan.borrower loan)
       + Loan.amount loan <= MAX_UINT256 →
     (accepts e (Loan.borrower loan) = false →
      call s e (DisburseLoan i) = Err TransferFailed) ∧
     (accepts e (Loan.borrower loan) = true →
      ∃ s', call s e (DisburseLoan i) = Ok s' ∧
            Loan.approved (loans s' !!! i) = true ∧
            Loan.disbursed (loans s' !!! i) = true ∧
            Loan.dueDate (loans s' !!! i) = timestamp e + loanDuration s ∧
            balance s' = balance s)).
Proof.
  split.
  - intros s Hs%reachable_Inv. split; [intros i; by apply Inv_approved_total|].
    intros e i. destruct (call s e (DisburseLoan i)) as [s'|] eqn:Hcall; [|done].
    apply call_Ok in Hcall as [_ Hcall]. simpl in Hcall.
    unfold disburseLoan in Hcall. inv_ok Hcall. bool_to_prop. simpl in *.
    rewrite (Inv_approved_total s i Hs) in *. congruence.
  - intros s e i loan Ha Hd Hadmin Hval Hbal Hdue Hborrowed. subst loan.
    unfold call. simpl. unfold disburseLoan. simpl.
    rewrite Hadmin, Z.eqb_refl, Ha, Hd, Hval, Z.eqb_refl. simpl.
    change (loanDuration (set_balance _ s)) with (loanDuration s).
    rewrite add_no_overflow by done. simpl.
    unfold creditBorrowed. simpl. rewrite add_no_overflow by done. simpl.
    unfold transfer. simpl.
    destruct (Z.leb_spec (Loan.amount (loans s !!! i))
                (balance s + Loan.amount (loans s !!! i))); [|lia].
    split; intros ->; simpl; [done|].
    eexists. split; [done|]. simpl. rewrite lookup_total_insert_eq. simpl.
    split_and!; try done. lia.
Qed.

(* rejected on the requested loan; accepted on the hand-built state *)
Lemma disburseLoan_paths_witness :
  (∀ e i, is_ok (call loanRequested e (DisburseLoan i)) = false) ∧
  ∃ s', call approvedOnly disburseEnv (DisburseLoan 1) = Ok s' ∧
        Loan.disbursed (loans s' !!! 1) = true ∧
        Loan.dueDate (loans s' !!! 1) = t0 + 7 * days.
Proof.
  destruct disburseLoan_paths as [Hreachable Hpath].
  split; [apply (Hreachable loanRequested reachable_loanRequested)|].
  destruct (Hpath approvedOnly disburseEnv 1) as [_ Hpays];
    [by_computation..|].
  destruct Hpays as (s' & Hcall & _ & Hd & Hdue & _); [by_computation|].
  exists s'. split; [exact Hcall|]. split; [exact Hd|].
  rewrite Hdue. by_computation.
Defined.

(** ** One active loan per member *)

(** C7: a member whose hasActiveLoan flag is set cannot request a loan: the
    call fails and the state stays as it was. Every unrepaid loan has its
    borrower flagged, hence no member has two unrepaid loans. *)
Theorem requestLoan_one_active_loan s e _amount _purpose :
  reachable s →
  MemberData.hasActiveLoan (members s !!! sender e) = true →
  is_ok (call s e (RequestLoan _amount _purpose)) = false ∧
  transact s e (RequestLoan _amount _purpose) = s ∧
  (∀ i l, loans s !! i = Some l → Loan.repaid l = false →
     MemberData.hasActiveLoan (members s !!! Loan.borrower l) = true) ∧
  (∀ i j li lj, loans s !! i = Some li → loans s !! j = Some lj →
     Loan.borrower li = Loan.borrower lj →
     Loan.repaid li = false → Loan.repaid lj = false → i = j).
Proof.
  intros Hs%reachable_Inv Hflag.
  assert (Hfail : is_ok (call s e (RequestLoan _amount _purpose)) = false).
  { destruct (call s e (RequestLoan _amount _purpose)) as [s'|] eqn:Hcall; [|done].
    apply call_Ok in Hcall as [_ Hcall]. simpl in Hcall.
    unfold requestLoan in Hcall. inv_ok Hcall. bool_to_prop. simpl in *.
    congruence. }
  split; [done|]. split.
  - unfold transact. by destruct (call s e _).
  - split; [apply (inv_open _ Hs)|apply (inv_one_loan _ Hs)].
Qed.

(* alice has a loan running and asks for another *)
Lemma requestLoan_one_active_loan_witness :
  MemberData.hasActiveLoan (members loanDisbursed !!! alice) = true ∧
  transact loanDisbursed (mkEnv alice 0 t0) (RequestLoan ether "more")
    = loanDisbursed.
Proof.
  assert (Hflag : MemberData.hasActiveLoan
                    (members loanDisbursed !!! sender (mkEnv alice 0 t0)) = true)
    by by_computation.
  split; [exact Hflag|].
  destruct (requestLoan_one_active_loan loanDisbursed (mkEnv alice 0 t0) ether
              "more" reachable_loanDisbursed Hflag) as (_ & Hsame & _).
  exact Hsame.
Defined.

(** ** Activation of circles *)

Lemma updateScoresOnRepayment_frame s b bonus s' :
  _updateScoresOnRepayment s b bonus = Ok s' →
  circles s' = circles s ∧ loans s' = loans s.
Proof.
  intros H. unfold _updateScoresOnRepayment in H.
  apply bind_Ok in H as (s1 & H1 & H).
  assert (s' = s1) as ->.
  { destruct (0 <? MemberData.circleId _); [inv_ok H|]; by injection H as <-. }
  destruct (0 <? bonus); [inv_ok H1|]; by injection H1 as <-.
Qed.

(** Only createCircle and joinCircle write to the circles. *)
Lemma body_circles_frame s e c s' :
  body s e c = Ok s' →
  match c with
  | CreateCircle _ | JoinCircle _ => True
  | _ => circles s' = circles s
  end.
Proof.
  intros H. destruct c; simpl in H; try done.
  - unfold requestLoan in H. inv_ok H. by injection H as <-.
  - unfold approveLoan in H. inv_ok H.
    apply transfer_Ok in H as [-> _].
    match goal with Hc : creditBorrowed _ _ _ = Ok _ |- _ =>
      unfold creditBorrowed in Hc; inv_ok Hc; by injection Hc as <- end.
  - unfold disburseLoan in H. inv_ok H.
    apply transfer_Ok in H as [-> _].
    match goal with Hc : creditBorrowed _ _ _ = Ok _ |- _ =>
      unfold creditBorrowed in Hc; inv_ok Hc; by injection Hc as <- end.
  - unfold repayLoan in H. inv_ok H.
    by apply updateScoresOnRepayment_frame in H as [-> _].
  - by apply penalizeDefault_Ok in H as (_ & _ & _ & _ & ->).
  - unfold setDemoMode in H. inv_ok H. by injection H as <-.
  - unfold setDemoLoanDuration in H. inv_ok H. by injection H as <-.
  - unfold depositLiquidity in H. inv_ok H. by injection H as <-.
  - unfold withdraw in H. inv_ok H. by apply transfer_Ok in H as [-> _].
  - unfold unfreezeAccount in H. inv_ok H. by injection H as <-.
  - unfold transferAdmin in H. inv_ok H. by injection H as <-.
  - by injection H as <-.
Qed.

Lemma Inv_active_total s i :
  Inv s →
  Circle.isActive (circles s !!! i) =
    bool_decide (MIN_CIRCLE_MEMBERS <= len (Circle.members (circles s !!! i))).
Proof.
  intros HI. rewrite lookup_total_alt.
  destruct (circles s !! i) as [c|] eqn:E; simpl; [by eapply inv_active|done].
Qed.

Lemma Inv_circle_fresh s i :
  Inv s → circleCount s < i → circles s !!! i = Circle.zero.
Proof.
  intros HI Hi. rewrite lookup_total_alt.
  destruct (circles s !! i) as [c|] eqn:E; simpl; [|done].
  apply (inv_circle_ids _ HI) in E. lia.
Qed.

(** The circle [i] across one successful call: joinCircle adds the caller,
    every other call keeps the active flag. *)
Lemma call_circle s e c s' i :
  Inv s → call s e c = Ok s' →
  (c = JoinCircle i →
   len (Circle.members (circles s' !!! i)) =
     len (Circle.members (circles s !!! i)) + 1) ∧
  (c ≠ JoinCircle i →
   Circle.isActive (circles s' !!! i) = Circle.isActive (circles s !!! i)).
Proof.
  intros HI [_ H]%call_Ok.
  assert (HI0 : Inv (set_balance (balance s + value e) s))
    by by apply Inv_set_balance.
  change (circles s) with (circles (set_balance (balance s + value e) s)).
  revert H HI0. generalize (set_balance (balance s + value e) s). clear s HI.
  intros s H HI.
  pose proof (body_circles_frame _ _ _ _ H) as Hframe.
  destruct c; try (split; [done|by rewrite Hframe]).
  - split; [done|]. intros _. simpl in H. unfold createCircle in H. inv_ok H.
    injection H as <-. simpl.
    destruct (decide (i = circleCount s + 1)) as [->|].
    + rewrite lookup_total_insert_eq, (Inv_circle_fresh s) by (done || lia). done.
    + by rewrite lookup_total_insert_ne.
  - simpl in H. unfold joinCircle in H. inv_ok H. injection H as <-. simpl.
    split.
    + intros [= ->]. rewrite lookup_total_insert_eq. simpl.
      by rewrite len_app.
    + intros Hne. rewrite lookup_total_insert_ne; [done|]. by intros ->.
Qed.

(** C8: the active flag of a circle never falls back to false, over one
    transaction or any sequence of them, and it turns true exactly in the
    successful joinCircle that takes the circle from two members to three. *)
Theorem circle_active_monotone s e c _circleId :
  reachable s →
  let before := circles s !!! _circleId in
  let after := circles (transact s e c) !!! _circleId in
  (Circle.isActive before = true → Circle.isActive after = true) ∧
  (Circle.isActive before = false ∧ Circle.isActive after = true ↔
     c = JoinCircle _circleId ∧ is_ok (call s e c) = true ∧
     len (Circle.members before) = 2 ∧ len (Circle.members after) = 3) ∧
  (∀ txs, Circle.isActive before = true →
     Circle.isActive (circles (run s txs) !!! _circleId) = true).
Proof.
  intros Hs%reachable_Inv. simpl.
  assert (Hstep : ∀ s e c, Inv s →
    Circle.isActive (circles s !!! _circleId) = true →
    Circle.isActive (circles (transact s e c) !!! _circleId) = true).
  { clear. intros s e c HI Hact. pose proof (Inv_transact s e c HI) as HI'.
    unfold transact in *. destruct (call s e c) as [s'|] eqn:Hcall; [|done].
    destruct (call_circle s e c s' _circleId HI Hcall) as [Hjoin Hother].
    destruct (decide (c = JoinCircle _circleId)) as [Hc|Hc].
    - rewrite Inv_active_total in Hact |- * by done.
      apply bool_decide_eq_true in Hact. apply bool_decide_eq_true.
      rewrite (Hjoin Hc). lia.
    - by rewrite (Hother Hc). }
  split; [by apply Hstep|]. split.
  - pose proof (Inv_transact s e c Hs) as HI'.
    unfold transact in *. destruct (call s e c) as [s'|] eqn:Hcall.
    + destruct (call_circle s e c s' _circleId Hs Hcall) as [Hjoin Hother].
      rewrite !Inv_active_total by done. unfold MIN_CIRCLE_MEMBERS.
      rewrite bool_decide_eq_false, bool_decide_eq_true.
      destruct (decide (c = JoinCircle _circleId)) as [Hc|Hc].
      * rewrite (Hjoin Hc). split; [intros [? ?]|intros (_ & _ & ? & ?)];
          split_and!; try done; lia.
      * rewrite !Inv_active_total in Hother by done.
        split; [intros [Hb Ha]|by intros [? _]].
        specialize (Hother Hc). unfold MIN_CIRCLE_MEMBERS in *.
        repeat case_bool_decide; done.
    + split; [intros [? ?]; congruence|]. by intros (_ & ? & _).
  - intros txs. revert s Hs. induction txs as [|[e' c'] txs IH]; intros s Hs Hact;
      simpl; [done|].
    apply IH; [by apply Inv_transact|by apply Hstep].
Qed.

(* the circle turns active when carol joins and stays so *)
Lemma circle_active_monotone_witness :
  Circle.isActive (circles circleOfTwo !!! 1) = false ∧
  Circle.isActive (circles (transact circleOfTwo carolJoins (JoinCircle 1)) !!! 1)
    = true ∧
  Circle.isActive (circles loanDefaulted !!! 1) = true.
Proof.
  destruct (circle_active_monotone circleOfTwo carolJoins (JoinCircle 1) 1
              reachable_circleOfTwo) as (_ & Hturn & _).
  destruct Hturn as [_ [Hbefore Hafter]]; [by_computation|].
  split; [exact Hbefore|]. split; [exact Hafter|].
  destruct (circle_active_monotone circleOfThree carolJoins (JoinCircle 1) 1
              reachable_circleOfThree) as (_ & _ & Hlater).
  assert (Hrun : run circleOfThree
    [ (mkEnv alice 0 t0, RequestLoan (10 * ether) "seeds");
      (mkEnv deployer 0 t0, ApproveLoan 1);
      (lateEnv, PenalizeDefault 1) ] = loanDefaulted) by by_computation.
  rewrite <- Hrun. apply Hlater. by_computation.
Defined.

(** ** Credit policy *)

Lemma same_terms_insert (m : gmap Z Loan.t) j l' i l :
  m !! i = Some l → same_terms (m !!! j) l' →
  ∃ l2, <[j := l']> m !! i = Some l2 ∧ same_terms l l2.
Proof.
  intros Hi Hterms. destruct (decide (j = i)) as [->|].
  - rewrite lookup_insert_eq. exists l'. split; [done|].
    by rewrite (lookup_total_Some _ _ _ Hi) in Hterms.
  - rewrite lookup_insert_ne by done. by exists l.
Qed.

(** No call changes the borrower, principal, interest or total repayment of
    an existing loan. *)
Lemma body_loan_terms s e c s' i l :
  Inv s → body s e c = Ok s' → loans s !! i = Some l →
  ∃ l', loans s' !! i = Some l' ∧ same_terms l l'.
Proof.
  intros HI H Hi.
  assert (Hsame : loans s' = loans s → ∃ l', loans s' !! i = Some l' ∧ same_terms l l').
  { intros ->. by exists l. }
  destruct c; simpl in H.
  - unfold createCircle in H. inv_ok H. injection H as <-. by apply Hsame.
  - unfold joinCircle in H. inv_ok H. injection H as <-. by apply Hsame.
  - unfold requestLoan in H. inv_ok H. injection H as <-. simpl.
    rewrite lookup_insert_ne; [by exists l|].
    intros <-. apply (inv_loan_ids _ HI) in Hi. lia.
  - unfold approveLoan in H. inv_ok H. apply transfer_Ok in H as [-> _].
    match goal with Hc : creditBorrowed _ _ _ = Ok _ |- _ =>
      unfold creditBorrowed in Hc; inv_ok Hc; injection Hc as <- end.
    simpl. by apply same_terms_insert.
  - unfold disburseLoan in H. inv_ok H. apply transfer_Ok in H as [-> _].
    match goal with Hc : creditBorrowed _ _ _ = Ok _ |- _ =>
      unfold creditBorrowed in Hc; inv_ok Hc; injection Hc as <- end.
    simpl. by apply same_terms_insert.
  - unfold repayLoan in H. inv_ok H.
    apply updateScoresOnRepayment_frame in H as [_ ->].
    simpl. by apply same_terms_insert.
  - apply penalizeDefault_Ok in H as (_ & _ & _ & _ & ->). by apply Hsame.
  - unfold setDemoMode in H. inv_ok H. injection H as <-. by apply Hsame.
  - unfold setDemoLoanDuration in H. inv_ok H. injection H as <-. by apply Hsame.
  - unfold depositLiquidity in H. inv_ok H. injection H as <-. by apply Hsame.
  - unfold withdraw in H. inv_ok H. apply transfer_Ok in H as [-> _].
    by apply Hsame.
  - unfold unfreezeAccount in H. inv_ok H. injection H as <-. by apply Hsame.
  - unfold transferAdmin in H. inv_ok H. injection H as <-. by apply Hsame.
  - injection H as <-. by apply Hsame.
Qed.

Lemma transact_loan_terms s e c i l :
  Inv s → loans s !! i = Some l →
  ∃ l', loans (transact s e c) !! i = Some l' ∧ same_terms l l'.
Proof.
  intros HI Hi. unfold transact.
  destruct (call s e c) as [s'|] eqn:Hcall; [|by exists l].
  apply call_Ok in Hcall as [_ Hcall].
  eapply body_loan_terms; [|exact Hcall|done]. by apply Inv_set_balance.
Qed.

Lemma run_loan_terms txs : ∀ s i l,
  Inv s → loans s !! i = Some l →
  ∃ l', loans (run s txs) !! i = Some l' ∧ same_terms l l'.
Proof.
  induction txs as [|[e c] txs IH]; intros s i l HI Hi; simpl; [by exists l|].
  destruct (transact_loan_terms s e c i l HI Hi) as (l1 & Hl1 & Ht1).
  destruct (IH (transact s e c) i l1 (Inv_transact s e c HI) Hl1)
    as (l2 & Hl2 & Ht2).
  exists l2. split; [done|].
  destruct Ht1 as (? & ? & ? & ?), Ht2 as (? & ? & ? & ?).
  unfold same_terms. split_and!; congruence.
Qed.

Lemma credit_table_holds trust :
  credit_table trust (maxLoanOfScore trust) (rateOfScore trust).
Proof.
  unfold credit_table, maxLoanOfScore, rateOfScore.
  repeat (match goal with |- context [?a <? ?b] =>
            destruct (Z.ltb_spec a b) end);
    repeat split; intros; lia.
Qed.

(** C9: the maximal loan and the interest rate are the tier table read at
    the trust score; requestLoan fixes the interest as
    amount * rate / 100 (rounded down) and the total repayment as
    amount + interest from the rate at request time; no later transaction
    changes the terms of a loan. *)
Theorem credit_policy s :
  reachable s →
  (∀ u, ∃ trust maxLoan rate,
     getTrustScore s u = Ok trust ∧ getMaxLoanAmount s u = Ok maxLoan ∧
     getInterestRate s u = Ok rate ∧ credit_table trust maxLoan rate) ∧
  (∀ e _amount _purpose s',
     call s e (RequestLoan _amount _purpose) = Ok s' →
     ∃ rate loan,
       getInterestRate s (sender e) = Ok rate ∧
       loanCount s' = loanCount s + 1 ∧
       loans s' !! loanCount s' = Some loan ∧
       Loan.borrower loan = sender e ∧ Loan.amount loan = _amount ∧
       Loan.interestAmount loan = _amount * rate / 100 ∧
       Loan.totalRepayment loan = _amount + Loan.interestAmount loan) ∧
  (∀ i loan txs, loans s !! i = Some loan →
     ∃ loan', loans (run s txs) !! i = Some loan' ∧ same_terms loan loan').
Proof.
  intros Hs%reachable_Inv. split; [|split].
  - intros u. destruct (getTrustScore_total s u Hs) as (trust & Htrust & _).
    exists trust, (maxLoanOfScore trust), (rateOfScore trust).
    unfold getMaxLoanAmount, getInterestRate. rewrite Htrust.
    split_and!; try done. apply credit_table_holds.
  - intros e amt p s' [_ H]%call_Ok. simpl in H.
    unfold requestLoan in H. inv_ok H. injection H as <-.
    match goal with Hr : getInterestRate _ _ = Ok ?r |- _ =>
      exists r; eexists; split; [exact Hr|] end.
    simpl. rewrite lookup_insert_eq. split_and!; done.
  - intros i loan txs Hi. by apply run_loan_terms.
Qed.

(* alice at trust score 50: 10 ether at 6 percent *)
Lemma credit_policy_witness :
  getMaxLoanAmount circleOfThree alice = Ok (10 * ether) ∧
  getInterestRate circleOfThree alice = Ok 6 ∧
  Loan.interestAmount (loans loanRequested !!! 1) = 10 * ether * 6 / 100 ∧
  Loan.totalRepayment (loans loanDefaulted !!! 1) =
    10 * ether + 10 * ether * 6 / 100.
Proof.
  destruct (credit_policy circleOfThree reachable_circleOfThree)
    as (Htable & _ & _).
  destruct (Htable alice) as (trust & maxLoan & rate & Ht & Hmax & Hrate & Htier
    & _).
  assert (Htrust : trust = 50).
  { assert (Hc : getTrustScore circleOfThree alice = Ok 50) by by_computation.
    congruence. }
  destruct (Htier ltac:(lia)) as [-> ->].
  split; [exact Hmax|]. split; [exact Hrate|]. split; by_computation.
Defined.

(** ** Stakes as liquidity *)



Lemma maxLoanOfScore_le trust : maxLoanOfScore trust <= 200 * ether.
Proof.
  unfold maxLoanOfScore, ether.
  repeat (match goal with |- context [?a <? ?b] =>
            destruct (Z.ltb_spec a b) end); lia.
Qed.


Lemma transact_cases s e c (P : State → Prop) :
  P s →
  (∀ s', body (set_balance (balance s + value e) s) e c = Ok s' →
         payable c = true ∨ value e = 0 → P s') →
  P (transact s e c).
Proof.
  intros Hs Hok. unfold transact. destruct (call s e c) as [s'|] eqn:Hcall; [|done].
  apply call_Ok in Hcall as [Hpay Hcall]. by apply Hok.
Qed.












(** * Further properties of the contract *)

(** ** Successful calls, written out *)

Lemma approveLoan_Ok s e i s' :
  approveLoan s e i = Ok s' →
  let loan := loans s !!! i in
  let due := timestamp e + loanDuration s in
  (sender e = admin s ∧ Loan.borrower loan ≠ 0 ∧ Loan.approved loan = false ∧
   Loan.disbursed loan = false ∧ Loan.amount loan <= balance s ∧
   due <= MAX_UINT256 ∧
   MemberData.totalBorrowed (members s !!! Loan.borrower loan)
     + Loan.amount loan <= MAX_UINT256) ∧
  s' = set_balance (balance s - Loan.amount loan)
         (set_members
            (<[Loan.borrower loan :=
                 MemberData.set_totalBorrowed
                   (MemberData.totalBorrowed (members s !!! Loan.borrower loan)
                    + Loan.amount loan)
                   (members s !!! Loan.borrower loan)]> (members s))
            (set_loans
               (<[i := Loan.disburse (timestamp e) due
                         (Loan.approve (timestamp e) loan)]> (loans s)) s)).
Proof.
  intros H. unfold approveLoan in H. inv_ok H.
  apply transfer_Ok in H as [-> _].
  match goal with Hc : creditBorrowed _ _ _ = Ok _ |- _ =>
    unfold creditBorrowed in Hc; inv_ok Hc; injection Hc as <- end.
  bool_to_prop. simpl. split; [|done]. split_and!; done.
Qed.

Lemma approveLoan_paid s e i s' :
  approveLoan s e i = Ok s' →
  accepts e (Loan.borrower (loans s !!! i)) = true.
Proof.
  intros H. unfold approveLoan in H. inv_ok H.
  apply transfer_Ok in H as (_ & _ & Htakes).
  match goal with Hc : creditBorrowed _ _ _ = Ok _ |- _ =>
    unfold creditBorrowed in Hc; inv_ok Hc; injection Hc as <- end.
  exact Htakes.
Qed.

Lemma disburseLoan_Ok s e i s' :
  disburseLoan s e i = Ok s' →
  let loan := loans s !!! i in
  let due := timestamp e + loanDuration s in
  (sender e = admin s ∧ Loan.approved loan = true ∧
   Loan.disbursed loan = false ∧ value e = Loan.amount loan) ∧
  s' = set_balance (balance s - Loan.amount loan)
         (set_members
            (<[Loan.borrower loan :=
                 MemberData.set_totalBorrowed
                   (MemberData.totalBorrowed (members s !!! Loan.borrower loan)
                    + Loan.amount loan)
                   (members s !!! Loan.borrower loan)]> (members s))
            (set_loans
               (<[i := Loan.disburse (timestamp e) due loan]> (loans s)) s)).
Proof.
  intros H. unfold disburseLoan in H. inv_ok H.
  apply transfer_Ok in H as [-> _].
  match goal with Hc : creditBorrowed _ _ _ = Ok _ |- _ =>
    unfold creditBorrowed in Hc; inv_ok Hc; injection Hc as <- end.
  bool_to_prop. simpl. split; [|done]. split_and!; done.
Qed.

Lemma updateScoresOnRepayment_Ok s b bonus s' :
  _updateScoresOnRepayment s b bonus = Ok s' →
  s' = if 0 <? bonus
       then set_members
              (<[b := MemberData.set_individualScore
                        (if MAX_SCORE <? score s b + bonus
                         then MAX_SCORE else score s b + bonus)
                        (members s !!! b)]> (members s)) s
       else s.
Proof.
  intros H. unfold _updateScoresOnRepayment in H.
  apply bind_Ok in H as (s1 & H1 & H).
  assert (s' = s1) as ->.
  { destruct (0 <? MemberData.circleId _); [inv_ok H|]; by injection H as <-. }
  destruct (0 <? bonus); [inv_ok H1|]; by injection H1 as <-.
Qed.

Lemma repayLoan_Ok s e i s' :
  repayLoan s e i = Ok s' →
  let loan := loans s !!! i in
  let member := members s !!! sender e in
  let member' :=
    MemberData.set_hasActiveLoan false
      (MemberData.set_loansCompleted (MemberData.loansCompleted member + 1)
         (MemberData.set_totalRepaid
            (MemberData.totalRepaid member + Loan.totalRepayment loan) member)) in
  (Loan.borrower loan = sender e ∧ Loan.disbursed loan = true ∧
   Loan.repaid loan = false ∧ value e = Loan.totalRepayment loan) ∧
  ∃ bonus,
    _calculateCreditBonus (Loan.dueDate loan) (timestamp e) = Ok bonus ∧
    s' = set_members
           (<[sender e :=
                if 0 <? bonus
                then MemberData.set_individualScore
                       (if MAX_SCORE <? MemberData.individualScore member + bonus
                        then MAX_SCORE
                        else MemberData.individualScore member + bonus) member'
                else member']> (members s))
           (set_loans (<[i := Loan.repay (timestamp e) loan]> (loans s)) s).
Proof.
  intros H. unfold repayLoan in H. inv_ok H. bool_to_prop. simpl.
  split; [done|].
  match goal with Hb : _calculateCreditBonus _ _ = Ok ?b |- _ =>
    exists b; split; [exact Hb|] end.
  apply updateScoresOnRepayment_Ok in H. rewrite H. clear H.
  unfold score. simpl. rewrite !lookup_total_insert_eq.
  destruct (0 <? _); simpl; [|done].
  by rewrite insert_insert_eq.
Qed.

(** Case analysis on a successful call: the post-state is written out and
    the guards the call passed are added to the context. *)
Ltac body_inv H :=
  match type of H with body _ _ ?c = Ok _ => destruct c; simpl in H end;
  [ unfold createCircle in H; inv_ok H; injection H as <-
  | unfold joinCircle in H; inv_ok H; injection H as <-
  | unfold requestLoan in H; inv_ok H; injection H as <-
  | apply approveLoan_Ok in H; cbv zeta in H; destruct H as [? ->]
  | apply disburseLoan_Ok in H; cbv zeta in H; destruct H as [? ->]
  | apply repayLoan_Ok in H; cbv zeta in H; destruct H as [? (? & ? & ->)]
  | apply penalizeDefault_Ok in H; cbv zeta in H;
    destruct H as (? & ? & ? & ? & ->)
  | unfold setDemoMode in H; inv_ok H; injection H as <-
  | unfold setDemoLoanDuration in H; inv_ok H; injection H as <-
  | unfold depositLiquidity in H; inv_ok H; injection H as <-
  | unfold withdraw in H; inv_ok H; apply transfer_Ok in H as [-> _]
  | unfold unfreezeAccount in H; inv_ok H; injection H as <-
  | unfold transferAdmin in H; inv_ok H; injection H as <-
  | injection H as <- ];
  repeat match goal with Hg : _ ∧ _ |- _ => destruct Hg end;
  bool_to_prop.

(** ** The balance as a ledger *)

Lemma call_balance s e c s' :
  call s e c = Ok s' →
  balance s' = balance s + value e - payout s c.
Proof.
  intros [_ H]%call_Ok. body_inv H; simpl; lia.
Qed.

(** X1: a successful call changes the contract balance by the value it
    receives minus what it pays out: the principal for approveLoan and
    disburseLoan, the amount for withdraw, nothing for any other call. *)
Theorem balance_ledger s e c s' :
  call s e c = Ok s' →
  balance s' = balance s + value e - payout s c.
Proof.
  intros Hcall. destruct (call_Ok _ _ _ _ Hcall) as [_ H].
  body_inv H; simpl; lia.
Qed.

Lemma call_loanDisbursed :
  call loanRequested (mkEnv deployer 0 t0) (ApproveLoan 1) = Ok loanDisbursed.
Proof. by vm_compute. Qed.

(* the approval pays 10 ether out of the 15 ether of stakes *)
Lemma balance_ledger_witness :
  balance loanRequested = 15 * ether ∧ balance loanDisbursed = 5 * ether.
Proof.
  split; [by_computation|].
  rewrite (balance_ledger _ _ _ _ call_loanDisbursed). by_computation.
Defined.

(** X2: no transaction sent by anyone but the admin lowers the contract
    balance; the only calls that lower it are approveLoan and withdraw. *)
Theorem only_admin_lowers_balance s e c :
  0 <= value e →
  balance (transact s e c) < balance s →
  sender e = admin s ∧
  ((∃ _loanId, c = ApproveLoan _loanId) ∨ (∃ _amount, c = Withdraw _amount)).
Proof.
  intros Hval. unfold transact.
  destruct (call s e c) as [s'|] eqn:Hcall; [|lia].
  rewrite (call_balance _ _ _ _ Hcall).
  apply call_Ok in Hcall as [_ H]. intros Hlow.
  destruct c; simpl in H, Hlow; try lia.
  - apply approveLoan_Ok in H as [(Ha & _) _]. simpl in Ha.
    split; [exact Ha|]. left. by eexists.
  - apply disburseLoan_Ok in H as [(_ & _ & _ & Hv) _]. simpl in Hv. lia.
  - unfold withdraw in H. inv_ok H. bool_to_prop. simpl in *.
    split; [done|]. right. by eexists.
Qed.

(* the admin's approval of the loan is such a transaction *)
Lemma only_admin_lowers_balance_witness :
  balance (transact loanRequested (mkEnv deployer 0 t0) (ApproveLoan 1))
    < balance loanRequested ∧
  sender (mkEnv deployer 0 t0) = admin loanRequested.
Proof.
  assert (Hval : 0 <= value (mkEnv deployer 0 t0)) by by_computation.
  assert (Hlow : balance (transact loanRequested (mkEnv deployer 0 t0)
                            (ApproveLoan 1)) < balance loanRequested)
    by by_computation.
  split; [exact Hlow|].
  destruct (only_admin_lowers_balance _ _ _ Hval Hlow) as [Hadmin _].
  exact Hadmin.
Defined.

(** ** Access control *)

Lemma body_not_admin s e c :
  admin_only c = true → sender e ≠ admin s →
  body s e c = Err (Message "Only admin").
Proof.
  intros Hc Hne. destruct c; try done; simpl;
    [unfold approveLoan|unfold disburseLoan|unfold penalizeDefault
    |unfold setDemoMode|unfold setDemoLoanDuration|unfold depositLiquidity
    |unfold withdraw|unfold unfreezeAccount|unfold transferAdmin];
    by destruct (Z.eqb_spec (sender e) (admin s)).
Qed.

Lemma transact_not_admin s e c :
  admin_only c = true → sender e ≠ admin s →
  is_ok (call s e c) = false ∧ transact s e c = s.
Proof.
  intros Hc Hne.
  assert (Hcall : is_ok (call s e c) = false).
  { unfold call. destruct (_ && _); [done|].
    by rewrite (body_not_admin _ e c Hc) by done. }
  split; [done|]. unfold transact. by destruct (call s e c).
Qed.

(** X3: every function guarded by onlyAdmin rejects a caller who is not the
    admin with the reason "Only admin" and leaves the state as it was. *)
Theorem onlyAdmin_rejects s e c :
  admin_only c = true → sender e ≠ admin s →
  body s e c = Err (Message "Only admin") ∧
  is_ok (call s e c) = false ∧
  transact s e c = s.
Proof.
  intros Hc Hne. split; [by apply body_not_admin|].
  by apply transact_not_admin.
Qed.

(* alice tries to withdraw the stakes *)
Lemma onlyAdmin_rejects_witness :
  body circleOfThree (mkEnv alice 0 t0) (Withdraw ether)
    = Err (Message "Only admin") ∧
  transact circleOfThree (mkEnv alice 0 t0) (Withdraw ether) = circleOfThree.
Proof.
  assert (Hc : admin_only (Withdraw ether) = true) by by_computation.
  assert (Hne : sender (mkEnv alice 0 t0) ≠ admin circleOfThree)
    by by_computation.
  destruct (onlyAdmin_rejects circleOfThree (mkEnv alice 0 t0) (Withdraw ether)
              Hc Hne) as (Hbody & _ & Hsame).
  split; [exact Hbody|exact Hsame].
Defined.

(** X4: the admin is never the zero address, and the admin changes only by a
    successful transferAdmin sent by the current admin, to the address it
    names. *)
Theorem admin_changes_by_transferAdmin s e c :
  reachable s →
  admin s ≠ 0 ∧
  (admin (transact s e c) ≠ admin s →
   sender e = admin s ∧ c = TransferAdmin (admin (transact s e c))).
Proof.
  assert (Hstep : ∀ s e c, admin (transact s e c) ≠ admin s →
    sender e = admin s ∧ c = TransferAdmin (admin (transact s e c)) ∧
    admin (transact s e c) ≠ 0).
  { clear. intros s e c. unfold transact.
    destruct (call s e c) as [s'|] eqn:Hcall; [|done].
    apply call_Ok in Hcall as [_ H]. body_inv H; simpl; done. }
  intros Hs. split; [|intros Hne; by destruct (Hstep s e c Hne) as (? & ? & _)].
  clear e c. induction Hs as [d Hd|s e c _ IH _ _]; simpl; [lia|].
  destruct (decide (admin (transact s e c) = admin s)) as [->|Hne]; [done|].
  by destruct (Hstep s e c Hne) as (_ & _ & ?).
Qed.

(* the scenario never changes the admin *)
Lemma admin_changes_by_transferAdmin_witness :
  admin loanDefaulted ≠ 0 ∧ admin loanDefaulted = deployer.
Proof.
  split; [|by_computation].
  destruct (admin_changes_by_transferAdmin loanDefaulted lateEnv Receive
              reachable_loanDefaulted) as [Hadmin _].
  exact Hadmin.
Defined.

(** ** Loans only move forward *)

Lemma loan_advances_refl l : loan_advances l l.
Proof. unfold loan_advances. split_and!; done. Qed.

Lemma loan_advances_trans l1 l2 l3 :
  loan_advances l1 l2 → loan_advances l2 l3 → loan_advances l1 l3.
Proof.
  unfold loan_advances.
  intros ((?&?&?&?&?&?&?) & Ha1 & Hd1 & Hr1) ((?&?&?&?&?&?&?) & Ha2 & Hd2 & Hr2).
  split; [split_and!; congruence|]. split; [by auto|]. split.
  - intros Hd. destruct (Hd1 Hd) as (Hd' & ? & ? & ?).
    destruct (Hd2 Hd') as (? & ? & ? & ?). split_and!; congruence.
  - intros Hr. destruct (Hr1 Hr) as (Hr' & ?).
    destruct (Hr2 Hr') as (? & ?). split_and!; congruence.
Qed.

Lemma loan_advances_insert (m : gmap Z Loan.t) j l' i l :
  m !! i = Some l → loan_advances (m !!! j) l' →
  ∃ l2, <[j := l']> m !! i = Some l2 ∧ loan_advances l l2.
Proof.
  intros Hi Hadv. destruct (decide (j = i)) as [->|].
  - rewrite lookup_insert_eq. exists l'. split; [done|].
    by rewrite (lookup_total_Some _ _ _ Hi) in Hadv.
  - rewrite lookup_insert_ne by done. exists l. split; [done|].
    apply loan_advances_refl.
Qed.

Lemma body_loan_advances s e c s' i l :
  Inv s → body s e c = Ok s' → loans s !! i = Some l →
  ∃ l', loans s' !! i = Some l' ∧ loan_advances l l'.
Proof.
  intros HI H Hi.
  assert (Hkeep : ∃ l', loans s !! i = Some l' ∧ loan_advances l l').
  { exists l. split; [done|apply loan_advances_refl]. }
  body_inv H; simpl; try exact Hkeep.
  - rewrite lookup_insert_ne; [exact Hkeep|].
    intros <-. apply (inv_loan_ids _ HI) in Hi. lia.
  - apply loan_advances_insert; [done|].
    unfold loan_advances. simpl. split_and!; try done; intros; congruence.
  - apply loan_advances_insert; [done|].
    unfold loan_advances. simpl. split_and!; try done; intros; congruence.
  - apply loan_advances_insert; [done|].
    unfold loan_advances. simpl. split_and!; try done; intros; congruence.
Qed.

Lemma transact_loan_advances s e c i l :
  Inv s → loans s !! i = Some l →
  ∃ l', loans (transact s e c) !! i = Some l' ∧ loan_advances l l'.
Proof.
  intros HI Hi. unfold transact.
  destruct (call s e c) as [s'|] eqn:Hcall;
    [|exists l; split; [done|apply loan_advances_refl]].
  apply call_Ok in Hcall as [_ Hcall].
  eapply body_loan_advances; [|exact Hcall|done]. by apply Inv_set_balance.
Qed.

Lemma run_loan_advances txs : ∀ s i l,
  Inv s → loans s !! i = Some l →
  ∃ l', loans (run s txs) !! i = Some l' ∧ loan_advances l l'.
Proof.
  induction txs as [|[e c] txs IH]; intros s i l HI Hi; simpl;
    [exists l; split; [done|apply loan_advances_refl]|].
  destruct (transact_loan_advances s e c i l HI Hi) as (l1 & Hl1 & Ha1).
  destruct (IH (transact s e c) i l1 (Inv_transact s e c HI) Hl1)
    as (l2 & Hl2 & Ha2).
  exists l2. split; [done|]. by eapply loan_advances_trans.
Qed.

(** X5: a loan is never deleted or rewritten: over any sequence of
    transactions its id, borrower, principal, interest, total repayment,
    request time and purpose stay, a flag that is set stays set, and the
    approval, disbursement and due times of a disbursed loan and the
    repayment time of a repaid loan stay as written. *)
Theorem loans_only_advance s i l txs :
  reachable s → loans s !! i = Some l →
  ∃ l', loans (run s txs) !! i = Some l' ∧ loan_advances l l'.
Proof. intros Hs%reachable_Inv Hi. by apply run_loan_advances. Qed.

(* the disbursed loan of alice, seen again after the default was penalized *)
Lemma loans_only_advance_witness :
  ∃ l l', loans loanDisbursed !! 1 = Some l ∧
          loans (run loanDisbursed [(lateEnv, PenalizeDefault 1)]) !! 1
            = Some l' ∧
          Loan.dueDate l' = Loan.dueDate l ∧ Loan.dueDate l = t0 + 7 * days.
Proof.
  assert (Hl : loans loanDisbursed !! 1 = Some (loans loanDisbursed !!! 1))
    by by_computation.
  destruct (loans_only_advance loanDisbursed 1 _ [(lateEnv, PenalizeDefault 1)]
              reachable_loanDisbursed Hl) as (l' & Hl' & _ & _ & Hd & _).
  exists (loans loanDisbursed !!! 1), l'.
  split; [exact Hl|]. split; [exact Hl'|].
  assert (Hdisbursed : Loan.disbursed (loans loanDisbursed !!! 1) = true)
    by by_computation.
  destruct (Hd Hdisbursed) as (_ & _ & _ & Hdue).
  split; [exact Hdue|by_computation].
Defined.

(** ** Repeated penalties, whatever happens in between *)

Lemma Inv_run txs : ∀ s, Inv s → Inv (run s txs).
Proof.
  induction txs as [|[e c] txs IH]; intros s HI; simpl; [done|].
  apply IH. by apply Inv_transact.
Qed.

(** C3 (amended): the contract keeps no marker of an applied penalty: a
    successful penalizeDefault leaves every loan as it was. After it, and
    after any further transactions, a call for the same loan by the admin at
    the same or a later time is rejected only if the loan has been repaid in
    between, with the reason "Already repaid". Otherwise it succeeds again:
    it leaves every loan unchanged and the borrower frozen, and applies the
    score penalties once more (50 to the borrower, 20 to every other member
    of the circle, floored at 0). *)
Theorem penalizeDefault_repeats s e _loanId s1 txs e' :
  reachable s →
  call s e (PenalizeDefault _loanId) = Ok s1 →
  let later := run s1 txs in
  wf_env e' → sender e' = admin later → value e' = 0 →
  timestamp e <= timestamp e' →
  let b := Loan.borrower (loans s !!! _loanId) in
  loans s1 = loans s ∧
  (Loan.repaid (loans later !!! _loanId) = true →
   call later e' (PenalizeDefault _loanId) = Err (Message "Already repaid")) ∧
  (Loan.repaid (loans later !!! _loanId) = false →
   ∃ s2, call later e' (PenalizeDefault _loanId) = Ok s2 ∧
         loans s2 = loans later ∧
         score s2 b = Z.max 0 (score later b - 50) ∧
         MemberData.isActive (members s2 !!! b) = false ∧
         ∀ a, a ≠ b →
           a ∈ Circle.members
                 (circles s2 !!! MemberData.circleId (members s2 !!! b)) →
           score s2 a = Z.max 0 (score later a - 20) ∧
           MemberData.isActive (members s2 !!! a) =
             MemberData.isActive (members later !!! a)).
Proof.
  intros Hs%reachable_Inv [_ Hcall]%call_Ok later (_ & _ & _ & Hnow) Hadmin Hval
    Hlater b.
  set (s0 := set_balance (balance s + value e) s) in *.
  assert (HI0 : Inv s0) by by apply Inv_set_balance.
  pose proof (Inv_penalizeDefault _ _ _ _ HI0 Hcall) as HI1.
  pose proof (penalizeDefault_Ok _ _ _ _ Hcall) as (_ & Hd & _ & Hlate & _).
  destruct (penalizeDefault_effect s0 e _loanId s1 HI0 Hcall)
    as ((_ & Hloans & _) & _ & _).
  change (loans s0) with (loans s) in *.
  split; [done|].
  assert (Hi : loans s1 !! _loanId = Some (loans s !!! _loanId)).
  { rewrite Hloans. apply lookup_total_present. intros Hz.
    rewrite Hz in Hd. done. }
  destruct (run_loan_advances txs s1 _loanId _ HI1 Hi)
    as (l' & Hl' & (_ & Hb & _) & _ & Hdisb & _).
  destruct (Hdisb Hd) as (Hd' & _ & _ & Hdue).
  fold later in Hl'. pose proof (lookup_total_Some _ _ _ Hl') as Hl.
  pose proof (Inv_run txs s1 HI1) as HIl. fold later in HIl.
  rewrite (call_nonpayable later e' (PenalizeDefault _loanId) eq_refl Hval).
  cbn [body].
  set (later' := set_balance (balance later + 0) later).
  assert (HIl' : Inv later') by by apply Inv_set_balance.
  split.
  - intros Hr. rewrite Hl in Hr. unfold penalizeDefault. subst later'. simpl.
    by rewrite Hadmin, Z.eqb_refl, Hl, Hd', Hr.
  - intros Hr. rewrite Hl in Hr.
    destruct (penalizeDefault_succeeds later' e' _loanId) as [s2 Hcall2];
      try done; subst later'; simpl; rewrite ?Hl; try done; [lia|].
    exists s2. split; [done|].
    destruct (penalizeDefault_effect _ e' _loanId s2 HIl' Hcall2)
      as ((_ & Hloans2 & Hcircles2 & _) & Hbor & Hothers).
    simpl in Hloans2, Hcircles2, Hbor, Hothers.
    rewrite Hl, Hb in Hbor, Hothers. fold b in Hbor, Hothers.
    split; [done|]. unfold score. rewrite Hbor, Hcircles2.
    split; [by apply (slash_score DEFAULT_PENALTY)|]. split; [done|].
    intros a Ha Hin. simpl in Hin.
    rewrite (Hothers a Ha), bool_decide_eq_true_2 by done.
    split; [by apply (slash_score CIRCLE_DEFAULT_PENALTY)|done].
Qed.

(* the admin unfreezes alice and then penalizes the same loan again: alice
   is frozen again and carol goes from 30 to 10 *)
Lemma penalizeDefault_repeats_witness :
  ∃ s2, call (run loanDefaulted [(lateEnv, UnfreezeAccount alice)]) lateEnv
          (PenalizeDefault 1) = Ok s2 ∧
        MemberData.isActive (members s2 !!! alice) = false ∧
        score loanDefaulted carol = 30 ∧ score s2 carol = 10.
Proof.
  assert (Hwf : wf_env lateEnv) by by_computation.
  assert (Hadmin : sender lateEnv
                   = admin (run loanDefaulted [(lateEnv, UnfreezeAccount alice)]))
    by by_computation.
  assert (Hval : value lateEnv = 0) by by_computation.
  assert (Hlater : timestamp lateEnv <= timestamp lateEnv) by by_computation.
  assert (Hopen : Loan.repaid
            (loans (run loanDefaulted [(lateEnv, UnfreezeAccount alice)]) !!! 1)
          = false) by by_computation.
  destruct (penalizeDefault_repeats loanDisbursed lateEnv 1 loanDefaulted
              [(lateEnv, UnfreezeAccount alice)] lateEnv
              reachable_loanDisbursed call_loanDefaulted Hwf Hadmin Hval Hlater)
    as (_ & _ & Hagain).
  destruct (Hagain Hopen) as (s2 & Hcall & _ & _ & Hfrozen & _).
  exists s2. split; [exact Hcall|].
  vm_compute in Hcall. injection Hcall as <-. by_computation.
Defined.

(** ** Members keep their circle and their bond *)

Lemma penalizeMembers_fields l d a : ∀ ms,
  ∃ sc, penalizeMembers ms l d !!! a
        = MemberData.set_individualScore sc (ms !!! a).
Proof.
  induction l as [|x l IH]; intros ms; cbn [penalizeMembers].
  - exists (MemberData.individualScore (ms !!! a)). by destruct (ms !!! a).
  - destruct (negb (x =? d)); [|apply IH].
    destruct (IH (<[x := slash CIRCLE_DEFAULT_PENALTY (ms !!! x)]> ms)) as [sc ->].
    destruct (decide (x = a)) as [->|].
    + rewrite lookup_total_insert_eq. by exists sc.
    + rewrite lookup_total_insert_ne by done. by exists sc.
Qed.

(** What a successful call keeps of the record of an address: its circle and
    its bond, unless the call is the one by which the address enters a
    circle. *)
Lemma body_member_frame s e c s' a :
  body s e c = Ok s' →
  (joins c ∧ a = sender e ∧ MemberData.circleId (members s !!! a) = 0) ∨
  (MemberData.circleId (members s' !!! a) = MemberData.circleId (members s !!! a) ∧
   MemberData.trustBond (members s' !!! a) = MemberData.trustBond (members s !!! a)).
Proof.
  intros H. body_inv H; simpl; try (by right).
  - destruct (decide (sender e = a)) as [<-|].
    + left. split_and!; try done. left. by eexists.
    + right. by rewrite lookup_total_insert_ne.
  - destruct (decide (sender e = a)) as [<-|].
    + left. split_and!; try done. right. by eexists.
    + right. by rewrite lookup_total_insert_ne.
  - right. destruct (decide (sender e = a)) as [<-|].
    + by rewrite lookup_total_insert_eq.
    + by rewrite lookup_total_insert_ne.
  - right. match goal with |- context [<[?b := _]> _ !!! a] =>
      destruct (decide (b = a)) as [<-|] end.
    + by rewrite lookup_total_insert_eq.
    + by rewrite lookup_total_insert_ne.
  - right. match goal with |- context [<[?b := _]> _ !!! a] =>
      destruct (decide (b = a)) as [<-|] end.
    + by rewrite lookup_total_insert_eq.
    + by rewrite lookup_total_insert_ne.
  - right. destruct (decide (sender e = a)) as [<-|].
    + rewrite lookup_total_insert_eq. by destruct (0 <? _).
    + by rewrite lookup_total_insert_ne.
  - right. set (b := Loan.borrower (loans s !!! _loanId)).
    assert (Hb : MemberData.circleId
        (<[b := MemberData.set_isActive false
                  (slash DEFAULT_PENALTY (members s !!! b))]> (members s) !!! a)
        = MemberData.circleId (members s !!! a) ∧
      MemberData.trustBond
        (<[b := MemberData.set_isActive false
                  (slash DEFAULT_PENALTY (members s !!! b))]> (members s) !!! a)
        = MemberData.trustBond (members s !!! a)).
    { destruct (decide (b = a)) as [<-|].
      - by rewrite lookup_total_insert_eq.
      - by rewrite lookup_total_insert_ne. }
    destruct (0 <? _); [|exact Hb].
    match goal with |- context [penalizeMembers ?ms ?l ?d] =>
      destruct (penalizeMembers_fields l d a ms) as [sc ->] end.
    simpl. exact Hb.
  - right. destruct (decide (_user = a)) as [<-|].
    + by rewrite lookup_total_insert_eq.
    + by rewrite lookup_total_insert_ne.
Qed.

Lemma transact_member_frame s e c a :
  MemberData.circleId (members s !!! a) ≠ 0 →
  MemberData.circleId (members (transact s e c) !!! a)
    = MemberData.circleId (members s !!! a) ∧
  MemberData.trustBond (members (transact s e c) !!! a)
    = MemberData.trustBond (members s !!! a).
Proof.
  intros Hc. unfold transact.
  destruct (call s e c) as [s'|] eqn:Hcall; [|done].
  apply call_Ok in Hcall as [_ H].
  destruct (body_member_frame _ _ _ _ a H) as [(_ & _ & Hz)|Hkeep]; [done|].
  exact Hkeep.
Qed.

Lemma run_member_frame txs : ∀ s a,
  MemberData.circleId (members s !!! a) ≠ 0 →
  MemberData.circleId (members (run s txs) !!! a)
    = MemberData.circleId (members s !!! a) ∧
  MemberData.trustBond (members (run s txs) !!! a)
    = MemberData.trustBond (members s !!! a).
Proof.
  induction txs as [|[e c] txs IH]; intros s a Hc; simpl; [done|].
  destruct (transact_member_frame s e c a Hc) as [Hc1 Hb1].
  destruct (IH (transact s e c) a) as [Hc2 Hb2]; [by rewrite Hc1|].
  split; congruence.
Qed.

(** X6: circle membership is permanent: once an address has a circle, no
    sequence of transactions changes its circle or its bond, and every later
    createCircle or joinCircle it sends is rejected, so a member cannot start
    again with a fresh score. *)
Theorem membership_is_permanent s a txs :
  MemberData.circleId (members s !!! a) ≠ 0 →
  let s' := run s txs in
  MemberData.circleId (members s' !!! a) = MemberData.circleId (members s !!! a) ∧
  MemberData.trustBond (members s' !!! a) = MemberData.trustBond (members s !!! a) ∧
  (∀ e c, sender e = a → joins c →
     is_ok (call s' e c) = false ∧ transact s' e c = s').
Proof.
  intros Hc. simpl. destruct (run_member_frame txs s a Hc) as [Hc' Hb'].
  split; [done|]. split; [done|].
  intros e c <- Hj.
  assert (Hfail : is_ok (call (run s txs) e c) = false).
  { destruct (call (run s txs) e c) as [s2|] eqn:Hcall; [|done].
    apply call_Ok in Hcall as [_ H]. exfalso.
    destruct Hj as [[n ->]|[i ->]]; simpl in H.
    - unfold createCircle in H. inv_ok H. bool_to_prop. simpl in *. congruence.
    - unfold joinCircle in H. inv_ok H. bool_to_prop. simpl in *. congruence. }
  split; [done|]. unfold transact. by destruct (call (run s txs) e c).
Qed.

(* alice, slashed to 0 by her default, tries to found a new circle *)
Lemma membership_is_permanent_witness :
  MemberData.circleId (members circleOfThree !!! alice) = 1 ∧
  score loanDefaulted alice = 0 ∧
  transact loanDefaulted (mkEnv alice (5 * ether) t0) (CreateCircle "again")
    = loanDefaulted.
Proof.
  assert (Hc : MemberData.circleId (members circleOfThree !!! alice) ≠ 0)
    by by_computation.
  assert (Hrun : run circleOfThree
    [ (mkEnv alice 0 t0, RequestLoan (10 * ether) "seeds");
      (mkEnv deployer 0 t0, ApproveLoan 1);
      (lateEnv, PenalizeDefault 1) ] = loanDefaulted) by by_computation.
  destruct (membership_is_permanent circleOfThree alice
    [ (mkEnv alice 0 t0, RequestLoan (10 * ether) "seeds");
      (mkEnv deployer 0 t0, ApproveLoan 1);
      (lateEnv, PenalizeDefault 1) ] Hc) as (_ & _ & Hrejoin).
  rewrite Hrun in Hrejoin.
  split; [by_computation|]. split; [by_computation|].
  apply (Hrejoin (mkEnv alice (5 * ether) t0) (CreateCircle "again") eq_refl).
  left. by eexists.
Defined.

(** ** Induction over the reachable states *)

Lemma reachable_invariant (P : State → Prop) :
  (∀ d, 0 < d <= MAX_ADDRESS → P (init d)) →
  (∀ s v, P s → P (set_balance v s)) →
  (∀ s e c s', Inv s → P s → wf_env e → wf_call c →
               body s e c = Ok s' → P s') →
  ∀ s, reachable s → P s.
Proof.
  intros Hinit Hbal Hstep s Hs.
  induction Hs as [d Hd|s e c Hs IH He Hc]; [by apply Hinit|].
  apply transact_cases; [done|]. intros s' H _.
  eapply Hstep; [| |exact He|exact Hc|exact H].
  - by apply Inv_set_balance, reachable_Inv.
  - by apply Hbal.
Qed.

(** ** The circle registry *)

Lemma bondSum_ext ms ms' l :
  (∀ a, a ∈ l → MemberData.trustBond (ms' !!! a) = MemberData.trustBond (ms !!! a)) →
  bondSum ms' l = bondSum ms l.
Proof.
  induction l as [|x l IH]; intros Hext; simpl; [done|].
  rewrite Hext by apply list_elem_of_here.
  rewrite IH; [done|]. intros a Ha. apply Hext. by apply list_elem_of_further.
Qed.

Lemma bondSum_app ms l1 l2 : bondSum ms (l1 ++ l2) = bondSum ms l1 + bondSum ms l2.
Proof. induction l1 as [|x l IH]; simpl; lia. Qed.

Lemma body_registry_frame s e c s' :
  body s e c = Ok s' → ¬ joins c →
  circleCount s' = circleCount s ∧ circleExists s' = circleExists s ∧
  circles s' = circles s.
Proof.
  intros H Hj. body_inv H; simpl; try done.
  - destruct Hj. left. by eexists.
  - destruct Hj. right. by eexists.
Qed.

Lemma joins_dec c : joins c ∨ ¬ joins c.
Proof.
  destruct c; try (right; intros [[? [=]]|[? [=]]]; done).
  - left. left. by eexists.
  - left. right. by eexists.
Qed.

Lemma CircleInv_body s e c s' :
  Inv s → CircleInv s → body s e c = Ok s' → CircleInv s'.
Proof.
  intros HI HC H.
  destruct (joins_dec c) as [Hj|Hj].
  - assert (Hnot : ∀ i c0, circles s !! i = Some c0 → sender e ∉ Circle.members c0).
    { intros i c0 Hi Hin. pose proof (inv_member_of _ HI _ _ _ Hi Hin) as Hm.
      apply (inv_circle_ids _ HI) in Hi.
      destruct Hj as [[n ->]|[j ->]]; simpl in H;
        [unfold createCircle in H|unfold joinCircle in H];
        inv_ok H; bool_to_prop; lia. }
    assert (Hold : ∀ a, MemberData.circleId (members s !!! a) ≠ 0 →
      is_Some (circles s !! MemberData.circleId (members s !!! a))).
    { intros a Ha. pose proof (ci_member _ HC a Ha) as Hin.
      rewrite lookup_total_alt in Hin.
      destruct (circles s !! MemberData.circleId (members s !!! a)); [done|].
      simpl in Hin. by apply elem_of_nil in Hin. }
    destruct Hj as [[n ->]|[j ->]]; simpl in H.
    + unfold createCircle in H. inv_ok H. injection H as <-. bool_to_prop.
      pose proof (inv_counts _ HI) as [Hcc _].
      assert (Hfresh : circles s !! (circleCount s + 1) = None).
      { destruct (circles s !! (circleCount s + 1)) eqn:E; [|done].
        apply (inv_circle_ids _ HI) in E. lia. }
      split; simpl.
      * intros i Hi. destruct (decide (i = circleCount s + 1)) as [->|].
        -- rewrite !lookup_insert_eq. by eauto.
        -- rewrite !lookup_insert_ne by done. apply (ci_dense _ HC). lia.
      * intros i c0 [[<- <-]|[? Hi]]%lookup_insert_Some; simpl;
          [done|by apply (ci_wf _ HC)].
      * intros a. destruct (decide (sender e = a)) as [<-|Hne].
        -- rewrite lookup_total_insert_eq. simpl.
           rewrite lookup_total_insert_eq. simpl. intros _. apply list_elem_of_here.
        -- rewrite lookup_total_insert_ne by done. intros Ha.
           rewrite lookup_total_insert_ne; [by apply (ci_member _ HC)|].
           intros Heq. destruct (Hold a Ha) as [c0 Hc0]. congruence.
      * intros i c0 [[<- <-]|[? Hi]]%lookup_insert_Some; simpl.
        -- rewrite lookup_total_insert_eq. simpl. lia.
        -- rewrite (ci_stake _ HC _ _ Hi). symmetry. apply bondSum_ext.
           intros a Ha. rewrite lookup_total_insert_ne; [done|].
           intros <-. by eapply Hnot.
      * intros a. destruct (decide (sender e = a)) as [<-|Hne].
        -- rewrite lookup_total_insert_eq. simpl. done.
        -- rewrite lookup_total_insert_ne by done. apply (ci_bond _ HC).
    + unfold joinCircle in H. inv_ok H. injection H as <-. bool_to_prop.
      destruct (circleExists s !! j) as [[]|] eqn:Hex; try done.
      destruct (inv_exists _ HI _ Hex) as [cj Hcj].
      rewrite !(lookup_total_Some _ _ _ Hcj) in *.
      split; simpl.
      * intros i Hi. destruct (ci_dense _ HC i Hi) as [Hsome Hexi].
        split; [|done]. destruct (decide (j = i)) as [->|].
        -- rewrite lookup_insert_eq. by eauto.
        -- by rewrite lookup_insert_ne.
      * intros i c0 [[<- <-]|[? Hi]]%lookup_insert_Some; simpl;
          [|by apply (ci_wf _ HC)].
        destruct (ci_wf _ HC _ _ Hcj) as [Hid Hlen]. split; [done|].
        rewrite len_app. pose proof (len_nonneg [sender e]). lia.
      * intros a. destruct (decide (sender e = a)) as [<-|Hne].
        -- rewrite lookup_total_insert_eq. simpl.
           rewrite lookup_total_insert_eq. simpl. intros _.
           apply elem_of_app. right. apply list_elem_of_here.
        -- rewrite lookup_total_insert_ne by done. intros Ha.
           pose proof (ci_member _ HC a Ha) as Hin.
           destruct (decide (j = MemberData.circleId (members s !!! a))) as [Heq|Hn].
           ++ rewrite <- Heq in *. rewrite lookup_total_insert_eq. simpl.
              rewrite (lookup_total_Some _ _ _ Hcj) in Hin.
              apply elem_of_app. by left.
           ++ by rewrite lookup_total_insert_ne.
      * intros i c0 [[<- <-]|[? Hi]]%lookup_insert_Some; simpl.
        -- rewrite bondSum_app. simpl. rewrite lookup_total_insert_eq. simpl.
           rewrite (ci_stake _ HC _ _ Hcj).
           rewrite (bondSum_ext (members s) (<[sender e := _]> (members s))
                      (Circle.members cj)); [lia|].
           intros a Ha. rewrite lookup_total_insert_ne; [done|].
           intros <-. by eapply Hnot.
        -- rewrite (ci_stake _ HC _ _ Hi). symmetry. apply bondSum_ext.
           intros a Ha. rewrite lookup_total_insert_ne; [done|].
           intros <-. by eapply Hnot.
      * intros a. destruct (decide (sender e = a)) as [<-|Hne].
        -- rewrite lookup_total_insert_eq. simpl. done.
        -- rewrite lookup_total_insert_ne by done. apply (ci_bond _ HC).
  - destruct (body_registry_frame _ _ _ _ H Hj) as (Hcount & Hexists & Hcircles).
    assert (Hframe : ∀ a,
      MemberData.circleId (members s' !!! a) = MemberData.circleId (members s !!! a) ∧
      MemberData.trustBond (members s' !!! a) = MemberData.trustBond (members s !!! a)).
    { intros a. by destruct (body_member_frame _ _ _ _ a H) as [(? & _)|?]. }
    split.
    + rewrite Hcount, Hexists, Hcircles. apply (ci_dense _ HC).
    + rewrite Hcircles. apply (ci_wf _ HC).
    + intros a. destruct (Hframe a) as [-> _]. rewrite Hcircles.
      apply (ci_member _ HC).
    + rewrite Hcircles. intros i c0 Hi. rewrite (ci_stake _ HC _ _ Hi).
      symmetry. apply bondSum_ext. intros a _. by destruct (Hframe a).
    + intros a. destruct (Hframe a) as [-> ->]. apply (ci_bond _ HC).
Qed.

Lemma reachable_CircleInv s : reachable s → CircleInv s.
Proof.
  apply reachable_invariant.
  - intros d _. split; simpl; intros; try (by rewrite lookup_empty in *); try lia.
    all: by rewrite lookup_total_empty in *.
  - intros s0 v []. by split.
  - intros s0 e c s' HI HC _ _ H. by eapply CircleInv_body.
Qed.

(** ** The loan book *)

(** Where a loan of the post-state comes from. *)
Lemma body_loans_back s e c s' i l' :
  Inv s → body s e c = Ok s' → loans s' !! i = Some l' →
  (∃ l, loans s !! i = Some l ∧ loan_advances l l' ∧
        (Loan.repaid l' = Loan.repaid l ∨
         (c = RepayLoan i ∧ Loan.borrower l = sender e ∧
          Loan.disbursed l = true ∧ Loan.repaid l' = true))) ∨
  (loans s !! i = None ∧ i = loanCount s + 1 ∧
   Loan.id l' = i ∧ Loan.borrower l' = sender e ∧ Loan.repaid l' = false ∧
   ∃ _amount _purpose, c = RequestLoan _amount _purpose ∧
     Loan.amount l' = _amount).
Proof.
  intros HI H Hi.
  assert (Hkeep : ∀ l, loans s !! i = Some l' → l = l' →
    ∃ l, loans s !! i = Some l ∧ loan_advances l l' ∧
      (Loan.repaid l' = Loan.repaid l ∨
       (c = RepayLoan i ∧ Loan.borrower l = sender e ∧
        Loan.disbursed l = true ∧ Loan.repaid l' = true))).
  { intros l Hl _. exists l'. split; [done|].
    split; [apply loan_advances_refl|by left]. }
  assert (Hpresent : ∀ j, loans s !!! j ≠ Loan.zero →
                          loans s !! j = Some (loans s !!! j)).
  { intros j. apply lookup_total_present. }
  body_inv H; simpl in Hi; try (left; by apply (Hkeep l')).
  - apply lookup_insert_Some in Hi as [[<- <-]|[? Hi]];
      [|left; by apply (Hkeep l')].
    right. simpl. split.
    { destruct (loans s !! (loanCount s + 1)) eqn:E; [|done].
      apply (inv_loan_ids _ HI) in E. lia. }
    split_and!; try done. by do 2 eexists.
  - apply lookup_insert_Some in Hi as [[<- <-]|[? Hi]];
      [|left; by apply (Hkeep l')].
    left. exists (loans s !!! _loanId). split.
    { apply Hpresent. intros Hz. rewrite Hz in *. done. }
    split; [|by left].
    unfold loan_advances. simpl. split_and!; try done; intros; congruence.
  - apply lookup_insert_Some in Hi as [[<- <-]|[? Hi]];
      [|left; by apply (Hkeep l')].
    left. exists (loans s !!! _loanId). split.
    { apply Hpresent. intros Hz. rewrite Hz in *. done. }
    split; [|by left].
    unfold loan_advances. simpl. split_and!; try done; intros; congruence.
  - apply lookup_insert_Some in Hi as [[<- <-]|[? Hi]];
      [|left; by apply (Hkeep l')].
    left. exists (loans s !!! _loanId). split.
    { apply Hpresent. intros Hz. rewrite Hz in *. done. }
    split; [|right; by split_and!].
    unfold loan_advances. simpl. split_and!; try done; intros; congruence.
Qed.

Lemma is_request_dec c : is_request c ∨ ¬ is_request c.
Proof.
  destruct c; try (right; intros (? & ? & [=]); done).
  left. by do 2 eexists.
Qed.

Lemma body_loanbook_frame s e c s' :
  body s e c = Ok s' → ¬ is_request c →
  loanCount s' = loanCount s ∧ userLoans s' = userLoans s.
Proof.
  intros H Hr. body_inv H; simpl; try done.
  destruct Hr. by do 2 eexists.
Qed.

(** A flag that is set after a call other than requestLoan was set before,
    and the call was not the repayment by that address. *)
Lemma body_flag_back s e c s' a :
  body s e c = Ok s' → ¬ is_request c →
  MemberData.hasActiveLoan (members s' !!! a) = true →
  MemberData.hasActiveLoan (members s !!! a) = true ∧
  ¬ (∃ i, c = RepayLoan i ∧ a = sender e).
Proof.
  intros H Hr. body_inv H; simpl; try (intros Hf; split; [done|by intros (? & [=] & _)]).
  - destruct (decide (sender e = a)) as [<-|].
    + by rewrite lookup_total_insert_eq.
    + rewrite lookup_total_insert_ne by done.
      intros Hf; split; [done|by intros (? & [=] & _)].
  - destruct (decide (sender e = a)) as [<-|].
    + by rewrite lookup_total_insert_eq.
    + rewrite lookup_total_insert_ne by done.
      intros Hf; split; [done|by intros (? & [=] & _)].
  - destruct Hr. by do 2 eexists.
  - match goal with |- context [<[?b := _]> _ !!! a] =>
      destruct (decide (b = a)) as [<-|] end.
    + rewrite lookup_total_insert_eq. simpl.
      intros Hf; split; [done|by intros (? & [=] & _)].
    + rewrite lookup_total_insert_ne by done.
      intros Hf; split; [done|by intros (? & [=] & _)].
  - match goal with |- context [<[?b := _]> _ !!! a] =>
      destruct (decide (b = a)) as [<-|] end.
    + rewrite lookup_total_insert_eq. simpl.
      intros Hf; split; [done|by intros (? & [=] & _)].
    + rewrite lookup_total_insert_ne by done.
      intros Hf; split; [done|by intros (? & [=] & _)].
  - destruct (decide (sender e = a)) as [<-|].
    + rewrite lookup_total_insert_eq. by destruct (0 <? _).
    + rewrite lookup_total_insert_ne by done.
      intros Hf; split; [done|]. intros (? & _ & ->). done.
  - set (b := Loan.borrower (loans s !!! _loanId)).
    assert (Hb : MemberData.hasActiveLoan
        (<[b := MemberData.set_isActive false
                  (slash DEFAULT_PENALTY (members s !!! b))]> (members s) !!! a)
        = MemberData.hasActiveLoan (members s !!! a)).
    { destruct (decide (b = a)) as [<-|].
      - by rewrite lookup_total_insert_eq.
      - by rewrite lookup_total_insert_ne. }
    intros Hf. split; [|by intros (? & [=] & _)]. rewrite <- Hb.
    destruct (0 <? _); [|done].
    match type of Hf with context [penalizeMembers ?ms ?l ?d] =>
      destruct (penalizeMembers_fields l d a ms) as [sc Hsc] end.
    by rewrite Hsc in Hf.
  - destruct (decide (_user = a)) as [<-|].
    + rewrite lookup_total_insert_eq. simpl.
      intros Hf; split; [done|by intros (? & [=] & _)].
    + rewrite lookup_total_insert_ne by done.
      intros Hf; split; [done|by intros (? & [=] & _)].
Qed.

Lemma tier_cap trust amount :
  amount <= maxLoanOfScore trust →
  (rateOfScore trust = 6 ∧ amount <= 10 * ether) ∨
  (rateOfScore trust = 4 ∧ amount <= 50 * ether) ∨
  (rateOfScore trust = 2 ∧ amount <= 200 * ether).
Proof.
  unfold maxLoanOfScore, rateOfScore, ether.
  repeat (match goal with |- context [?a <? ?b] =>
            destruct (Z.ltb_spec a b) end); intros; lia.
Qed.

Lemma LoanInv_request s e amt p s' :
  Inv s → LoanInv s → 0 < sender e →
  requestLoan s e amt p = Ok s' → LoanInv s'.
Proof.
  intros HI HL Hsender H. unfold requestLoan in H. inv_ok H. injection H as <-.
  bool_to_prop.
  assert (Hfresh : loans s !! (loanCount s + 1) = None).
  { destruct (loans s !! (loanCount s + 1)) eqn:E; [|done].
    apply (inv_loan_ids _ HI) in E. lia. }
  assert (Hterms : ∃ trust, v5 = maxLoanOfScore trust ∧ v7 = rateOfScore trust).
  { unfold getMaxLoanAmount, getInterestRate in *.
    destruct (getTrustScore s (sender e)) as [t|]; [|done].
    simpl in *. exists t. split; congruence. }
  destruct Hterms as (trust & -> & ->).
  split; simpl.
  - intros i Hi. destruct (decide (i = loanCount s + 1)) as [->|].
    + rewrite lookup_insert_eq. by eauto.
    + rewrite lookup_insert_ne by done. apply (li_dense _ HL). lia.
  - intros i l [[<- <-]|[? Hi]]%lookup_insert_Some; [|by apply (li_wf _ HL)].
    simpl. split_and!; try done. unfold loan_terms_ok. simpl.
    split_and!; try done.
    destruct (tier_cap trust amt) as [[-> ?]|[[-> ?]|[-> ?]]]; auto.
  - intros a i. unfold getUserLoans. simpl.
    destruct (decide (sender e = a)) as [<-|Hne].
    + rewrite lookup_insert_eq. simpl. rewrite elem_of_app, list_elem_of_singleton.
      fold (getUserLoans s (sender e)). rewrite (li_user _ HL). split.
      * intros [(l & Hl & Hb)| ->].
        -- exists l. split; [|done]. rewrite lookup_insert_ne; [done|].
           intros <-. congruence.
        -- eexists. by rewrite lookup_insert_eq.
      * intros (l & [[<- <-]|[? Hl]]%lookup_insert_Some & Hb); [by right|].
        left. by exists l.
    + rewrite lookup_insert_ne by done. fold (getUserLoans s a).
      rewrite (li_user _ HL). split.
      * intros (l & Hl & Hb). exists l. split; [|done].
        rewrite lookup_insert_ne; [done|]. intros <-. congruence.
      * intros (l & [[<- <-]|[? Hl]]%lookup_insert_Some & Hb); [done|].
        by exists l.
  - intros a. unfold getUserLoans. simpl.
    destruct (decide (sender e = a)) as [<-|Hne].
    + rewrite lookup_insert_eq. simpl. apply NoDup_app. split_and!.
      * apply (li_user_nodup _ HL).
      * intros i Hi ->%list_elem_of_singleton.
        apply (li_user _ HL) in Hi as (l & Hl & _). congruence.
      * apply NoDup_singleton.
    + rewrite lookup_insert_ne by done. apply (li_user_nodup _ HL).
  - intros a. destruct (decide (sender e = a)) as [<-|Hne].
    + intros _. exists (loanCount s + 1). eexists.
      rewrite lookup_insert_eq. by split_and!.
    + rewrite lookup_total_insert_ne by done. intros Hf.
      destruct (li_flag _ HL a Hf) as (i & l & Hl & Hb & Hr).
      exists i, l. split; [|done]. rewrite lookup_insert_ne; [done|].
      intros <-. congruence.
Qed.

Lemma LoanInv_body s e c s' :
  Inv s → LoanInv s → wf_env e → body s e c = Ok s' → LoanInv s'.
Proof.
  intros HI HL He H.
  destruct (is_request_dec c) as [(amt & p & ->)|Hr].
  { eapply LoanInv_request; [done|done| |exact H]. by destruct He as [[? _] _]. }
  destruct (body_loanbook_frame _ _ _ _ H Hr) as [Hcount Huser].
  assert (Hback : ∀ i l', loans s' !! i = Some l' →
    ∃ l, loans s !! i = Some l ∧ loan_advances l l' ∧
      (Loan.repaid l' = Loan.repaid l ∨
       (c = RepayLoan i ∧ Loan.borrower l = sender e ∧
        Loan.disbursed l = true ∧ Loan.repaid l' = true))).
  { intros i l' Hi.
    destruct (body_loans_back _ _ _ _ _ _ HI H Hi)
      as [Hold|(_ & _ & _ & _ & _ & amt & p & -> & _)]; [done|].
    destruct Hr. by do 2 eexists. }
  split.
  - intros i Hi. rewrite Hcount in Hi.
    destruct (li_dense _ HL i Hi) as [l Hl].
    destruct (body_loan_advances _ _ _ _ _ _ HI H Hl) as (l' & -> & _). by eauto.
  - intros i l' Hi. destruct (Hback i l' Hi) as (l & Hl & Hadv & Hrep).
    destruct (li_wf _ HL _ _ Hl) as (Hid & Hb & Hterms & Hrd).
    destruct Hadv as ((?&?&?&?&?&?&?) & _ & Hd & _).
    split_and!; try congruence.
    + unfold loan_terms_ok in *. by replace (Loan.amount l') with (Loan.amount l);
        replace (Loan.interestAmount l') with (Loan.interestAmount l);
        replace (Loan.totalRepayment l') with (Loan.totalRepayment l).
    + intros Hr'. destruct Hrep as [Heq|(_ & _ & Hdl & _)].
      * apply Hd, Hrd. congruence.
      * by apply Hd.
  - intros a i. unfold getUserLoans. rewrite Huser.
    fold (getUserLoans s a). rewrite (li_user _ HL). split.
    + intros (l & Hl & Hb).
      destruct (body_loan_advances _ _ _ _ _ _ HI H Hl)
        as (l' & Hl' & (_ & ? & _) & _).
      exists l'. split; [done|congruence].
    + intros (l' & Hl' & Hb). destruct (Hback i l' Hl') as (l & Hl & Hadv & _).
      destruct Hadv as ((_ & ? & _) & _). exists l. split; [done|congruence].
  - intros a. unfold getUserLoans. rewrite Huser. apply (li_user_nodup _ HL).
  - intros a Hf. destruct (body_flag_back _ _ _ _ a H Hr Hf) as [Hf0 Hnorepay].
    destruct (li_flag _ HL a Hf0) as (i & l & Hl & Hb & Hrl).
    destruct (body_loan_advances _ _ _ _ _ _ HI H Hl) as (l' & Hl' & _).
    destruct (Hback i l' Hl') as (l0 & Hl0 & ((_ & Hb0 & _) & _) & Hrep).
    assert (l0 = l) as -> by congruence.
    exists i, l'. split; [done|]. split; [congruence|].
    destruct Hrep as [Heq|(-> & Hbs & _)]; [congruence|].
    destruct Hnorepay. exists i. split; [done|congruence].
Qed.

Lemma reachable_LoanInv s : reachable s → LoanInv s.
Proof.
  apply reachable_invariant.
  - intros d _. split; simpl; unfold getUserLoans; simpl; intros;
      try (by rewrite lookup_empty in * ); try lia.
    + rewrite lookup_empty. simpl. split; [by intros ?%elem_of_nil|].
      intros (l & Hl & _). by rewrite lookup_empty in Hl.
    + rewrite lookup_empty. apply NoDup_nil_2.
    + by rewrite lookup_total_empty in *.
  - intros s0 v []. by split.
  - intros s0 e c s' HI HL He _ H. by eapply LoanInv_body.
Qed.

(** X7: the loans are numbered 1 to loanCount without gaps; each stores its
    own id and a borrower that is not the zero address, and a repaid loan is a
    disbursed one. Any other id reads as the empty loan. *)
Theorem loans_are_numbered s i :
  reachable s →
  (1 <= i <= loanCount s ↔ is_Some (loans s !! i)) ∧
  (1 <= i <= loanCount s →
   Loan.id (loans s !!! i) = i ∧ 0 < Loan.borrower (loans s !!! i) ∧
   (Loan.repaid (loans s !!! i) = true → Loan.disbursed (loans s !!! i) = true)) ∧
  (¬ (1 <= i <= loanCount s) → loans s !!! i = Loan.zero).
Proof.
  intros Hs. pose proof (reachable_Inv s Hs) as HI.
  pose proof (reachable_LoanInv s Hs) as HL.
  split; [split|split].
  - apply (li_dense _ HL).
  - intros [l Hl]. by apply (inv_loan_ids _ HI) in Hl.
  - intros Hi. destruct (li_dense _ HL i Hi) as [l Hl].
    rewrite (lookup_total_Some _ _ _ Hl).
    by destruct (li_wf _ HL _ _ Hl) as (? & ? & _ & ?).
  - intros Hi. rewrite lookup_total_alt.
    destruct (loans s !! i) as [l|] eqn:Hl; [|done].
    destruct Hi. by apply (inv_loan_ids _ HI) in Hl.
Qed.

(* the one loan of the scenario *)
Lemma loans_are_numbered_witness :
  Loan.id (loans loanDefaulted !!! 1) = 1 ∧
  Loan.borrower (loans loanDefaulted !!! 1) = alice ∧
  loans loanDefaulted !!! 2 = Loan.zero.
Proof.
  destruct (loans_are_numbered loanDefaulted 1 reachable_loanDefaulted)
    as (_ & Hin & _).
  destruct Hin as (Hid & _ & _); [by_computation|].
  split; [exact Hid|]. split; [by_computation|].
  destruct (loans_are_numbered loanDefaulted 2 reachable_loanDefaulted)
    as (_ & _ & Hout).
  apply Hout.
  assert (Hcount : loanCount loanDefaulted = 1) by by_computation.
  rewrite Hcount. lia.
Defined.

(** X8: every loan has a positive principal within the cap of the tier whose
    rate it was charged (10 ether at 6 percent, 50 ether at 4 percent, 200
    ether at 2 percent), its interest is principal * rate / 100 rounded down
    and its total repayment is principal plus interest. *)
Theorem loans_have_tier_terms s i l :
  reachable s → loans s !! i = Some l → loan_terms_ok l.
Proof.
  intros HL%reachable_LoanInv Hl. by destruct (li_wf _ HL _ _ Hl) as (_ & _ & ? & _).
Qed.

Lemma loans_have_tier_terms_witness :
  loan_terms_ok (loans loanDefaulted !!! 1) ∧
  Loan.totalRepayment (loans loanDefaulted !!! 1) = 10600000000000000000.
Proof.
  assert (Hl : loans loanDefaulted !! 1 = Some (loans loanDefaulted !!! 1))
    by by_computation.
  split; [|by_computation].
  exact (loans_have_tier_terms loanDefaulted 1 _ reachable_loanDefaulted Hl).
Defined.

(** X9: getUserLoans lists, without repetition, exactly the ids of the loans
    whose borrower is the given address. *)
Theorem getUserLoans_lists_own_loans s a :
  reachable s →
  NoDup (getUserLoans s a) ∧
  ∀ i, i ∈ getUserLoans s a ↔
       1 <= i <= loanCount s ∧ Loan.borrower (loans s !!! i) = a.
Proof.
  intros Hs. pose proof (reachable_Inv s Hs) as HI.
  pose proof (reachable_LoanInv s Hs) as HL.
  split; [apply (li_user_nodup _ HL)|].
  intros i. rewrite (li_user _ HL). split.
  - intros (l & Hl & Hb). rewrite (lookup_total_Some _ _ _ Hl).
    split; [by apply (inv_loan_ids _ HI) in Hl|done].
  - intros [Hi Hb]. destruct (li_dense _ HL i Hi) as [l Hl].
    rewrite (lookup_total_Some _ _ _ Hl) in Hb. by exists l.
Qed.

Lemma getUserLoans_lists_own_loans_witness :
  getUserLoans loanDefaulted alice = [1] ∧ NoDup (getUserLoans loanDefaulted alice).
Proof.
  split; [by_computation|].
  destruct (getUserLoans_lists_own_loans loanDefaulted alice
              reachable_loanDefaulted) as [Hnodup _].
  exact Hnodup.
Defined.

(** X10: the hasActiveLoan flag of an address is set exactly while it has an
    unrepaid loan. *)
Theorem hasActiveLoan_iff_open_loan s a :
  reachable s →
  (MemberData.hasActiveLoan (members s !!! a) = true ↔
   ∃ i l, loans s !! i = Some l ∧ Loan.borrower l = a ∧ Loan.repaid l = false).
Proof.
  intros Hs. pose proof (reachable_Inv s Hs) as HI.
  pose proof (reachable_LoanInv s Hs) as HL. split.
  - apply (li_flag _ HL).
  - intros (i & l & Hl & <- & Hr). by eapply (inv_open _ HI).
Qed.

Lemma hasActiveLoan_iff_open_loan_witness :
  MemberData.hasActiveLoan (members loanDefaulted !!! alice) = true ∧
  MemberData.hasActiveLoan (members loanDefaulted !!! bob) = false.
Proof.
  destruct (hasActiveLoan_iff_open_loan loanDefaulted alice
              reachable_loanDefaulted) as [_ Hflag].
  split; [|by_computation].
  apply Hflag. exists 1, (loans loanDefaulted !!! 1).
  split; [by_computation|]. split; by_computation.
Defined.

(** ** The circles *)

(** X11: the circles are numbered 1 to circleCount without gaps, and these
    are exactly the ids circleExists holds; each circle stores its own id and
    has between 1 and 10 members, all different. Any other id reads as the
    empty circle, and joinCircle to it is rejected. *)
Theorem circles_are_numbered s i :
  reachable s →
  (1 <= i <= circleCount s ↔ default false (circleExists s !! i) = true) ∧
  (1 <= i <= circleCount s →
   Circle.id (circles s !!! i) = i ∧
   1 <= len (Circle.members (circles s !!! i)) <= 10 ∧
   NoDup (Circle.members (circles s !!! i))) ∧
  (¬ (1 <= i <= circleCount s) →
   circles s !!! i = Circle.zero ∧
   ∀ e, is_ok (call s e (JoinCircle i)) = false).
Proof.
  intros Hs. pose proof (reachable_Inv s Hs) as HI.
  pose proof (reachable_CircleInv s Hs) as HC.
  assert (Hex : default false (circleExists s !! i) = true → 1 <= i <= circleCount s).
  { destruct (circleExists s !! i) as [[]|] eqn:E; try done. intros _.
    destruct (inv_exists _ HI _ E) as [c Hc]. by apply (inv_circle_ids _ HI) in Hc. }
  split; [split|split].
  - intros Hi. by destruct (ci_dense _ HC i Hi) as [_ ->].
  - exact Hex.
  - intros Hi. destruct (ci_dense _ HC i Hi) as [[c Hc] _].
    rewrite (lookup_total_Some _ _ _ Hc).
    destruct (ci_wf _ HC _ _ Hc) as [Hid Hlen].
    pose proof (inv_size _ HI _ _ Hc). pose proof (inv_nodup _ HI _ _ Hc).
    split_and!; done.
  - intros Hi. split.
    + rewrite lookup_total_alt.
      destruct (circles s !! i) as [c|] eqn:Hc; [|done].
      destruct Hi. by apply (inv_circle_ids _ HI) in Hc.
    + intros e. destruct (call s e (JoinCircle i)) as [s'|] eqn:Hcall; [|done].
      apply call_Ok in Hcall as [_ H]. simpl in H. unfold joinCircle in H.
      inv_ok H. simpl in *. destruct Hi. by apply Hex.
Qed.

Lemma circles_are_numbered_witness :
  Circle.id (circles circleOfThree !!! 1) = 1 ∧
  len (Circle.members (circles circleOfThree !!! 1)) = 3 ∧
  circles circleOfThree !!! 2 = Circle.zero.
Proof.
  assert (Hcount : circleCount circleOfThree = 1) by by_computation.
  destruct (circles_are_numbered circleOfThree 1 reachable_circleOfThree)
    as (_ & Hin & _).
  destruct Hin as (Hid & _ & _); [rewrite Hcount; lia|].
  split; [exact Hid|]. split; [by_computation|].
  destruct (circles_are_numbered circleOfThree 2 reachable_circleOfThree)
    as (_ & _ & Hout).
  destruct Hout as [Hzero _]; [rewrite Hcount; lia|]. exact Hzero.
Defined.

(** X12: an address is a member of the circle its circleId names and of no
    other: for every id other than 0, circleId = id exactly when the address
    is in the member list of that circle. *)
Theorem member_of_own_circle_only s a i :
  reachable s → i ≠ 0 →
  (MemberData.circleId (members s !!! a) = i ↔
   a ∈ Circle.members (circles s !!! i)).
Proof.
  intros Hs Hi. pose proof (reachable_Inv s Hs) as HI.
  pose proof (reachable_CircleInv s Hs) as HC. split.
  - intros <-. by apply (ci_member _ HC).
  - intros Hin. rewrite lookup_total_alt in Hin.
    destruct (circles s !! i) as [c|] eqn:Hc; simpl in Hin;
      [|by apply elem_of_nil in Hin].
    by eapply (inv_member_of _ HI).
Qed.

Lemma member_of_own_circle_only_witness :
  MemberData.circleId (members circleOfThree !!! carol) = 1 ∧
  carol ∈ Circle.members (circles circleOfThree !!! 1).
Proof.
  assert (Hc : MemberData.circleId (members circleOfThree !!! carol) = 1)
    by by_computation.
  split; [exact Hc|].
  assert (Hne : (1 : Z) ≠ 0) by lia.
  destruct (member_of_own_circle_only circleOfThree carol 1
              reachable_circleOfThree Hne) as [Hin _].
  exact (Hin Hc).
Defined.

(** X13: the totalStake of a circle is the sum of the trust bonds of its
    members, and every member's bond is at least the minimum stake. *)
Theorem totalStake_is_sum_of_bonds s i :
  reachable s →
  Circle.totalStake (circles s !!! i)
    = bondSum (members s) (Circle.members (circles s !!! i)) ∧
  ∀ a, a ∈ Circle.members (circles s !!! i) →
       MIN_STAKE <= MemberData.trustBond (members s !!! a).
Proof.
  intros Hs. pose proof (reachable_Inv s Hs) as HI.
  pose proof (reachable_CircleInv s Hs) as HC.
  rewrite lookup_total_alt.
  destruct (circles s !! i) as [c|] eqn:Hc; simpl.
  - split; [by apply (ci_stake _ HC _ _ Hc)|].
    intros a Ha. apply (ci_bond _ HC).
    rewrite (inv_member_of _ HI _ _ _ Hc Ha).
    apply (inv_circle_ids _ HI) in Hc. lia.
  - split; [done|]. by intros a ?%elem_of_nil.
Qed.

Lemma totalStake_is_sum_of_bonds_witness :
  Circle.totalStake (circles loanDefaulted !!! 1) = 15 * ether ∧
  bondSum (members loanDefaulted) [alice; bob; carol] = 15 * ether.
Proof.
  destruct (totalStake_is_sum_of_bonds loanDefaulted 1 reachable_loanDefaulted)
    as [Hsum _].
  assert (Hm : Circle.members (circles loanDefaulted !!! 1) = [alice; bob; carol])
    by by_computation.
  rewrite Hm in Hsum. split; [by_computation|].
  rewrite <- Hsum. by_computation.
Defined.

(** ** The views of the scores *)

Lemma sumScores_between s l lo hi : ∀ acc,
  (∀ a, a ∈ l → lo <= effectiveScore s a <= hi) →
  0 <= acc → acc + hi * len l <= MAX_UINT256 →
  ∃ total, sumScores (members s) l acc = Ok total ∧
           acc + lo * len l <= total <= acc + hi * len l.
Proof.
  induction l as [|a l IH]; intros acc Hl Hacc Hmax; simpl.
  - exists acc. unfold len in *. simpl in *. split; [done|lia].
  - change (a :: l) with ([a] ++ l) in Hmax |- *. rewrite len_app in *.
    change (len [a]) with 1 in *. pose proof (len_nonneg l).
    pose proof (Hl a (list_elem_of_here _ _)) as Ha.
    unfold effectiveScore, score in Ha.
    set (sc := if 0 <? MemberData.individualScore (members s !!! a)
               then MemberData.individualScore (members s !!! a)
               else STARTING_SCORE) in *.
    assert (0 < sc).
    { subst sc. unfold STARTING_SCORE.
      destruct (Z.ltb_spec 0 (MemberData.individualScore (members s !!! a))); lia. }
    assert (acc + sc <= MAX_UINT256) by nia.
    rewrite add_no_overflow by done. simpl.
    destruct (IH (acc + sc)) as (total & -> & Ht); [|lia|nia|].
    { intros b Hb. apply Hl. by apply list_elem_of_further. }
    exists total. split; [done|nia].
Qed.

Lemma effectiveScore_range s a :
  Inv s → 1 <= effectiveScore s a <= 100.
Proof.
  intros HI. pose proof (Inv_score_total s a HI) as Hsc.
  unfold effectiveScore, score, MAX_SCORE, STARTING_SCORE in *.
  destruct (Z.ltb_spec 0 (MemberData.individualScore (members s !!! a))); lia.
Qed.

Lemma getCircleAverageScore_between s i lo hi :
  Inv s → 1 <= len (Circle.members (circles s !!! i)) →
  (∀ a, a ∈ Circle.members (circles s !!! i) → lo <= effectiveScore s a <= hi) →
  ∃ avg, getCircleAverageScore s i = Ok avg ∧ lo <= avg <= hi.
Proof.
  intros HI Hlen Hl. unfold getCircleAverageScore.
  pose proof (Inv_circle_size s i HI) as Hsize.
  set (l := Circle.members (circles s !!! i)) in *.
  destruct (Z.eqb_spec (len l) 0); [lia|].
  assert (Hl' : ∀ a, a ∈ l →
    Z.max lo 1 <= effectiveScore s a <= Z.min hi 100).
  { intros a Ha. pose proof (Hl a Ha). pose proof (effectiveScore_range s a HI). lia. }
  pose proof MAX_UINT256_large.
  destruct (sumScores_between s l (Z.max lo 1) (Z.min hi 100) 0 Hl')
    as (total & -> & Ht); [lia|nia|].
  simpl. unfold div. destruct (Z.eqb_spec (len l) 0); [lia|].
  eexists. split; [done|]. split.
  - apply Z.div_le_lower_bound; nia.
  - apply Z.div_le_upper_bound; nia.
Qed.

(** X14: on a reachable state getCircleAverageScore never fails. It answers
    50 for a circle without members, and otherwise a value between the
    smallest and the largest effective score of the members (a stored 0
    counting as 50), hence between 1 and 100. *)
Theorem getCircleAverageScore_bounds s i :
  reachable s →
  ∃ avg, getCircleAverageScore s i = Ok avg ∧ 1 <= avg <= 100 ∧
    (Circle.members (circles s !!! i) = [] → avg = 50) ∧
    (∀ lo hi, Circle.members (circles s !!! i) ≠ [] →
       (∀ a, a ∈ Circle.members (circles s !!! i) →
             lo <= effectiveScore s a <= hi) →
       lo <= avg <= hi).
Proof.
  intros HI%reachable_Inv.
  destruct (getCircleAverageScore_total s i HI) as (avg & Havg & Hrange).
  exists avg. split; [done|]. split; [done|]. split.
  - intros Hnil. unfold getCircleAverageScore in Havg. rewrite Hnil in Havg.
    simpl in Havg. by injection Havg as <-.
  - intros lo hi Hne Hl.
    destruct (getCircleAverageScore_between s i lo hi HI) as (avg' & Havg' & Hb);
      [|done|congruence].
    destruct (Circle.members (circles s !!! i)); [done|].
    unfold len. simpl. lia.
Qed.

(* after the default: alice 0 (counted as 50), bob 30, carol 30 *)
Lemma getCircleAverageScore_bounds_witness :
  getCircleAverageScore loanDefaulted 1 = Ok 36 ∧
  getCircleAverageScore loanDefaulted 7 = Ok 50.
Proof.
  destruct (getCircleAverageScore_bounds loanDefaulted 7 reachable_loanDefaulted)
    as (avg & Havg & _ & Hnil & _).
  split; [by_computation|]. rewrite Havg, Hnil; [done|by_computation].
Defined.

(** X15: for a member of an active circle, getTrustScore is the 60/40 blend
    (effective individual score * 60 + circle average * 40) / 100, rounded
    down; it lies between the two scores it blends. *)
Theorem getTrustScore_blend s u :
  reachable s →
  MemberData.circleId (members s !!! u) ≠ 0 →
  Circle.isActive (circles s !!! MemberData.circleId (members s !!! u)) = true →
  ∃ avg trust,
    getCircleAverageScore s (MemberData.circleId (members s !!! u)) = Ok avg ∧
    getTrustScore s u = Ok trust ∧
    trust = (effectiveScore s u * 60 + avg * 40) / 100 ∧
    Z.min (effectiveScore s u) avg <= trust <= Z.max (effectiveScore s u) avg.
Proof.
  intros HI%reachable_Inv Hc Hact.
  destruct (getCircleAverageScore_total s
              (MemberData.circleId (members s !!! u)) HI)
    as (avg & Havg & Hrange).
  pose proof (effectiveScore_range s u HI) as Heff.
  exists avg, ((effectiveScore s u * 60 + avg * 40) / 100).
  split; [done|]. split; [|split; [done|]].
  - unfold getTrustScore. fold (score s u). fold (effectiveScore s u).
    destruct (Z.eqb_spec (MemberData.circleId (members s !!! u)) 0); [done|].
    rewrite Hact, Havg. simpl. pose proof MAX_UINT256_large.
    unfold mul, INDIVIDUAL_WEIGHT, CIRCLE_WEIGHT.
    destruct (Z.leb_spec (effectiveScore s u * 60) MAX_UINT256); [|lia]. simpl.
    destruct (Z.leb_spec (avg * 40) MAX_UINT256); [|lia]. simpl.
    by rewrite add_no_overflow by lia.
  - split.
    + apply Z.div_le_lower_bound; lia.
    + apply Z.div_le_upper_bound; lia.
Qed.

(* bob after the default: own score 30, circle average 36 *)
Lemma getTrustScore_blend_witness :
  getTrustScore loanDefaulted bob = Ok 32 ∧
  effectiveScore loanDefaulted bob = 30.
Proof.
  assert (Hc : MemberData.circleId (members loanDefaulted !!! bob) ≠ 0)
    by by_computation.
  assert (Hact : Circle.isActive
    (circles loanDefaulted !!! MemberData.circleId (members loanDefaulted !!! bob))
    = true) by by_computation.
  destruct (getTrustScore_blend loanDefaulted bob reachable_loanDefaulted Hc Hact)
    as (avg & trust & _ & Htrust & _).
  split; [|by_computation]. rewrite Htrust.
  assert (Hv : getTrustScore loanDefaulted bob = Ok 32) by by_computation.
  congruence.
Defined.

(** X16: on a reachable state getUserStats never fails, and what it reports
    agrees with the single getters: its trust score is getTrustScore, its
    limit and rate are getMaxLoanAmount and getInterestRate, its individual
    score is the stored score with 0 shown as 50, and the remaining fields
    are the stored member record. *)
Theorem getUserStats_agrees s u :
  reachable s →
  ∃ stats,
    getUserStats s u = Ok stats ∧
    getTrustScore s u = Ok (UserStats.finalTrustScore stats) ∧
    getMaxLoanAmount s u = Ok (UserStats.maxLoanAmount stats) ∧
    getInterestRate s u = Ok (UserStats.interestRate stats) ∧
    UserStats.individualScore stats = effectiveScore s u ∧
    UserStats.circleId stats = MemberData.circleId (members s !!! u) ∧
    UserStats.totalBorrowed stats = MemberData.totalBorrowed (members s !!! u) ∧
    UserStats.totalRepaid stats = MemberData.totalRepaid (members s !!! u) ∧
    UserStats.loansCompleted stats = MemberData.loansCompleted (members s !!! u) ∧
    UserStats.hasActiveLoan stats = MemberData.hasActiveLoan (members s !!! u) ∧
    UserStats.isActive stats = MemberData.isActive (members s !!! u).
Proof.
  intros HI%reachable_Inv.
  destruct (getTrustScore_total s u HI) as (trust & Htrust & _).
  unfold getUserStats, getMaxLoanAmount, getInterestRate. rewrite Htrust. simpl.
  eexists. split; [done|]. simpl. split_and!; done.
Qed.

(* alice after her default: stored score 0 shown as 50, trust score 44 *)
Lemma getUserStats_agrees_witness :
  ∃ stats, getUserStats loanDefaulted alice = Ok stats ∧
           UserStats.individualScore stats = 50 ∧
           UserStats.finalTrustScore stats = 44 ∧
           UserStats.maxLoanAmount stats = 10 * ether ∧
           UserStats.isActive stats = false.
Proof.
  destruct (getUserStats_agrees loanDefaulted alice reachable_loanDefaulted)
    as (stats & Hstats & _).
  exists stats. split; [exact Hstats|].
  vm_compute in Hstats. injection Hstats as <-. by_computation.
Defined.

Lemma collectScores_sumScores s l : ∀ acc1 acc2,
  (∀ a, 0 <= score s a <= MAX_SCORE) →
  0 <= acc1 <= acc2 → acc2 + 100 * len l <= MAX_UINT256 →
  ∃ raw total,
    collectScores (members s) l acc1 = Ok (map (score s) l, raw) ∧
    sumScores (members s) l acc2 = Ok total ∧
    0 <= raw - acc1 <= total - acc2 ∧
    ((∀ a, a ∈ l → 0 < score s a) → raw - acc1 = total - acc2).
Proof.
  induction l as [|a l IH]; intros acc1 acc2 Hs Hacc Hmax; simpl.
  - exists acc1, acc2. split_and!; try done; lia.
  - change (a :: l) with ([a] ++ l) in Hmax. rewrite len_app in Hmax.
    change (len [a]) with 1 in Hmax. pose proof (len_nonneg l).
    pose proof (Hs a) as Ha. unfold score, MAX_SCORE in Ha.
    fold (score s a) in *.
    set (eff := if 0 <? score s a then score s a else STARTING_SCORE).
    assert (Heff : score s a <= eff <= 100 ∧ (0 < score s a → eff = score s a)).
    { subst eff. unfold STARTING_SCORE. destruct (Z.ltb_spec 0 (score s a)); lia. }
    rewrite (add_no_overflow acc1) by lia.
    rewrite (add_no_overflow acc2) by lia. simpl.
    destruct (IH (acc1 + score s a) (acc2 + eff) Hs) as (raw & total & -> & -> & Hle & Heq);
      [lia|lia|].
    simpl. exists raw, total. split_and!; try done; try lia.
    intros Hpos.
    assert (raw - (acc1 + score s a) = total - (acc2 + eff)) as Hrec.
    { apply Heq. intros b Hb. apply Hpos. by apply list_elem_of_further. }
    destruct Heff as [_ Heff].
    specialize (Heff (Hpos a (list_elem_of_here _ _))). lia.
Qed.

Lemma collectScores_sum ms l : ∀ acc scores raw,
  collectScores ms l acc = Ok (scores, raw) → raw = acc + sumList scores.
Proof.
  induction l as [|a l IH]; intros acc scores raw H; simpl in H.
  - injection H as <- <-. simpl. lia.
  - unfold add in H.
    destruct (_ <=? MAX_UINT256); simpl in H; [|done].
    destruct (collectScores ms l _) as [[scores' raw']|] eqn:E; simpl in H;
      [|done].
    injection H as <- <-. apply IH in E. simpl. lia.
Qed.

(** X17: on a reachable state getCircleMembersScores never fails; it returns
    the member list, the stored scores in the same order, and their plain
    average: the sum of the stored scores divided by the number of members,
    rounded down (0 for no members). This average never exceeds the one
    getCircleAverageScore and getCircleDetails report, which count a stored 0
    as 50, and equals it when the circle has members and every stored score
    is positive. *)
Theorem getCircleMembersScores_vs_average s i :
  reachable s →
  ∃ rawAverage average details,
    getCircleMembersScores s i
      = Ok (Circle.members (circles s !!! i),
            map (score s) (Circle.members (circles s !!! i)), rawAverage) ∧
    getCircleAverageScore s i = Ok average ∧
    getCircleDetails s i = Ok details ∧
    CircleDetails.averageScore details = average ∧
    CircleDetails.memberCount details
      = len (CircleDetails.memberList details) ∧
    (Circle.members (circles s !!! i) ≠ [] →
     rawAverage
       = sumList (map (score s) (Circle.members (circles s !!! i)))
         / len (Circle.members (circles s !!! i))) ∧
    0 <= rawAverage <= average ∧
    (Circle.members (circles s !!! i) = [] → rawAverage = 0 ∧ average = 50) ∧
    (Circle.members (circles s !!! i) ≠ [] →
     (∀ a, a ∈ Circle.members (circles s !!! i) → 0 < score s a) →
     rawAverage = average).
Proof.
  intros HI%reachable_Inv.
  pose proof (Inv_circle_size s i HI) as Hsize.
  unfold getCircleMembersScores, getCircleDetails, getCircleAverageScore.
  set (l := Circle.members (circles s !!! i)) in *.
  pose proof (len_nonneg l) as Hnn. pose proof MAX_UINT256_large.
  destruct (collectScores_sumScores s l 0 0)
    as (raw & total & Hcol & Hsum & Hle & Heq);
    [intros a; by apply Inv_score_total|lia|lia|].
  pose proof (collectScores_sum _ _ _ _ _ Hcol) as Hraw.
  rewrite Hcol. simpl. rewrite Hsum. simpl.
  destruct (Z.eqb_spec (len l) 0) as [Hz|Hnz].
  - assert (l = []) as Hnil.
    { destruct l; [done|]. unfold len in Hz. simpl in Hz. lia. }
    destruct (Z.ltb_spec 0 (len l)); [lia|]. simpl.
    do 3 eexists. split_and!; try done; unfold STARTING_SCORE; try lia.
  - destruct (Z.ltb_spec 0 (len l)); [|lia]. unfold div.
    destruct (Z.eqb_spec (len l) 0); [lia|]. simpl.
    do 3 eexists. split_and!; try done.
    + intros _. f_equal. lia.
    + apply Z.div_pos; lia.
    + apply Z.div_le_mono; lia.
    + intros Hnil. rewrite Hnil in Hnz. done.
    + intros _ Hpos. f_equal. specialize (Heq Hpos). lia.
Qed.

(* after the default the stored scores are 0, 30, 30: plain average 20,
   reported average 36 *)
Lemma getCircleMembersScores_vs_average_witness :
  getCircleMembersScores loanDefaulted 1 = Ok ([alice; bob; carol], [0; 30; 30], 20) ∧
  sumList [0; 30; 30] / 3 = 20 ∧
  getCircleAverageScore loanDefaulted 1 = Ok 36.
Proof.
  destruct (getCircleMembersScores_vs_average loanDefaulted 1
              reachable_loanDefaulted) as (raw & avg & details & Hraw & Havg & _).
  split; [|by_computation].
  rewrite Hraw. vm_compute in Hraw. injection Hraw as <-. by_computation.
Defined.

(** ** The life of a loan *)

(** X18: a successful repayLoan marks the loan repaid at the current time
    and leaves its other fields alone; it adds the total repayment to the
    borrower's totalRepaid and to the contract balance, counts one more
    completed loan and clears hasActiveLoan. It does not touch the borrower's
    frozen flag, circle, bond or totalBorrowed, nor any other loan or
    member. *)
Theorem repayLoan_settles s e _loanId s' :
  call s e (RepayLoan _loanId) = Ok s' →
  let loan := loans s !!! _loanId in
  let m := members s !!! sender e in
  let m' := members s' !!! sender e in
  loans s' !!! _loanId = Loan.repay (timestamp e) loan ∧
  MemberData.totalRepaid m' = MemberData.totalRepaid m + Loan.totalRepayment loan ∧
  MemberData.loansCompleted m' = MemberData.loansCompleted m + 1 ∧
  MemberData.hasActiveLoan m' = false ∧
  (MemberData.isActive m' = MemberData.isActive m ∧
   MemberData.circleId m' = MemberData.circleId m ∧
   MemberData.trustBond m' = MemberData.trustBond m ∧
   MemberData.totalBorrowed m' = MemberData.totalBorrowed m) ∧
  balance s' = balance s + Loan.totalRepayment loan ∧
  (∀ j, j ≠ _loanId → loans s' !! j = loans s !! j) ∧
  (∀ a, a ≠ sender e → members s' !! a = members s !! a) ∧
  circles s' = circles s.
Proof.
  intros [_ H]%call_Ok. simpl in H.
  apply repayLoan_Ok in H. cbv zeta in H.
  destruct H as ((_ & _ & _ & Hv) & bonus & _ & ->). simpl in *.
  rewrite !lookup_total_insert_eq.
  split; [done|]. split; [by destruct (0 <? bonus)|].
  split; [by destruct (0 <? bonus)|]. split; [by destruct (0 <? bonus)|].
  split; [by destruct (0 <? bonus)|]. split; [lia|].
  split; [intros j Hj; by rewrite lookup_insert_ne|].
  split; [intros a Ha; by rewrite lookup_insert_ne|done].
Qed.

(* alice repays 10.6 ether *)
Lemma repayLoan_settles_witness :
  ∃ s', call loanDisbursed earlyEnv (RepayLoan 1) = Ok s' ∧
        MemberData.hasActiveLoan (members s' !!! alice) = false ∧
        balance s' = 5 * ether + 10600000000000000000.
Proof.
  destruct (call loanDisbursed earlyEnv (RepayLoan 1)) as [s'|] eqn:Hcall;
    [|vm_compute in Hcall; discriminate].
  exists s'. split; [done|].
  destruct (repayLoan_settles _ _ _ _ Hcall) as (_ & _ & _ & Hflag & _ & Hbal & _).
  split; [exact Hflag|]. rewrite Hbal. by_computation.
Defined.

Lemma present_of_flag (m : gmap Z Loan.t) i :
  Loan.approved (m !!! i) = true ∨ Loan.disbursed (m !!! i) = true ∨
  Loan.repaid (m !!! i) = true →
  m !! i = Some (m !!! i).
Proof.
  intros Hf. apply lookup_total_present. intros Hz. rewrite Hz in Hf.
  by destruct Hf as [?|[?|?]].
Qed.

(** X19: each step of a loan happens once. After any sequence of
    transactions a loan that was approved cannot be approved or disbursed
    again, and a loan that was repaid stays repaid, cannot be repaid or
    penalized again and is not overdue. *)
Theorem loan_steps_happen_once s i txs e :
  reachable s →
  let s' := run s txs in
  (Loan.approved (loans s !!! i) = true →
   Loan.approved (loans s' !!! i) = true ∧
   Loan.dueDate (loans s' !!! i) = Loan.dueDate (loans s !!! i) ∧
   is_ok (call s' e (ApproveLoan i)) = false ∧
   is_ok (call s' e (DisburseLoan i)) = false) ∧
  (Loan.repaid (loans s !!! i) = true →
   Loan.repaid (loans s' !!! i) = true ∧
   is_ok (call s' e (RepayLoan i)) = false ∧
   is_ok (call s' e (PenalizeDefault i)) = false ∧
   isLoanOverdue s' e i = false).
Proof.
  intros HI%reachable_Inv. simpl. split.
  - intros Ha. assert (Hl : loans s !! i = Some (loans s !!! i))
      by (apply present_of_flag; by left).
    pose proof (inv_approved _ HI _ _ Hl) as Had.
    destruct (run_loan_advances txs s i _ HI Hl) as (l' & Hl' & _ & Ha' & Hd' & _).
    rewrite (lookup_total_Some _ _ _ Hl').
    destruct Hd' as (Hd & _ & _ & Hdue); [congruence|].
    split; [by apply Ha'|]. split; [done|]. split.
    + destruct (call (run s txs) e (ApproveLoan i)) as [s2|] eqn:Hcall; [|done].
      apply call_Ok in Hcall as [_ H]. simpl in H.
      apply approveLoan_Ok in H as [(_ & _ & Hna & _) _]. simpl in Hna.
      rewrite (lookup_total_Some _ _ _ Hl') in Hna. rewrite Ha' in Hna; done.
    + destruct (call (run s txs) e (DisburseLoan i)) as [s2|] eqn:Hcall; [|done].
      apply call_Ok in Hcall as [_ H]. simpl in H.
      apply disburseLoan_Ok in H as [(_ & _ & Hnd & _) _]. simpl in Hnd.
      rewrite (lookup_total_Some _ _ _ Hl') in Hnd. congruence.
  - intros Hr. assert (Hl : loans s !! i = Some (loans s !!! i))
      by (apply present_of_flag; by right; right).
    destruct (run_loan_advances txs s i _ HI Hl) as (l' & Hl' & _ & _ & _ & Hr').
    destruct (Hr' Hr) as [Hrep _].
    unfold isLoanOverdue. rewrite (lookup_total_Some _ _ _ Hl'), Hrep.
    split; [done|]. split; [|split; [|by rewrite andb_false_r]].
    + destruct (call (run s txs) e (RepayLoan i)) as [s2|] eqn:Hcall; [|done].
      apply call_Ok in Hcall as [_ H]. simpl in H.
      apply repayLoan_Ok in H as [(_ & _ & Hnr & _) _]. simpl in Hnr.
      rewrite (lookup_total_Some _ _ _ Hl') in Hnr. congruence.
    + destruct (call (run s txs) e (PenalizeDefault i)) as [s2|] eqn:Hcall; [|done].
      apply call_Ok in Hcall as [_ H]. simpl in H.
      apply penalizeDefault_Ok in H as (_ & _ & Hnr & _). simpl in Hnr.
      rewrite (lookup_total_Some _ _ _ Hl') in Hnr. congruence.
Qed.

(* the approved loan of alice cannot be approved again after the default *)
Lemma loan_steps_happen_once_witness :
  Loan.approved (loans loanDisbursed !!! 1) = true ∧
  is_ok (call (run loanDisbursed [(lateEnv, PenalizeDefault 1)])
           (mkEnv deployer 0 t0) (ApproveLoan 1)) = false.
Proof.
  assert (Ha : Loan.approved (loans loanDisbursed !!! 1) = true)
    by by_computation.
  split; [exact Ha|].
  destruct (loan_steps_happen_once loanDisbursed 1 [(lateEnv, PenalizeDefault 1)]
              (mkEnv deployer 0 t0) reachable_loanDisbursed) as [Hap _].
  destruct (Hap Ha) as (_ & _ & Hfail & _). exact Hfail.
Defined.

(** X20: called by the admin without value, approveLoan succeeds exactly
    when the id is that of a loan not yet approved, the balance covers the
    principal, neither the due date nor the borrower's totalBorrowed
    overflows, and the borrower takes the payment. It then sets approved and disbursed, writes the current time
    as approval and disbursement time and the current time plus the loan
    duration (the demo duration in demo mode, else 7 days) as due date, adds
    the principal to the borrower's totalBorrowed and takes it from the
    balance, and changes no other loan or member. *)
Theorem approveLoan_spec s e _loanId :
  reachable s → sender e = admin s → value e = 0 →
  let loan := loans s !!! _loanId in
  let b := Loan.borrower loan in
  let due := timestamp e + loanDuration s in
  (is_ok (call s e (ApproveLoan _loanId)) = true ↔
     1 <= _loanId <= loanCount s ∧ Loan.approved loan = false ∧
     Loan.amount loan <= balance s ∧ due <= MAX_UINT256 ∧
     MemberData.totalBorrowed (members s !!! b) + Loan.amount loan
       <= MAX_UINT256 ∧
     accepts e b = true) ∧
  (∀ s', call s e (ApproveLoan _loanId) = Ok s' →
     loans s' !!! _loanId
       = Loan.disburse (timestamp e) due (Loan.approve (timestamp e) loan) ∧
     members s' !!! b
       = MemberData.set_totalBorrowed
           (MemberData.totalBorrowed (members s !!! b) + Loan.amount loan)
           (members s !!! b) ∧
     balance s' = balance s - Loan.amount loan ∧
     (∀ j, j ≠ _loanId → loans s' !! j = loans s !! j) ∧
     (∀ a, a ≠ b → members s' !! a = members s !! a)).
Proof.
  intros Hs Hadmin Hval. pose proof (reachable_Inv s Hs) as HI.
  pose proof (reachable_LoanInv s Hs) as HL. simpl.
  rewrite (call_nonpayable s e (ApproveLoan _loanId) eq_refl Hval).
  cbn [body].
  set (s0 := set_balance (balance s + 0) s).
  split; [split|].
  - destruct (approveLoan s0 e _loanId) as [s'|] eqn:H; [|done]. intros _.
    pose proof (approveLoan_paid _ _ _ _ H) as Htakes.
    apply approveLoan_Ok in H as [(_ & Hb & Ha & _ & Hbal & Hdue & Htb) _].
    simpl in *.
    assert (1 <= _loanId <= loanCount s).
    { destruct (loans s !! _loanId) as [l|] eqn:Hl.
      - by apply (inv_loan_ids _ HI) in Hl.
      - rewrite lookup_total_alt, Hl in Hb. done. }
    change (loanDuration s0) with (loanDuration s) in Hdue.
    split_and!; try done; lia.
  - intros (Hi & Ha & Hbal & Hdue & Htb & Htakes).
    destruct (li_dense _ HL _ Hi) as [l Hl].
    destruct (li_wf _ HL _ _ Hl) as (_ & Hb & _).
    pose proof (inv_approved _ HI _ _ Hl) as Had.
    rewrite (lookup_total_Some _ _ _ Hl) in *.
    unfold approveLoan. subst s0. simpl.
    rewrite (lookup_total_Some _ _ _ Hl).
    rewrite Hadmin, Z.eqb_refl, Ha, <- Had, Ha. simpl.
    destruct (Z.eqb_spec (Loan.borrower l) 0); [lia|]. simpl.
    destruct (Z.leb_spec (Loan.amount l) (balance s + 0)); [|lia]. simpl.
    change (loanDuration (set_balance _ s)) with (loanDuration s).
    rewrite add_no_overflow by done. simpl.
    unfold creditBorrowed. simpl. rewrite add_no_overflow by done. simpl.
    unfold transfer. simpl. rewrite Htakes.
    by destruct (Z.leb_spec (Loan.amount l) (balance s + 0)); [|lia].
  - intros s' H. apply approveLoan_Ok in H as [_ ->]. subst s0. simpl.
    rewrite !lookup_total_insert_eq. split_and!; try done; try lia.
    + intros j Hj. by rewrite lookup_insert_ne.
    + intros a Ha. by rewrite lookup_insert_ne.
Qed.

(* the approval in the scenario; it would fail if alice did not take the
   payment *)
Lemma approveLoan_spec_witness :
  is_ok (call loanRequested (mkEnv deployer 0 t0) (ApproveLoan 1)) = true ∧
  is_ok (call loanRequested (mkWorld deployer 0 t0 (λ a, negb (a =? alice)))
           (ApproveLoan 1)) = false ∧
  Loan.dueDate (loans loanDisbursed !!! 1) = t0 + 7 * days ∧
  MemberData.totalBorrowed (members loanDisbursed !!! alice) = 10 * ether.
Proof.
  assert (Hadmin : sender (mkEnv deployer 0 t0) = admin loanRequested)
    by by_computation.
  assert (Hval : value (mkEnv deployer 0 t0) = 0) by by_computation.
  destruct (approveLoan_spec loanRequested (mkEnv deployer 0 t0) 1
              reachable_loanRequested Hadmin Hval) as [Hiff _].
  split; [apply Hiff; by_computation|]. split; by_computation.
Defined.

(** X21: a loan id outside 1..loanCount is rejected by every loan function:
    approveLoan with "Loan doesn't exist", disburseLoan with "Not approved",
    penalizeDefault with "Not disbursed" (called by the admin), and repayLoan
    with "Not your loan" (called by anyone). *)
Theorem unknown_loan_rejected s e _loanId :
  reachable s → wf_env e → ¬ (1 <= _loanId <= loanCount s) →
  repayLoan s e _loanId = Err (Message "Not your loan") ∧
  (sender e = admin s →
   approveLoan s e _loanId = Err (Message "Loan doesn't exist") ∧
   disburseLoan s e _loanId = Err (Message "Not approved") ∧
   penalizeDefault s e _loanId = Err (Message "Not disbursed")).
Proof.
  intros HI%reachable_Inv ([Hsender _] & _) Hi.
  assert (Hz : loans s !!! _loanId = Loan.zero).
  { rewrite lookup_total_alt.
    destruct (loans s !! _loanId) as [l|] eqn:Hl; [|done].
    destruct Hi. by apply (inv_loan_ids _ HI) in Hl. }
  split.
  - unfold repayLoan. rewrite Hz. change (Loan.borrower Loan.zero) with 0.
    destruct (Z.eqb_spec 0 (sender e)); [lia|done].
  - intros Hadmin. unfold approveLoan, disburseLoan, penalizeDefault.
    rewrite Hz, Hadmin, !Z.eqb_refl. split_and!; reflexivity.
Qed.

Lemma unknown_loan_rejected_witness :
  repayLoan loanDefaulted (mkEnv alice 0 t0) 2 = Err (Message "Not your loan").
Proof.
  assert (Hwf : wf_env (mkEnv alice 0 t0)) by by_computation.
  assert (Hcount : loanCount loanDefaulted = 1) by by_computation.
  destruct (unknown_loan_rejected loanDefaulted (mkEnv alice 0 t0) 2
              reachable_loanDefaulted Hwf) as [Hrepay _]; [rewrite Hcount; lia|].
  exact Hrepay.
Defined.

Lemma bytes_length_pos str : 0 < bytes_length str ↔ str ≠ EmptyString.
Proof.
  unfold bytes_length. destruct str; simpl; split; try done; try lia.
Qed.

Lemma rateOfScore_range trust : 2 <= rateOfScore trust <= 6.
Proof.
  unfold rateOfScore.
  repeat (match goal with |- context [?a <? ?b] =>
            destruct (Z.ltb_spec a b) end); lia.
Qed.

(** X22: sent without value while the loan counter can still grow,
    requestLoan succeeds exactly when the caller is not frozen, is in an
    active circle, has no active loan, asks for a positive amount of at most
    getMaxLoanAmount and gives a purpose. It then sets the caller's
    hasActiveLoan, appends the new id loanCount + 1 to the caller's loan list
    and leaves the balance, the circles, the other members and the existing
    loans as they were. *)
Theorem requestLoan_spec s e _amount _purpose :
  reachable s → value e = 0 → loanCount s + 1 <= MAX_UINT256 →
  let m := members s !!! sender e in
  (is_ok (call s e (RequestLoan _amount _purpose)) = true ↔
     MemberData.isActive m = true ∧ 0 < MemberData.circleId m ∧
     Circle.isActive (circles s !!! MemberData.circleId m) = true ∧
     MemberData.hasActiveLoan m = false ∧
     0 < _amount ∧ _purpose ≠ EmptyString ∧
     ∃ maxAmount, getMaxLoanAmount s (sender e) = Ok maxAmount ∧
                  _amount <= maxAmount) ∧
  (∀ s', call s e (RequestLoan _amount _purpose) = Ok s' →
     members s' !!! sender e = MemberData.set_hasActiveLoan true m ∧
     loanCount s' = loanCount s + 1 ∧
     getUserLoans s' (sender e) = getUserLoans s (sender e) ++ [loanCount s + 1] ∧
     balance s' = balance s ∧ circles s' = circles s ∧
     (∀ a, a ≠ sender e → members s' !! a = members s !! a) ∧
     (∀ j, j ≠ loanCount s + 1 → loans s' !! j = loans s !! j)).
Proof.
  intros HI%reachable_Inv Hval Hcount. simpl.
  rewrite (call_nonpayable s e (RequestLoan _amount _purpose) eq_refl Hval).
  cbn [body]. set (s0 := set_balance (balance s + 0) s).
  split; [split|].
  - destruct (requestLoan s0 e _amount _purpose) as [s'|] eqn:H; [|done].
    intros _. unfold requestLoan in H. inv_ok H. bool_to_prop. subst s0.
    simpl in *. split_and!; try done.
    + by apply bytes_length_pos.
    + eexists. split; [eassumption|done].
  - intros (Hact & Hcid & Hcircle & Hflag & Hamt & Hp & maxAmount & Hmax & Hle).
    unfold requestLoan. subst s0. simpl.
    rewrite Hact, Hcircle, Hflag. simpl.
    destruct (Z.ltb_spec 0 (MemberData.circleId (members s !!! sender e))); [|lia].
    destruct (Z.ltb_spec 0 _amount); [|lia].
    apply bytes_length_pos in Hp.
    destruct (Z.ltb_spec 0 (bytes_length _purpose)); [|lia]. simpl.
    change (getMaxLoanAmount (set_balance (balance s + 0) s) (sender e))
      with (getMaxLoanAmount s (sender e)).
    change (getInterestRate (set_balance (balance s + 0) s) (sender e))
      with (getInterestRate s (sender e)).
    rewrite Hmax. simpl.
    destruct (Z.leb_spec _amount maxAmount); [|lia]. simpl.
    unfold getMaxLoanAmount, getInterestRate in *.
    destruct (getTrustScore s (sender e)) as [trust|]; [|done]. simpl in *.
    injection Hmax as <-.
    pose proof (maxLoanOfScore_le trust). pose proof (rateOfScore_range trust).
    pose proof MAX_UINT256_large. unfold ether in *.
    unfold mul. destruct (Z.leb_spec (_amount * rateOfScore trust) MAX_UINT256);
      [|nia]. simpl.
    assert (0 <= _amount * rateOfScore trust / 100 <= _amount * rateOfScore trust).
    { split; [apply Z.div_pos; nia|]. apply Z.div_le_upper_bound; nia. }
    rewrite !add_no_overflow by nia. done.
  - intros s' H. unfold requestLoan in H. inv_ok H. injection H as <-.
    subst s0. unfold getUserLoans. simpl.
    rewrite lookup_total_insert_eq, lookup_insert_eq. simpl.
    split_and!; try done; try lia.
    + intros a Ha. by rewrite lookup_insert_ne.
    + intros j Hj. by rewrite lookup_insert_ne.
Qed.

(* alice's request in the scenario; a second one by her is refused *)
Lemma requestLoan_spec_witness :
  is_ok (call circleOfThree (mkEnv alice 0 t0) (RequestLoan (10 * ether) "seeds"))
    = true ∧
  is_ok (call circleOfThree (mkEnv alice 0 t0) (RequestLoan (11 * ether) "seeds"))
    = false.
Proof.
  assert (Hval : value (mkEnv alice 0 t0) = 0) by by_computation.
  assert (Hcount : loanCount circleOfThree + 1 <= MAX_UINT256) by by_computation.
  destruct (requestLoan_spec circleOfThree (mkEnv alice 0 t0) (10 * ether)
              "seeds" reachable_circleOfThree Hval Hcount) as [[_ Hok] _].
  split; [|by_computation].
  apply Hok. split; [by_computation|]. split; [by_computation|].
  split; [by_computation|]. split; [by_computation|]. split; [by_computation|].
  split; [done|]. exists (10 * ether). split; by_computation.
Defined.

(** ** Handing over and freezing *)

(** X23: a successful transferAdmin makes the named address the admin and
    changes nothing else; if that is another address, every onlyAdmin call
    of the former admin is rejected from then on, until the admin changes
    again. *)
Theorem transferAdmin_hands_over s e _newAdmin s' :
  call s e (TransferAdmin _newAdmin) = Ok s' →
  sender e = admin s ∧ _newAdmin ≠ 0 ∧ s' = set_admin _newAdmin s ∧
  (_newAdmin ≠ sender e →
   ∀ e' c, sender e' = sender e → admin_only c = true →
           is_ok (call s' e' c) = false ∧ transact s' e' c = s').
Proof.
  intros [[[=]|Hval] H]%call_Ok. simpl in H. unfold transferAdmin in H.
  inv_ok H. injection H as <-. bool_to_prop. simpl in *.
  split; [done|]. split; [done|]. split.
  - rewrite Hval, Z.add_0_r. by destruct s.
  - intros Hne e' c Hsame Hc. apply transact_not_admin; [done|].
    simpl. congruence.
Qed.

(* the deployer hands the contract to carol and then tries to withdraw *)
Lemma transferAdmin_hands_over_witness :
  admin handedOver = carol ∧
  transact handedOver (mkEnv deployer 0 t0) (Withdraw ether) = handedOver.
Proof.
  assert (Hcall : call loanDefaulted (mkEnv deployer 0 t0) (TransferAdmin carol)
                  = Ok handedOver) by by_computation.
  destruct (transferAdmin_hands_over _ _ _ _ Hcall) as (_ & _ & _ & Hlocked).
  split; [by_computation|].
  assert (Hne : carol ≠ sender (mkEnv deployer 0 t0)) by by_computation.
  apply (Hlocked Hne (mkEnv deployer 0 t0) (Withdraw ether) eq_refl eq_refl).
Defined.

(** X24: the flag isActive of an address turns from false to true in one
    transaction only by an unfreezeAccount for that address sent by the
    admin (who may be that address), or by a createCircle or joinCircle sent
    by that address while it has no circle. *)
Theorem frozen_until_unfrozen s e c a :
  MemberData.isActive (members s !!! a) = false →
  MemberData.isActive (members (transact s e c) !!! a) = true →
  (c = UnfreezeAccount a ∧ sender e = admin s) ∨
  (joins c ∧ sender e = a ∧ MemberData.circleId (members s !!! a) = 0).
Proof.
  intros Hfrozen. unfold transact.
  destruct (call s e c) as [s'|] eqn:Hcall; [|congruence].
  apply call_Ok in Hcall as [_ H].
  body_inv H; simpl in *; try congruence.
  - destruct (decide (sender e = a)) as [<-|].
    + intros _. right. split_and!; try done. left. by eexists.
    + rewrite lookup_total_insert_ne by done. congruence.
  - destruct (decide (sender e = a)) as [<-|].
    + intros _. right. split_and!; try done. right. by eexists.
    + rewrite lookup_total_insert_ne by done. congruence.
  - destruct (decide (sender e = a)) as [<-|].
    + rewrite lookup_total_insert_eq. simpl. congruence.
    + rewrite lookup_total_insert_ne by done. congruence.
  - match goal with |- context [<[?b := _]> _ !!! a] =>
      destruct (decide (b = a)) as [<-|] end.
    + rewrite lookup_total_insert_eq. simpl. congruence.
    + rewrite lookup_total_insert_ne by done. congruence.
  - match goal with |- context [<[?b := _]> _ !!! a] =>
      destruct (decide (b = a)) as [<-|] end.
    + rewrite lookup_total_insert_eq. simpl. congruence.
    + rewrite lookup_total_insert_ne by done. congruence.
  - destruct (decide (sender e = a)) as [<-|].
    + rewrite lookup_total_insert_eq. destruct (0 <? _); simpl; congruence.
    + rewrite lookup_total_insert_ne by done. congruence.
  - set (b := Loan.borrower (loans s !!! _loanId)).
    assert (Hb : MemberData.isActive
        (<[b := MemberData.set_isActive false
                  (slash DEFAULT_PENALTY (members s !!! b))]> (members s) !!! a)
        = false).
    { destruct (decide (b = a)) as [<-|].
      - by rewrite lookup_total_insert_eq.
      - by rewrite lookup_total_insert_ne. }
    destruct (0 <? _); [|congruence].
    match goal with |- context [penalizeMembers ?ms ?l ?d] =>
      destruct (penalizeMembers_fields l d a ms) as [sc ->] end.
    simpl. congruence.
  - destruct (decide (_user = a)) as [<-|].
    + intros _. by left.
    + rewrite lookup_total_insert_ne by done. congruence.
Qed.

(* the admin unfreezes alice after her default *)
Lemma frozen_until_unfrozen_witness :
  MemberData.isActive (members loanDefaulted !!! alice) = false ∧
  MemberData.isActive
    (members (transact loanDefaulted (mkEnv deployer 0 t0) (UnfreezeAccount alice))
       !!! alice) = true ∧
  sender (mkEnv deployer 0 t0) = admin loanDefaulted.
Proof.
  assert (Hfrozen : MemberData.isActive (members loanDefaulted !!! alice) = false)
    by by_computation.
  assert (Hthawed : MemberData.isActive
    (members (transact loanDefaulted (mkEnv deployer 0 t0) (UnfreezeAccount alice))
       !!! alice) = true) by by_computation.
  split; [exact Hfrozen|]. split; [exact Hthawed|].
  destruct (frozen_until_unfrozen _ _ _ _ Hfrozen Hthawed)
    as [[_ Hadmin]|(Hj & _)]; [exact Hadmin|].
  by destruct Hj as [[? [=]]|[? [=]]].
Defined.
